(** * Snake-in-the-box search: a shallow embedding of the search core

    The development follows the Python package [snake_in_box]:
    - [core/hypercube.py]    : [HypercubeBitmap]
    - [core/transitions.py]  : the transition/vertex codec, the hexadecimal text format
    - [core/validation.py]   : [hamming_distance], [validate_snake],
                               [validate_transition_sequence]
    - [utils/canonical.py]   : [is_canonical], [get_legal_next_dimensions]
    - [core/snake_node.py]   : [SnakeNode]
    - [search/fitness.py]    : [SimpleFitnessEvaluator], [AdvancedFitnessEvaluator]
    - [search/bfs_pruned.py] : [pruned_bfs_search]
    - [search/priming.py]    : [pruned_bfs_search_from_seed], [prime_search]

    Python integers are unbounded, so they are [Z]; the bitwise operators
    [^], [&], [|], [<<], [>>] are [Z.lxor], [Z.land], [Z.lor], [Z.shiftl],
    [Z.shiftr] (two's complement on negative numbers, as in Python).
    Exceptions are values of [exn] carried by the [result] monad. *)

From Stdlib Require Import ZArith QArith Qround List Lia Bool String Ascii.
From Stdlib Require Floats.
From stdpp Require Import gmap.
Import ListNotations.
Open Scope Z_scope.

(* ===================================================================== *)
(** * Part I: the program                                                 *)
(* ===================================================================== *)

(** ** Exceptions and the error monad *)

(** The text of every message the code formats, with the values of the
    holes of its f-string. *)
Inductive message : Type :=
| DimensionTooSmall (dimension : Z)
    (* "Dimension must be >= 1, got {dimension}" *)
| TransitionOutOfRange (trans dimension : Z)
    (* "Transition {trans} out of range [0, {dimension})" *)
| IdenticalVertices (i : nat) (v : Z)
    (* "Consecutive vertices {i} and {i+1} are identical: {v}" *)
| MultipleBits (i : nat) (a b : Z)
    (* "Consecutive vertices {i} and {i+1} differ in multiple bits: ..." *)
| CannotExtend (new_dimension : Z)
    (* "Cannot extend snake with dimension {d} - next vertex is already marked" *)
| SeedDimensionMismatch (seed_dimension dimension : Z)
    (* "Seed node dimension {a} does not match target dimension {b}" *)
| NegativeShiftCount
    (* raised by the interpreter for [a << b] with [b < 0] *)
| FloatNaNToInteger
    (* raised by the interpreter for [int(x)] when [x] is not a number *).

Inductive exn : Type :=
| ValueError (m : message)
| IndexError (index bound : Z)
| OverflowError
| ZeroDivisionError.

Inductive result (A : Type) : Type :=
| Ok (a : A)
| Err (e : exn).
Arguments Ok {A} a.
Arguments Err {A} e.

Definition bind {A B : Type} (r : result A) (k : A -> result B) : result B :=
  match r with
  | Ok a => k a
  | Err e => Err e
  end.

Notation "x <- e ;; k" := (bind e (fun x => k))
  (at level 100, e at next level, right associativity).

(** [for x in l: s = body x s], stopping at the first exception. *)
Fixpoint for_each {A S : Type} (l : list A) (body : A -> S -> result S) (s : S)
  : result S :=
  match l with
  | [] => Ok s
  | x :: rest => s' <- body x s ;; for_each rest body s'
  end.

(** A [for] loop whose body may [return]: the first [Some] wins. *)
Fixpoint for_first {A R : Type} (l : list A) (body : A -> option R) : option R :=
  match l with
  | [] => None
  | x :: rest =>
      match body x with
      | Some r => Some r
      | None => for_first rest body
      end
  end.

(** ** Python built-ins *)

(** [range(n)] and [range(a, b)] over list positions. *)
Definition range (n : nat) : list nat := seq 0 n.
Definition range_from (a b : nat) : list nat := seq a (b - a).

(** [range(n)] over integers: empty when [n <= 0]. *)
Definition zrange (n : Z) : list Z := map Z.of_nat (seq 0 (Z.to_nat n)).

(** [a << b]: the interpreter raises [ValueError] on a negative count. *)
Definition py_lshift (a b : Z) : result Z :=
  if b <? 0 then Err (ValueError NegativeShiftCount) else Ok (Z.shiftl a b).

(** [bin(x)]: ["0b"] followed by the binary digits of [|x|], with a leading
    ["-"] for negative numbers. *)
Fixpoint bin_digits (p : positive) : string :=
  match p with
  | xH => "1"
  | xO q => bin_digits q ++ "0"
  | xI q => bin_digits q ++ "1"
  end%string.

Definition bin (x : Z) : string :=
  match x with
  | Z0 => "0b0"
  | Zpos p => "0b" ++ bin_digits p
  | Zneg p => "-0b" ++ bin_digits p
  end%string.

(** [s.count(c)] for a one-character pattern [c]. *)
Fixpoint str_count (s : string) (c : ascii) : Z :=
  match s with
  | EmptyString => 0
  | String a rest => (if Ascii.eqb a c then 1 else 0) + str_count rest c
  end.

(** [x.bit_length()] *)
Definition bit_length (x : Z) : Z :=
  if x =? 0 then 0 else Z.log2 (Z.abs x) + 1.

(** [max(l)] of a non-empty list, given as head and tail. *)
Definition py_max (x : Z) (l : list Z) : Z := fold_left Z.max l x.

(** [list.sort()] on integers (ascending); any sorting algorithm gives the
    same list, insertion sort is used here. *)
Fixpoint insert_sorted (x : Z) (l : list Z) : list Z :=
  match l with
  | [] => [x]
  | y :: rest => if x <=? y then x :: y :: rest else y :: insert_sorted x rest
  end.

Definition py_sorted (l : list Z) : list Z := fold_right insert_sorted [] l.

(** [set(l)] as the list of its distinct elements.  The iteration order of
    a Python set is unspecified; every use below either sorts the elements
    or only performs idempotent, commuting bitmap updates per element. *)
Definition py_set (l : list Z) : list Z := nodup Z.eq_dec l.

(** [l[:k]] with Python's treatment of a negative bound. *)
Definition py_slice_to {A : Type} (l : list A) (k : Z) : list A :=
  if k <? 0 then firstn (Z.to_nat (Z.of_nat (length l) + k)) l
  else firstn (Z.to_nat k) l.

(** ** core/transitions.py *)

(** The loop of [vertex_to_transition] over [i in range(len - 1)], written
    over the consecutive pairs [(v[i], v[i+1])]; the exception aborts the
    loop, so the accumulated list is only seen on success. *)
Fixpoint vertex_to_transition_from (i : nat) (vertex_sequence : list Z)
  : result (list Z) :=
  match vertex_sequence with
  | a :: ((b :: _) as rest) =>
      let xor_result := Z.lxor a b in
      if xor_result =? 0 then Err (ValueError (IdenticalVertices i a))
      else if negb (Z.land xor_result (xor_result - 1) =? 0)
      then Err (ValueError (MultipleBits i a b))
      else
        let bit_position := bit_length xor_result - 1 in
        transitions <- vertex_to_transition_from (S i) rest ;;
        Ok (bit_position :: transitions)
  | _ => Ok []
  end.

Definition vertex_to_transition (vertex_sequence : list Z) : result (list Z) :=
  if (length vertex_sequence <? 2)%nat then Ok []
  else vertex_to_transition_from 0 vertex_sequence.

Fixpoint transition_to_vertex_loop (dimension : Z) (transition_sequence : list Z)
  (current : Z) (vertices : list Z) : result (list Z) :=
  match transition_sequence with
  | [] => Ok vertices
  | transition :: rest =>
      if (transition <? 0) || (transition >=? dimension)
      then Err (ValueError (TransitionOutOfRange transition dimension))
      else
        let current := Z.lxor current (Z.shiftl 1 transition) in
        transition_to_vertex_loop dimension rest current (vertices ++ [current])
  end.

Definition transition_to_vertex (transition_sequence : list Z) (dimension : Z)
  (start_vertex : Z) : result (list Z) :=
  transition_to_vertex_loop dimension transition_sequence start_vertex [start_vertex].

Definition compute_current_vertex (transition_sequence : list Z) : result Z :=
  for_each transition_sequence
    (fun transition vertex =>
       bit <- py_lshift 1 transition ;; Ok (Z.lxor vertex bit))
    0.

(** ** core/validation.py *)

Definition hamming_distance (a b : Z) : Z :=
  str_count (bin (Z.lxor a b)) "1"%char.

(** The second component of the pair [validate_snake] returns. *)
Inductive reason : Type :=
| ValidTrivial
    (* "Valid snake (trivial case)" *)
| ValidSnake
    (* "Valid snake" *)
| ConsecutiveViolation (i i' : nat) (hamming_dist : Z)
    (* "Consecutive vertices {i} and {i+1} have Hamming distance {d}, expected 1" *)
| NonConsecutiveViolation (j i : nat) (hamming_dist : Z)
    (* "Non-consecutive vertices {j} and {i} have Hamming distance {d}, must be > 1" *).

Definition check_consecutive (vertex_sequence : list Z) (i : nat) : option reason :=
  let hamming_dist :=
    hamming_distance (nth i vertex_sequence 0) (nth (i + 1) vertex_sequence 0) in
  if negb (hamming_dist =? 1)
  then Some (ConsecutiveViolation i (i + 1) hamming_dist)
  else None.

Definition check_non_consecutive (vertex_sequence : list Z) (i j : nat)
  : option reason :=
  let hamming_dist :=
    hamming_distance (nth i vertex_sequence 0) (nth j vertex_sequence 0) in
  if hamming_dist <=? 1
  then Some (NonConsecutiveViolation j i hamming_dist)
  else None.

Definition validate_snake (vertex_sequence : list Z) : bool * reason :=
  let n := length vertex_sequence in
  if (n <? 2)%nat then (true, ValidTrivial)
  else
    match for_first (range (n - 1)) (check_consecutive vertex_sequence) with
    | Some r => (false, r)
    | None =>
        match for_first (range_from 2 n)
                (fun i => for_first (range (i - 1))
                            (check_non_consecutive vertex_sequence i)) with
        | Some r => (false, r)
        | None => (true, ValidSnake)
        end
    end.

(** ** utils/canonical.py *)

Fixpoint is_canonical_loop (max_dimension : Z) (transition_sequence : list Z) : bool :=
  match transition_sequence with
  | [] => true
  | dim :: rest =>
      if dim >? max_dimension + 1 then false
      else
        is_canonical_loop
          (if dim =? max_dimension + 1 then dim else max_dimension) rest
  end.

Definition is_canonical (transition_sequence : list Z) : bool :=
  match transition_sequence with
  | [] => true
  | first :: _ =>
      if negb (first =? 0) then false
      else is_canonical_loop 0 transition_sequence
  end.

Definition get_legal_next_dimensions (transition_sequence : list Z) : list Z :=
  match transition_sequence with
  | [] => [0]
  | first :: others =>
      let max_dim := py_max first others in
      py_sorted (py_set transition_sequence ++ [max_dim + 1])
  end.

(** ** core/hypercube.py *)

(** Indexing an [array.array('Q')]: a negative index counts from the end,
    an index outside [[-len, len)] raises [IndexError], and a stored value
    must fit an unsigned 64-bit word ([OverflowError] otherwise). *)
Definition array_index (a : list Z) (i : Z) : result nat :=
  let len := Z.of_nat (length a) in
  if (i <? - len) || (i >=? len) then Err (IndexError i len)
  else Ok (Z.to_nat (if i <? 0 then len + i else i)).

Definition array_get (a : list Z) (i : Z) : result Z :=
  k <- array_index a i ;;
  match a !! k with
  | Some w => Ok w
  | None => Err (IndexError i (Z.of_nat (length a)))
  end.

Definition array_set (a : list Z) (i : Z) (w : Z) : result (list Z) :=
  k <- array_index a i ;;
  if (w <? 0) || (w >=? 2 ^ 64) then Err OverflowError
  else Ok (<[k := w]> a).

Module HypercubeBitmap.

Record t : Type := {
  dimension : Z;
  num_vertices : Z;
  num_words : Z;
  bitmap : list Z
}.

(** [HypercubeBitmap(dimension)] *)
Definition new (dimension : Z) : result t :=
  if dimension <? 1 then Err (ValueError (DimensionTooSmall dimension))
  else
    let num_vertices := Z.shiftl 1 dimension in
    let num_words := (num_vertices + 63) / 64 in
    Ok {| dimension := dimension;
          num_vertices := num_vertices;
          num_words := num_words;
          bitmap := repeat 0 (Z.to_nat num_words) |}.

Definition with_bitmap (self : t) (words : list Z) : t :=
  {| dimension := dimension self;
     num_vertices := num_vertices self;
     num_words := num_words self;
     bitmap := words |}.

Definition set_bit (self : t) (vertex : Z) : result t :=
  if (vertex <? 0) || (vertex >=? num_vertices self)
  then Err (IndexError vertex (num_vertices self))
  else
    let word_idx := Z.shiftr vertex 6 in
    let bit_idx := Z.land vertex 63 in
    word <- array_get (bitmap self) word_idx ;;
    words <- array_set (bitmap self) word_idx (Z.lor word (Z.shiftl 1 bit_idx)) ;;
    Ok (with_bitmap self words).

Definition get_bit (self : t) (vertex : Z) : result bool :=
  if (vertex <? 0) || (vertex >=? num_vertices self)
  then Err (IndexError vertex (num_vertices self))
  else
    let word_idx := Z.shiftr vertex 6 in
    let bit_idx := Z.land vertex 63 in
    word <- array_get (bitmap self) word_idx ;;
    Ok (negb (Z.land word (Z.shiftl 1 bit_idx) =? 0)).

Definition clear_bit (self : t) (vertex : Z) : result t :=
  if (vertex <? 0) || (vertex >=? num_vertices self)
  then Err (IndexError vertex (num_vertices self))
  else
    let word_idx := Z.shiftr vertex 6 in
    let bit_idx := Z.land vertex 63 in
    word <- array_get (bitmap self) word_idx ;;
    words <- array_set (bitmap self) word_idx
               (Z.land word (Z.lnot (Z.shiftl 1 bit_idx))) ;;
    Ok (with_bitmap self words).

Definition count_unmarked (self : t) : result Z :=
  for_each (zrange (num_vertices self))
    (fun vertex count =>
       marked <- get_bit self vertex ;;
       Ok (if negb marked then count + 1 else count))
    0.

Definition count_unmarked_fast (self : t) : Z :=
  let marked_bits :=
    fold_left (fun acc word => acc + str_count (bin word) "1"%char)
      (bitmap self) 0 in
  num_vertices self - marked_bits.

Definition clear_all (self : t) : result t :=
  words <- for_each (zrange (num_words self))
             (fun i words => array_set words i 0) (bitmap self) ;;
  Ok (with_bitmap self words).

Definition copy (self : t) : result t :=
  new_bitmap <- new (dimension self) ;;
  Ok (with_bitmap new_bitmap (bitmap self)).

End HypercubeBitmap.

(** ** core/snake_node.py *)

Module SnakeNode.

Record t : Type := {
  transition_sequence : list Z;
  dimension : Z;
  vertices_bitmap : HypercubeBitmap.t;
  fitness : Z
}.

Definition _get_used_dimensions (transition_sequence : list Z) : list Z :=
  match transition_sequence with
  | [] => []
  | _ => py_set transition_sequence
  end.

Definition _mark_vertex (vertex : Z) (bitmap : HypercubeBitmap.t)
  : result HypercubeBitmap.t :=
  HypercubeBitmap.set_bit bitmap vertex.

(** [used_dimensions = None] is the default argument of the method. *)
Definition _mark_adjacent (dimension : Z) (vertex : Z)
  (bitmap : HypercubeBitmap.t) (used_dimensions : option (list Z))
  : result HypercubeBitmap.t :=
  let used_dimensions :=
    match used_dimensions with
    | None => zrange dimension
    | Some used => used
    end in
  for_each used_dimensions
    (fun dim bitmap =>
       if dim <? dimension then
         bit <- py_lshift 1 dim ;;
         HypercubeBitmap.set_bit bitmap (Z.lxor vertex bit)
       else Ok bitmap)
    bitmap.

(** The body of the loop of [_initialize_bitmap], on the loop variables
    [(current_vertex, bitmap)]. *)
Definition _initialize_bitmap_step (dimension : Z) (used_dimensions : list Z)
  (transition : Z) (state : Z * HypercubeBitmap.t)
  : result (Z * HypercubeBitmap.t) :=
  let (current_vertex, bitmap) := state in
  bit <- py_lshift 1 transition ;;
  let current_vertex := Z.lxor current_vertex bit in
  bitmap <- _mark_vertex current_vertex bitmap ;;
  bitmap <- _mark_adjacent dimension current_vertex bitmap (Some used_dimensions) ;;
  Ok (current_vertex, bitmap).

Definition _initialize_bitmap (transition_sequence : list Z) (dimension : Z)
  : result HypercubeBitmap.t :=
  bitmap <- HypercubeBitmap.new dimension ;;
  let used_dimensions := _get_used_dimensions transition_sequence in
  let current_vertex := 0 in
  bitmap <- _mark_vertex current_vertex bitmap ;;
  bitmap <- _mark_adjacent dimension current_vertex bitmap (Some used_dimensions) ;;
  state <- for_each transition_sequence
             (_initialize_bitmap_step dimension used_dimensions)
             (current_vertex, bitmap) ;;
  Ok (snd state).

Definition _calculate_fitness (vertices_bitmap : HypercubeBitmap.t) : result Z :=
  HypercubeBitmap.count_unmarked vertices_bitmap.

(** The body of the validation loop of [__init__]. *)
Definition _check_transition (dimension : Z) (trans : Z) (_ : unit) : result unit :=
  if (trans <? 0) || (trans >=? dimension)
  then Err (ValueError (TransitionOutOfRange trans dimension))
  else Ok tt.

(** [SnakeNode(transition_sequence, dimension)] *)
Definition new (transition_sequence : list Z) (dimension : Z) : result t :=
  if dimension <? 1 then Err (ValueError (DimensionTooSmall dimension))
  else
    _ <- for_each transition_sequence (_check_transition dimension) tt ;;
    vertices_bitmap <- _initialize_bitmap transition_sequence dimension ;;
    fitness <- _calculate_fitness vertices_bitmap ;;
    Ok {| transition_sequence := transition_sequence;
          dimension := dimension;
          vertices_bitmap := vertices_bitmap;
          fitness := fitness |}.

Definition _is_marked (self : t) (vertex : Z) : result bool :=
  HypercubeBitmap.get_bit (vertices_bitmap self) vertex.

Definition get_current_vertex (self : t) : result Z :=
  compute_current_vertex (transition_sequence self).

Definition can_extend (self : t) (new_dimension : Z) : result bool :=
  if (new_dimension <? 0) || (new_dimension >=? dimension self) then Ok false
  else
    current_vertex <- get_current_vertex self ;;
    bit <- py_lshift 1 new_dimension ;;
    let next_vertex := Z.lxor current_vertex bit in
    marked <- _is_marked self next_vertex ;;
    Ok (negb marked).

Definition create_child (self : t) (new_dimension : Z) : result t :=
  extendable <- can_extend self new_dimension ;;
  if negb extendable then Err (ValueError (CannotExtend new_dimension))
  else
    let new_sequence := transition_sequence self ++ [new_dimension] in
    new new_sequence (dimension self).

Definition get_length (self : t) : Z :=
  Z.of_nat (length (transition_sequence self)).

End SnakeNode.

(** ** search/fitness.py *)

Module SimpleFitnessEvaluator.

Record t : Type := { node : SnakeNode.t }.

(** [SimpleFitnessEvaluator(node)] *)
Definition new (node : SnakeNode.t) : t := {| node := node |}.

Definition evaluate (self : t) : Z := SnakeNode.fitness (node self).

End SimpleFitnessEvaluator.

Module AdvancedFitnessEvaluator.

Record t : Type := {
  node : SnakeNode.t;
  bitmap : HypercubeBitmap.t;
  dimension : Z
}.

(** [AdvancedFitnessEvaluator(node)] *)
Definition new (node : SnakeNode.t) : t :=
  {| node := node;
     bitmap := SnakeNode.vertices_bitmap node;
     dimension := SnakeNode.dimension node |}.

Definition count_unmarked_vertices (self : t) : Z :=
  SnakeNode.fitness (node self).

(** The body of the inner loop of [_flood_fill_reachable]: the neighbour
    along [dim] is appended to the queue unless it was visited.  [dim]
    ranges over [range(dimension)], so the shift count is not negative. *)
Definition _enqueue_neighbor (vertex : Z) (visited : gset Z) (queue : list Z)
  (dim : Z) : list Z :=
  let neighbor := Z.lxor vertex (Z.shiftl 1 dim) in
  if decide (neighbor ∈ visited) then queue else queue ++ [neighbor].

(** The [while queue:] loop of [_flood_fill_reachable]; one unit of fuel
    per iteration, [None] when the fuel runs out. *)
Fixpoint _flood_fill_loop (fuel : nat) (self : t) (visited : gset Z)
  (queue : list Z) : option (result (gset Z)) :=
  match fuel with
  | O => None
  | S fuel =>
      match queue with
      | [] => Some (Ok visited)
      | vertex :: queue =>
          if decide (vertex ∈ visited)
          then _flood_fill_loop fuel self visited queue
          else
            match SnakeNode._is_marked (node self) vertex with
            | Err e => Some (Err e)
            | Ok true => _flood_fill_loop fuel self visited queue
            | Ok false =>
                let visited := visited ∪ {[vertex]} in
                let queue :=
                  fold_left (_enqueue_neighbor vertex visited)
                    (zrange (dimension self)) queue in
                _flood_fill_loop fuel self visited queue
            end
      end
  end.

Definition _flood_fill_reachable (fuel : nat) (self : t) (start_vertex : Z)
  : option (result (gset Z)) :=
  _flood_fill_loop fuel self ∅ [start_vertex].

Definition count_unreachable_vertices (fuel : nat) (self : t)
  : option (result Z) :=
  match compute_current_vertex (SnakeNode.transition_sequence (node self)) with
  | Err e => Some (Err e)
  | Ok current_vertex =>
      match _flood_fill_reachable fuel self current_vertex with
      | None => None
      | Some (Err e) => Some (Err e)
      | Some (Ok reachable) =>
          let total_unmarked := count_unmarked_vertices self in
          Some (Ok (total_unmarked - Z.of_nat (size reachable)))
      end
  end.

(** The inner loop of [count_dead_ends]: the unmarked neighbours of
    [vertex]. *)
Definition _count_unmarked_neighbors (self : t) (vertex : Z) : result Z :=
  for_each (zrange (dimension self))
    (fun dim unmarked_neighbors =>
       let neighbor := Z.lxor vertex (Z.shiftl 1 dim) in
       marked <- SnakeNode._is_marked (node self) neighbor ;;
       Ok (if negb marked then unmarked_neighbors + 1 else unmarked_neighbors))
    0.

(** The body of the outer loop of [count_dead_ends]; a marked vertex is
    skipped by [continue]. *)
Definition _count_dead_end (self : t) (vertex : Z) (dead_ends : Z) : result Z :=
  marked <- SnakeNode._is_marked (node self) vertex ;;
  if marked then Ok dead_ends
  else
    unmarked_neighbors <- _count_unmarked_neighbors self vertex ;;
    Ok (if unmarked_neighbors =? 1 then dead_ends + 1 else dead_ends).

Definition count_dead_ends (self : t) : result Z :=
  num_vertices <- py_lshift 1 (dimension self) ;;
  for_each (zrange num_vertices) (_count_dead_end self) 0.

End AdvancedFitnessEvaluator.

(** ** search/bfs_pruned.py *)

(** The memory estimate uses [sys.getsizeof] and floating-point
    arithmetic, which depend on the interpreter; they are parameters of
    the development.  [float] is the type of [memory_limit_gb]. *)
Class Platform : Type := {
  float : Type;
  getsizeof_list : list Z -> Z;
    (* sys.getsizeof(l) for a list of integers *)
  getsizeof_int : Z -> Z;
    (* sys.getsizeof(i) *)
  getsizeof_array : list Z -> Z;
    (* sys.getsizeof(a) for an array('Q') *)
  float_zero : float;
    (* 0.0 *)
  bytes_to_gb : Z -> float;
    (* total_bytes / (1024**3) *)
  float_gt : float -> float -> bool;
    (* a > b *)
  nodes_within : float -> Z -> result Z;
    (* int((memory_limit_gb * 1024**3) / bytes_per_node); the conversion
       raises on an infinite or undefined quotient *)
  high_dimension_memory : float -> float;
    (* min(memory_limit_gb * 2.0, 50.0) *)
  scale_length : Z -> Z -> Z
    (* int(length * ratio), the ratio literal given in thousandths *)
}.

Section Search.
Context `{Platform}.

Definition is_valid_extension (node : SnakeNode.t) (new_dimension : Z)
  : result bool :=
  SnakeNode.can_extend node new_dimension.

Definition estimate_node_size (node : SnakeNode.t) : Z :=
  let transition_size :=
    getsizeof_list (SnakeNode.transition_sequence node)
    + Z.of_nat (length (SnakeNode.transition_sequence node)) * getsizeof_int 0 in
  let bitmap_size :=
    getsizeof_array (HypercubeBitmap.bitmap (SnakeNode.vertices_bitmap node))
    + HypercubeBitmap.num_words (SnakeNode.vertices_bitmap node) * 8 in
  let object_overhead := 200 in
  transition_size + bitmap_size + object_overhead.

Definition estimate_memory_usage (nodes : list SnakeNode.t) : float :=
  match nodes with
  | [] => float_zero
  | first :: _ =>
      let bytes_per_node := estimate_node_size first in
      let total_bytes := Z.of_nat (length nodes) * bytes_per_node in
      bytes_to_gb total_bytes
  end.

(** [nodes.sort(key=lambda n: n.fitness, reverse=True)]: a stable sort by
    decreasing fitness. *)
Fixpoint insert_by_fitness (x : SnakeNode.t) (l : list SnakeNode.t)
  : list SnakeNode.t :=
  match l with
  | [] => [x]
  | y :: rest =>
      if SnakeNode.fitness y <=? SnakeNode.fitness x then x :: y :: rest
      else y :: insert_by_fitness x rest
  end.

Definition sort_by_fitness (nodes : list SnakeNode.t) : list SnakeNode.t :=
  fold_right insert_by_fitness [] nodes.

Definition prune_by_fitness (nodes : list SnakeNode.t) (memory_limit_gb : float)
  : result (list SnakeNode.t) :=
  match nodes with
  | [] => Ok nodes
  | first :: _ =>
      let bytes_per_node := estimate_node_size first in
      max_nodes <- nodes_within memory_limit_gb bytes_per_node ;;
      if Z.of_nat (length nodes) <=? max_nodes then Ok nodes
      else Ok (py_slice_to (sort_by_fitness nodes) max_nodes)
  end.

(** The variables the expansion loops of a level update. *)
Record expansion : Type := {
  next_level : list SnakeNode.t;
  best_snake : option SnakeNode.t;
  max_length : Z;
  total_nodes_explored : Z
}.

(** The body of [for dim in legal_dims]: the [except ValueError] clause
    skips a failed [create_child]; any other exception propagates, as do
    those of [is_valid_extension], which is outside the [try]. *)
Definition expand_dimension (node : SnakeNode.t) (dim : Z) (acc : expansion)
  : result expansion :=
  valid <- is_valid_extension node dim ;;
  if valid then
    match SnakeNode.create_child node dim with
    | Ok child =>
        let child_length := SnakeNode.get_length child in
        let improved := child_length >? max_length acc in
        Ok {| next_level := next_level acc ++ [child];
              best_snake := if improved then Some child else best_snake acc;
              max_length := if improved then child_length else max_length acc;
              total_nodes_explored := total_nodes_explored acc + 1 |}
    | Err (ValueError _) => Ok acc
    | Err e => Err e
    end
  else Ok acc.

(** The body of [for node in current_level]. *)
Definition expand_node (node : SnakeNode.t) (acc : expansion) : result expansion :=
  let legal_dims := get_legal_next_dimensions (SnakeNode.transition_sequence node) in
  for_each legal_dims (expand_dimension node) acc.

Record search_state : Type := {
  current_level : list SnakeNode.t;
  best_so_far : option SnakeNode.t;
  best_length : Z;
  level_count : Z;
  nodes_explored : Z
}.

(** One iteration of the [while current_level:] loop, up to the test for
    an exhausted frontier. *)
Definition bfs_level (memory_limit_gb : float) (st : search_state)
  : result search_state :=
  acc <- for_each (current_level st) expand_node
           {| next_level := [];
              best_snake := best_so_far st;
              max_length := best_length st;
              total_nodes_explored := nodes_explored st |} ;;
  pruned <-
    (if float_gt (estimate_memory_usage (next_level acc)) memory_limit_gb
     then prune_by_fitness (next_level acc) memory_limit_gb
     else Ok (next_level acc)) ;;
  Ok {| current_level := pruned;
        best_so_far := best_snake acc;
        best_length := max_length acc;
        level_count := level_count st + 1;
        nodes_explored := total_nodes_explored acc |}.

(** The loop of [pruned_bfs_search]; one unit of fuel per level, [None]
    when the fuel runs out.  Timing and the [_search_metadata] attribute
    attached to the result do not influence the search and are left out. *)
Fixpoint pruned_bfs_search_loop (fuel : nat) (memory_limit_gb : float)
  (st : search_state) : option (result (option SnakeNode.t)) :=
  match fuel with
  | O => None
  | S fuel =>
      match current_level st with
      | [] => Some (Ok (best_so_far st))
      | _ :: _ =>
          match bfs_level memory_limit_gb st with
          | Err e => Some (Err e)
          | Ok st' =>
              match current_level st' with
              | [] => Some (Ok (best_so_far st'))
              | _ :: _ => pruned_bfs_search_loop fuel memory_limit_gb st'
              end
          end
      end
  end.

Definition initial_state (root : SnakeNode.t) : search_state :=
  {| current_level := [root];
     best_so_far := None;
     best_length := 0;
     level_count := 0;
     nodes_explored := 0 |}.

Definition pruned_bfs_search (fuel : nat) (dimension : Z) (memory_limit_gb : float)
  : option (result (option SnakeNode.t)) :=
  match SnakeNode.new [] dimension with
  | Err e => Some (Err e)
  | Ok root => pruned_bfs_search_loop fuel memory_limit_gb (initial_state root)
  end.

End Search.

(** ** search/priming.py *)

Definition detect_dimension (transition_sequence : list Z) : Z :=
  match transition_sequence with
  | [] => 1
  | first :: others => py_max first others + 1
  end.

(** [any(f(x) for x in l)]: stops at the first [True]; an exception raised
    by an evaluated element propagates. *)
Fixpoint py_any {A : Type} (l : list A) (f : A -> result bool) : result bool :=
  match l with
  | [] => Ok false
  | x :: rest => b <- f x ;; if b then Ok true else py_any rest f
  end.

(** [try: r  except ValueError: handler] *)
Definition except_value_error {A : Type} (r : result A) (handler : A) : result A :=
  match r with
  | Err (ValueError _) => Ok handler
  | _ => r
  end.

(** [try: r  except (ValueError, Exception): handler] *)
Definition except_exception {A : Type} (r : result A) (handler : A) : A :=
  match r with
  | Ok a => a
  | Err _ => handler
  end.

Section Priming.
Context `{Platform}.

(** [if new_dim not in legal_dims and new_dim < dimension:
       legal_dims = list(legal_dims) + [new_dim]] *)
Definition with_new_dimension (dimension : Z) (legal_dims : list Z) : list Z :=
  let new_dim := dimension - 1 in
  if negb (existsb (Z.eqb new_dim) legal_dims) && (new_dim <? dimension)
  then legal_dims ++ [new_dim]
  else legal_dims.

(** [d for d in legal_dims if d < dimension] *)
Definition below (dimension : Z) (legal_dims : list Z) : list Z :=
  List.filter (fun d => d <? dimension) legal_dims.

(** The [try] body of the two prefix loops that build [initial_nodes]:
    the prefix node, when it can extend in the new or in a legal dimension. *)
Definition candidate_prefix (seed_node : SnakeNode.t) (dimension prefix_len : Z)
  : result (option SnakeNode.t) :=
  let prefix_seq :=
    py_slice_to (SnakeNode.transition_sequence seed_node) prefix_len in
  prefix_node <- SnakeNode.new prefix_seq dimension ;;
  let legal_dims := get_legal_next_dimensions prefix_seq in
  let new_dim := dimension - 1 in
  can_extend_new_dim <- SnakeNode.can_extend prefix_node new_dim ;;
  can_extend_any <-
    py_any (below dimension legal_dims) (SnakeNode.can_extend prefix_node) ;;
  Ok (if can_extend_new_dim || can_extend_any then Some prefix_node else None).

Definition add_prefix (seed_node : SnakeNode.t) (dimension prefix_len : Z)
  (initial_nodes : list SnakeNode.t) : result (list SnakeNode.t) :=
  found <- except_value_error (candidate_prefix seed_node dimension prefix_len) None ;;
  Ok (match found with
      | Some prefix_node => initial_nodes ++ [prefix_node]
      | None => initial_nodes
      end).

(** The ratio literals, in thousandths. *)
Definition high_prefix_ratios : list Z :=
  [999; 990; 980; 970; 950; 930; 900; 870; 850; 800; 750; 700; 650; 600;
   500; 400; 300; 200; 100].

Definition low_prefix_ratios : list Z := [980; 950; 900; 850; 800; 750; 700].

Definition initial_nodes (seed_node : SnakeNode.t) (dimension : Z)
  : result (list SnakeNode.t) :=
  let seed_length := SnakeNode.get_length seed_node in
  if seed_length >? 100 then
    let prefix_ratios :=
      if dimension >=? 14 then high_prefix_ratios else low_prefix_ratios in
    let fixed_lengths :=
      if dimension >=? 14
      then [seed_length - 1; seed_length - 10; seed_length - 50;
            seed_length - 100; seed_length - 500; seed_length - 1000;
            seed_length / 2; seed_length / 4]
      else [] in
    nodes <- for_each prefix_ratios
               (fun prefix_ratio nodes =>
                  let prefix_len := scale_length seed_length prefix_ratio in
                  if (prefix_len >? 0) && (prefix_len <? seed_length)
                  then add_prefix seed_node dimension prefix_len nodes
                  else Ok nodes)
               [seed_node] ;;
    for_each fixed_lengths
      (fun prefix_len nodes =>
         if (prefix_len >? 0) && (prefix_len <? seed_length)
            && negb (existsb (Z.eqb prefix_len)
                       (map (scale_length seed_length) prefix_ratios))
         then add_prefix seed_node dimension prefix_len nodes
         else Ok nodes)
      nodes
  else Ok [seed_node].

(** [any(is_valid_extension(node, d) for d in legal_dims if d < dimension)]
    with the new dimension added to the legal ones. *)
Definition can_extend_somewhere (node : SnakeNode.t) (dimension : Z) : result bool :=
  let legal_dims :=
    with_new_dimension dimension
      (get_legal_next_dimensions (SnakeNode.transition_sequence node)) in
  py_any (below dimension legal_dims) (is_valid_extension node).

(** The body of the loop that filters [initial_nodes]. *)
Definition keep_viable (dimension : Z) (node : SnakeNode.t)
  (viable_nodes : list SnakeNode.t) : result (list SnakeNode.t) :=
  can_extend <- can_extend_somewhere node dimension ;;
  if can_extend then Ok (viable_nodes ++ [node])
  else if dimension >=? 14 then
    if SnakeNode.fitness node >? 100 then Ok (viable_nodes ++ [node])
    else Ok viable_nodes
  else Ok viable_nodes.

(** The [try] body shared by the last-resort loop and by the two
    backtracking loops: the prefix of [source] of length [prefix_len], when
    it can extend somewhere. *)
Definition viable_prefix (source : SnakeNode.t) (dimension prefix_len : Z)
  : result (option SnakeNode.t) :=
  let prefix_seq := py_slice_to (SnakeNode.transition_sequence source) prefix_len in
  prefix_node <- SnakeNode.new prefix_seq dimension ;;
  can_extend <- can_extend_somewhere prefix_node dimension ;;
  Ok (if can_extend then Some prefix_node else None).

(** [for short_len in [...]: ... break], every exception being skipped. *)
Fixpoint first_viable_prefix (source : SnakeNode.t) (dimension bound : Z)
  (excluded : list Z) (lengths : list Z) : list SnakeNode.t :=
  match lengths with
  | [] => []
  | short_len :: rest =>
      if (short_len <? bound) && negb (existsb (Z.eqb short_len) excluded) then
        match except_exception (viable_prefix source dimension short_len) None with
        | Some short_node => [short_node]
        | None => first_viable_prefix source dimension bound excluded rest
        end
      else first_viable_prefix source dimension bound excluded rest
  end.

Definition starting_nodes (seed_node : SnakeNode.t) (dimension : Z)
  : result (list SnakeNode.t) :=
  let seed_length := SnakeNode.get_length seed_node in
  nodes <- initial_nodes seed_node dimension ;;
  viable_nodes <- for_each nodes (keep_viable dimension) [] ;;
  match viable_nodes with
  | _ :: _ => Ok viable_nodes
  | [] =>
      match first_viable_prefix seed_node dimension seed_length []
              [100; 50; 20; 10; 5] with
      | (_ :: _) as found => Ok found
      | [] => Ok [seed_node]
      end
  end.

(** The variables of the main loop of [pruned_bfs_search_from_seed]. *)
Record seed_state : Type := {
  seed_current_level : list SnakeNode.t;
  seed_best_snake : option SnakeNode.t;
  seed_max_length : Z;
  seed_level_count : Z;
  seed_nodes_explored : Z;
  no_improvement_count : Z
}.

Record seed_expansion : Type := {
  seed_next_level : list SnakeNode.t;
  exp_best_snake : option SnakeNode.t;
  exp_max_length : Z;
  exp_nodes_explored : Z;
  exp_no_improvement : Z
}.

(** The body of [for dim_val in legal_dims]. *)
Definition seed_expand_dimension (dimension : Z) (node : SnakeNode.t) (dim_val : Z)
  (acc : seed_expansion) : result seed_expansion :=
  if dim_val >=? dimension then Ok acc
  else
    valid <- is_valid_extension node dim_val ;;
    if valid then
      match SnakeNode.create_child node dim_val with
      | Ok child =>
          let child_length := SnakeNode.get_length child in
          if child_length >? exp_max_length acc then
            Ok {| seed_next_level := seed_next_level acc ++ [child];
                  exp_best_snake := Some child;
                  exp_max_length := child_length;
                  exp_nodes_explored := exp_nodes_explored acc + 1;
                  exp_no_improvement := 0 |}
          else
            Ok {| seed_next_level := seed_next_level acc ++ [child];
                  exp_best_snake := exp_best_snake acc;
                  exp_max_length := exp_max_length acc;
                  exp_nodes_explored := exp_nodes_explored acc + 1;
                  exp_no_improvement := exp_no_improvement acc + 1 |}
      | Err (ValueError _) => Ok acc
      | Err e => Err e
      end
    else Ok acc.

(** The body of [for node in current_level]. *)
Definition seed_expand_node (dimension : Z) (node : SnakeNode.t)
  (acc : seed_expansion) : result seed_expansion :=
  let legal_dims :=
    with_new_dimension dimension
      (get_legal_next_dimensions (SnakeNode.transition_sequence node)) in
  for_each legal_dims (seed_expand_dimension dimension node) acc.

(** The ratio loop of the aggressive backtracking: the lengths tried so
    far and the prefix node found, if any. *)
Fixpoint backtrack_ratios (best : SnakeNode.t) (dimension : Z)
  (tried_lengths : list Z) (ratios : list Z) : list Z * list SnakeNode.t :=
  match ratios with
  | [] => (tried_lengths, [])
  | ratio :: rest =>
      let prefix_len := Z.max 1 (scale_length (SnakeNode.get_length best) ratio) in
      if (prefix_len <? SnakeNode.get_length best)
         && negb (existsb (Z.eqb prefix_len) tried_lengths)
      then
        let tried_lengths := tried_lengths ++ [prefix_len] in
        match except_exception (viable_prefix best dimension prefix_len) None with
        | Some prefix_node => (tried_lengths, [prefix_node])
        | None => backtrack_ratios best dimension tried_lengths rest
        end
      else backtrack_ratios best dimension tried_lengths rest
  end.

(** The backtracking of the high-dimension branch, entered with an empty
    [next_level]. *)
Definition aggressive_backtracking (best_snake : option SnakeNode.t)
  (dimension : Z) : list SnakeNode.t :=
  match best_snake with
  | Some best =>
      if SnakeNode.get_length best >? 10 then
        let (tried_lengths, found) :=
          backtrack_ratios best dimension []
            [900; 800; 700; 600; 500; 400; 300; 200; 100; 50] in
        match found with
        | _ :: _ => found
        | [] =>
            first_viable_prefix best dimension (SnakeNode.get_length best)
              tried_lengths [1000; 500; 200; 100; 50; 20; 10]
        end
      else []
  | None => []
  end.

(** How an iteration of the [while] loop ends: [break], or the next
    evaluation of the loop condition (end of the body, or [continue]). *)
Inductive loop_step : Type :=
| Break (st : seed_state)
| Next (st : seed_state).

(** One iteration of the main loop of [pruned_bfs_search_from_seed]. *)
Definition seed_level (dimension : Z) (memory_limit_gb : float)
  (seed_length : Z) (st : seed_state) : result loop_step :=
  let max_no_improvement := if dimension >=? 14 then 5000 else 2000 in
  acc <- for_each (seed_current_level st) (seed_expand_node dimension)
           {| seed_next_level := [];
              exp_best_snake := seed_best_snake st;
              exp_max_length := seed_max_length st;
              exp_nodes_explored := seed_nodes_explored st;
              exp_no_improvement := no_improvement_count st |} ;;
  let updated (level : list SnakeNode.t) (count : Z) (stalled : Z) :=
    {| seed_current_level := level;
       seed_best_snake := exp_best_snake acc;
       seed_max_length := exp_max_length acc;
       seed_level_count := count;
       seed_nodes_explored := exp_nodes_explored acc;
       no_improvement_count := stalled |} in
  let unchanged :=
    updated (seed_current_level st) (seed_level_count st) (exp_no_improvement acc) in
  let advance (next_level : list SnakeNode.t) : result loop_step :=
    pruned <-
      (if float_gt (estimate_memory_usage next_level) memory_limit_gb
       then prune_by_fitness next_level memory_limit_gb
       else Ok next_level) ;;
    let level_count := seed_level_count st + 1 in
    let moved := updated pruned level_count (exp_no_improvement acc) in
    if exp_no_improvement acc >? max_no_improvement then
      if exp_max_length acc >? seed_length then Ok (Break moved)
      else if level_count >? 1000 then
        if (dimension >=? 14) && (level_count <? 5000) then
          match pruned with
          | [] => Ok (Break (updated pruned level_count 0))
          | _ :: _ => Ok (Next (updated pruned level_count 0))
          end
        else Ok (Break moved)
      else
        match pruned with
        | [] => Ok (Break moved)
        | _ :: _ => Ok (Next moved)
        end
    else
      match pruned with
      | [] => Ok (Break moved)
      | _ :: _ => Ok (Next moved)
      end in
  match seed_next_level acc with
  | _ :: _ => advance (seed_next_level acc)
  | [] =>
      if dimension >=? 14 then
        match aggressive_backtracking (exp_best_snake acc) dimension with
        | (_ :: _) as found => advance found
        | [] =>
            if seed_level_count st >? 100 then Ok (Break unchanged)
            else Ok (Next unchanged)
        end
      else Ok (Break unchanged)
  end.

(** The [while current_level and level_count < max_levels:] loop. *)
Fixpoint seed_loop (fuel : nat) (dimension : Z) (memory_limit_gb : float)
  (max_levels seed_length : Z) (st : seed_state) : option (result seed_state) :=
  match fuel with
  | O => None
  | S fuel =>
      match seed_current_level st with
      | [] => Some (Ok st)
      | _ :: _ =>
          if seed_level_count st <? max_levels then
            match seed_level dimension memory_limit_gb seed_length st with
            | Err e => Some (Err e)
            | Ok (Break st') => Some (Ok st')
            | Ok (Next st') =>
                seed_loop fuel dimension memory_limit_gb max_levels seed_length st'
            end
          else Some (Ok st)
      end
  end.

Definition pruned_bfs_search_from_seed (fuel : nat) (seed_node : SnakeNode.t)
  (dimension : Z) (memory_limit_gb : float) (max_levels min_extension : Z)
  : option (result (option SnakeNode.t)) :=
  if negb (SnakeNode.dimension seed_node =? dimension)
  then Some (Err (ValueError
                    (SeedDimensionMismatch (SnakeNode.dimension seed_node) dimension)))
  else
    let seed_length := SnakeNode.get_length seed_node in
    match starting_nodes seed_node dimension with
    | Err e => Some (Err e)
    | Ok viable_nodes =>
        match seed_loop fuel dimension memory_limit_gb max_levels seed_length
                {| seed_current_level := viable_nodes;
                   seed_best_snake := Some seed_node;
                   seed_max_length := seed_length;
                   seed_level_count := 0;
                   seed_nodes_explored := 0;
                   no_improvement_count := 0 |} with
        | None => None
        | Some (Err e) => Some (Err e)
        | Some (Ok st) =>
            match seed_best_snake st with
            | Some best_snake =>
                if seed_max_length st >? seed_length
                then Some (Ok (Some best_snake))
                else Some (Ok None)
            | None => Some (Ok None)
            end
        end
    end.

(** The [while current_dim < target_dimension:] loop of [prime_search]. *)
Fixpoint prime_search_loop (fuel : nat) (current_snake : list Z)
  (current_dim target_dimension : Z) (memory_limit_gb : float)
  : option (result (list Z)) :=
  match fuel with
  | O => None
  | S fuel =>
      if current_dim <? target_dimension then
        match SnakeNode.new current_snake (current_dim + 1) with
        | Err (ValueError _) => Some (Ok current_snake)
        | Err e => Some (Err e)
        | Ok initial_node =>
            let high := current_dim + 1 >=? 14 in
            let max_levels := if high then 200000 else 50000 in
            let min_extension := 1 in
            let search_memory :=
              if high then high_dimension_memory memory_limit_gb
              else memory_limit_gb in
            match pruned_bfs_search_from_seed fuel initial_node (current_dim + 1)
                    (if high then search_memory else memory_limit_gb)
                    max_levels min_extension with
            | None => None
            | Some (Err e) => Some (Err e)
            | Some (Ok None) => Some (Ok current_snake)
            | Some (Ok (Some extended_snake_node)) =>
                if SnakeNode.get_length extended_snake_node
                   >? Z.of_nat (length current_snake)
                then
                  prime_search_loop fuel
                    (SnakeNode.transition_sequence extended_snake_node)
                    (current_dim + 1) target_dimension memory_limit_gb
                else Some (Ok current_snake)
            end
        end
      else Some (Ok current_snake)
  end.

Definition prime_search (fuel : nat) (lower_dimension_snake : list Z)
  (target_dimension : Z) (memory_limit_gb : float) : option (result (list Z)) :=
  let current_snake := lower_dimension_snake in
  let current_dim := detect_dimension current_snake in
  if current_dim >=? target_dimension then Some (Ok current_snake)
  else prime_search_loop fuel current_snake current_dim target_dimension
         memory_limit_gb.

End Priming.

(** ** core/transitions.py: the hexadecimal text format

    A Python [str] is a [string] here: a sequence of characters with code
    points below 256. *)

(** [c.lower()] of a one-character string: the capitals of ASCII and of
    Latin-1 have their lower-case letter 32 code points further; every
    other character below 256 is unchanged. *)
Definition char_lower (c : ascii) : ascii :=
  let n := nat_of_ascii c in
  if ((65 <=? n) && (n <=? 90))%nat
     || ((192 <=? n) && (n <=? 222) && negb (n =? 215))%nat
  then ascii_of_nat (n + 32)
  else c.

(** [s.lower()] *)
Fixpoint str_lower (s : string) : string :=
  match s with
  | EmptyString => EmptyString
  | String c rest => String (char_lower c) (str_lower rest)
  end.

(** [s.index(c)] for a one-character [c]; [None] when [c not in s]. *)
Fixpoint str_index (s : string) (c : ascii) : option nat :=
  match s with
  | EmptyString => None
  | String a rest =>
      if Ascii.eqb a c then Some O else option_map S (str_index rest c)
  end.

Definition hex_digits : string := "0123456789abcdef".

Fixpoint parse_hex_transition_string (hex_string : string) : list Z :=
  match hex_string with
  | EmptyString => []
  | String char rest =>
      let char_lower := char_lower char in
      match str_index hex_digits char_lower with
      | Some digit_value =>
          Z.of_nat digit_value :: parse_hex_transition_string rest
      | None => parse_hex_transition_string rest
      end
  end.

Definition transition_string_to_vertex_sequence (hex_string : string)
  (dimension : Z) (start_vertex : Z) : result (list Z) :=
  let transitions := parse_hex_transition_string hex_string in
  transition_to_vertex transitions dimension start_vertex.

(** ** core/validation.py: validation of a transition sequence *)

(** The second component of the pair [validate_transition_sequence]
    returns. *)
Inductive sequence_reason : Type :=
| ValidEmptySequence
    (* "Valid snake (empty sequence)" *)
| TransitionValue (i : nat) (trans dimension : Z)
    (* "Transition {i} has value {trans}, must be in range [0, {dimension})" *)
| InvalidTransitionSequence (e : message)
    (* "Invalid transition sequence: {e}" *)
| SnakeVerdict (r : reason)
    (* the message of [validate_snake] *).

(** [enumerate(l)] *)
Definition enumerate {A : Type} (l : list A) : list (nat * A) :=
  combine (seq 0 (length l)) l.

(** The body of the range check of [validate_transition_sequence]. *)
Definition check_transition_value (dimension : Z) (entry : nat * Z)
  : option sequence_reason :=
  let (i, trans) := entry in
  if (trans <? 0) || (trans >=? dimension)
  then Some (TransitionValue i trans dimension)
  else None.

Definition validate_transition_sequence (transition_sequence : list Z)
  (dimension : Z) : result (bool * sequence_reason) :=
  match transition_sequence with
  | [] => Ok (true, ValidEmptySequence)
  | _ :: _ =>
      match for_first (enumerate transition_sequence)
              (check_transition_value dimension) with
      | Some r => Ok (false, r)
      | None =>
          match transition_to_vertex transition_sequence dimension 0 with
          | Err (ValueError e) => Ok (false, InvalidTransitionSequence e)
          | Err e => Err e
          | Ok vertices =>
              let (is_valid, r) := validate_snake vertices in
              Ok (is_valid, SnakeVerdict r)
          end
      end
  end.

(** The parser raises nothing, so the [except Exception] clause around it
    is never entered. *)
Definition validate_snake_from_hex_string (hex_string : string) (dimension : Z)
  : result (bool * sequence_reason) :=
  let transitions := parse_hex_transition_string hex_string in
  validate_transition_sequence transitions dimension.

(* ===================================================================== *)
(** * Part II: verification                                               *)
(* ===================================================================== *)

Example is_canonical_ex1 : is_canonical [0; 1; 2; 0; 1] = true.
Proof. reflexivity. Qed.

Example is_canonical_ex2 : is_canonical [1; 0; 2] = false.
Proof. reflexivity. Qed.

Example is_canonical_ex3 : is_canonical [0; 1; 3] = false.
Proof. reflexivity. Qed.

Example legal_next_ex : get_legal_next_dimensions [0; 1; 0; 2] = [0; 1; 2; 3].
Proof. reflexivity. Qed.

Example vertex_to_transition_ex :
  vertex_to_transition [0; 1; 3; 7; 6] = Ok [0; 1; 2; 0].
Proof. reflexivity. Qed.

Example transition_to_vertex_ex :
  transition_to_vertex [0; 1; 2; 0] 3 0 = Ok [0; 1; 3; 7; 6].
Proof. reflexivity. Qed.

Example validate_snake_ex1 : validate_snake [0; 1; 3; 7; 6] = (true, ValidSnake).
Proof. reflexivity. Qed.

Example validate_snake_ex2 :
  validate_snake [0; 1; 0] = (false, NonConsecutiveViolation 0 2 0).
Proof. reflexivity. Qed.

Example hamming_ex : hamming_distance 0 7 = 3.
Proof. reflexivity. Qed.

(** ** Generic facts on the loop combinators *)

Lemma for_first_None {A R : Type} (l : list A) (body : A -> option R) :
  for_first l body = None <-> (forall x, In x l -> body x = None).
Proof.
  induction l as [|a l IH]; simpl.
  - split; [intros _ x []|reflexivity].
  - destruct (body a) eqn:Ha.
    + split; [discriminate|]. intros H. rewrite (H a) in Ha by auto. discriminate.
    + rewrite IH. split.
      * intros H x [<-|Hx]; auto.
      * intros H x Hx. apply H. auto.
Qed.

Lemma for_first_Some {A R : Type} (l : list A) (body : A -> option R) (r : R) :
  for_first l body = Some r ->
  exists l1 x l2, l = l1 ++ x :: l2 /\ body x = Some r /\
                  (forall y, In y l1 -> body y = None).
Proof.
  induction l as [|a l IH]; simpl; [discriminate|].
  destruct (body a) eqn:Ha.
  - intros [= ->]. exists [], a, l. repeat split; auto. intros y [].
  - intros H. destruct (IH H) as (l1 & x & l2 & -> & Hx & Hl1).
    exists (a :: l1), x, l2. repeat split; auto.
    intros y [<-|Hy]; auto.
Qed.

Lemma seq_split_index (a n : nat) (l1 l2 : list nat) (x : nat) :
  seq a n = l1 ++ x :: l2 ->
  (a <= x < a + n)%nat /\ (forall y, (a <= y < x)%nat -> In y l1).
Proof.
  revert a n. induction l1 as [|b l1 IH]; intros a n H.
  - destruct n; simpl in H; [discriminate|]. injection H as -> _.
    split; [lia|]. intros y Hy. lia.
  - destruct n; simpl in H; [discriminate|]. injection H as <- H.
    destruct (IH _ _ H) as [Hx Hy]. split; [lia|].
    intros y Hyr. destruct (Nat.eq_dec y a) as [->|Hne]; [left; reflexivity|].
    right. apply Hy. lia.
Qed.

(** ** The transition/vertex codec *)

(** The vertices visited after [current] when replaying [ts]. *)
Fixpoint path_from (current : Z) (ts : list Z) : list Z :=
  match ts with
  | [] => []
  | t :: rest =>
      let next := Z.lxor current (Z.shiftl 1 t) in
      next :: path_from next rest
  end.

Definition in_range (dimension : Z) (t : Z) : Prop := 0 <= t < dimension.

Lemma transition_to_vertex_loop_ok dimension ts :
  Forall (in_range dimension) ts ->
  forall current vertices,
    transition_to_vertex_loop dimension ts current vertices
    = Ok (vertices ++ path_from current ts).
Proof.
  induction 1 as [|t ts [Ht0 Ht1] _ IH]; intros current vertices; simpl.
  - now rewrite app_nil_r.
  - destruct (Z.ltb_spec t 0); [lia|]. destruct (Z.geb_spec t dimension); [lia|].
    simpl. rewrite IH, <- app_assoc. reflexivity.
Qed.

Lemma lxor_flip_back (a b : Z) : Z.lxor a (Z.lxor a b) = b.
Proof. now rewrite <- Z.lxor_assoc, Z.lxor_nilpotent, Z.lxor_0_l. Qed.

Lemma pow2_single_bit (t : Z) :
  0 <= t ->
  Z.shiftl 1 t <> 0 /\
  Z.land (Z.shiftl 1 t) (Z.shiftl 1 t - 1) = 0 /\
  bit_length (Z.shiftl 1 t) - 1 = t.
Proof.
  intros Ht. rewrite Z.shiftl_1_l.
  assert (Hpos : 0 < 2 ^ t) by (apply Z.pow_pos_nonneg; lia).
  split; [lia|]. split.
  - replace (2 ^ t - 1) with (Z.ones t) by (rewrite Z.ones_equiv; lia).
    rewrite Z.land_ones by assumption. apply Z_mod_same_full.
  - unfold bit_length. destruct (Z.eqb_spec (2 ^ t) 0); [lia|].
    rewrite Z.abs_eq by lia. rewrite Z.log2_pow2 by assumption. lia.
Qed.

Lemma vertex_to_transition_from_path ts :
  Forall (fun t => 0 <= t) ts ->
  forall i current,
    vertex_to_transition_from i (current :: path_from current ts) = Ok ts.
Proof.
  induction 1 as [|t ts Ht _ IH]; intros i current; [reflexivity|].
  cbn [path_from]. cbv zeta.
  change (vertex_to_transition_from i
            (current :: Z.lxor current (Z.shiftl 1 t)
                     :: path_from (Z.lxor current (Z.shiftl 1 t)) ts))
    with (let xor_result := Z.lxor current (Z.lxor current (Z.shiftl 1 t)) in
          if xor_result =? 0 then Err (ValueError (IdenticalVertices i current))
          else if negb (Z.land xor_result (xor_result - 1) =? 0)
          then Err (ValueError
                      (MultipleBits i current (Z.lxor current (Z.shiftl 1 t))))
          else
            transitions <- vertex_to_transition_from (S i)
              (Z.lxor current (Z.shiftl 1 t)
                 :: path_from (Z.lxor current (Z.shiftl 1 t)) ts) ;;
            Ok (bit_length xor_result - 1 :: transitions)).
  cbv zeta. rewrite lxor_flip_back.
  destruct (pow2_single_bit t Ht) as (Hne & Hland & Hlen).
  destruct (Z.eqb_spec (Z.shiftl 1 t) 0); [contradiction|].
  rewrite Hland, Hlen, IH. reflexivity.
Qed.

Lemma transition_vertex_roundtrip_from (dimension start_vertex : Z) (seq : list Z) :
  Forall (in_range dimension) seq ->
  exists vs, transition_to_vertex seq dimension start_vertex = Ok vs /\
             vertex_to_transition vs = Ok seq.
Proof.
  intros Hseq. exists ([start_vertex] ++ path_from start_vertex seq). split.
  - apply transition_to_vertex_loop_ok, Hseq.
  - destruct seq as [|t seq]; [reflexivity|].
    unfold vertex_to_transition.
    change (length ([start_vertex] ++ path_from start_vertex (t :: seq)) <? 2)%nat
      with false.
    apply vertex_to_transition_from_path.
    eapply List.Forall_impl; [|exact Hseq]. intros a [Ha _]. exact Ha.
Qed.

(** C2: for every dimension [d >= 1] and every transition sequence whose
    elements all lie in [[0, d)], converting to vertices (from the default
    start vertex 0) succeeds, and converting the vertices back gives the
    sequence again. *)
Theorem transition_vertex_roundtrip (d : Z) (seq : list Z) :
  1 <= d ->
  Forall (in_range d) seq ->
  exists vs, transition_to_vertex seq d 0 = Ok vs /\
             vertex_to_transition vs = Ok seq.
Proof. intros _. apply transition_vertex_roundtrip_from. Qed.

Lemma transition_vertex_roundtrip_witness :
  exists vs, transition_to_vertex [0; 1; 2; 0] 3 0 = Ok vs /\
             vertex_to_transition vs = Ok [0; 1; 2; 0].
Proof.
  apply (transition_vertex_roundtrip 3 [0; 1; 2; 0]); [lia|].
  repeat constructor; unfold in_range; lia.
Defined.

(** ** The snake validator *)

(** Rule 2: every consecutive pair is at Hamming distance exactly 1. *)
Definition consecutive_ok (vs : list Z) : Prop :=
  forall i, (i + 1 < length vs)%nat ->
    hamming_distance (nth i vs 0) (nth (i + 1) vs 0) = 1.

(** Rule 3: every pair at index distance at least 2 is at Hamming distance
    greater than 1. *)
Definition non_consecutive_ok (vs : list Z) : Prop :=
  forall i j, (j + 2 <= i)%nat -> (i < length vs)%nat ->
    hamming_distance (nth i vs 0) (nth j vs 0) > 1.

Lemma check_consecutive_None vs i :
  check_consecutive vs i = None <->
  hamming_distance (nth i vs 0) (nth (i + 1) vs 0) = 1.
Proof.
  unfold check_consecutive.
  destruct (Z.eqb_spec (hamming_distance (nth i vs 0) (nth (i + 1) vs 0)) 1);
    simpl; split; intros; congruence.
Qed.

Lemma check_non_consecutive_None vs i j :
  check_non_consecutive vs i j = None <->
  hamming_distance (nth i vs 0) (nth j vs 0) > 1.
Proof.
  unfold check_non_consecutive.
  destruct (Z.leb_spec (hamming_distance (nth i vs 0) (nth j vs 0)) 1);
    split; intros; try congruence; lia.
Qed.

Lemma consecutive_loop_None vs :
  for_first (range (length vs - 1)) (check_consecutive vs) = None <->
  consecutive_ok vs.
Proof.
  rewrite for_first_None. unfold consecutive_ok, range. split.
  - intros H i Hi. apply check_consecutive_None, H, in_seq. lia.
  - intros H i Hi. apply in_seq in Hi. apply check_consecutive_None, H. lia.
Qed.

Lemma non_consecutive_loop_None vs :
  for_first (range_from 2 (length vs))
    (fun i => for_first (range (i - 1)) (check_non_consecutive vs i)) = None <->
  non_consecutive_ok vs.
Proof.
  rewrite for_first_None. unfold non_consecutive_ok, range_from, range. split.
  - intros H i j Hj Hi.
    assert (Hin : In i (seq 2 (length vs - 2))) by (apply in_seq; lia).
    specialize (H i Hin). rewrite for_first_None in H.
    apply check_non_consecutive_None, H, in_seq. lia.
  - intros H i Hi. apply in_seq in Hi. apply for_first_None.
    intros j Hj. apply in_seq in Hj. apply check_non_consecutive_None, H; lia.
Qed.

Lemma consecutive_loop_Some vs r :
  for_first (range (length vs - 1)) (check_consecutive vs) = Some r ->
  exists i, (i + 1 < length vs)%nat /\
    hamming_distance (nth i vs 0) (nth (i + 1) vs 0) <> 1 /\
    (forall i', (i' < i)%nat ->
       hamming_distance (nth i' vs 0) (nth (i' + 1) vs 0) = 1) /\
    r = ConsecutiveViolation i (i + 1)
          (hamming_distance (nth i vs 0) (nth (i + 1) vs 0)).
Proof.
  intros H. apply for_first_Some in H as (l1 & i & l2 & Hsplit & Hi & Hbefore).
  apply seq_split_index in Hsplit as [Hrange Hl1].
  exists i. unfold check_consecutive in Hi.
  destruct (Z.eqb_spec (hamming_distance (nth i vs 0) (nth (i + 1) vs 0)) 1);
    simpl in Hi; [discriminate|]. injection Hi as <-.
  split; [lia|]. split; [assumption|]. split; [|reflexivity].
  intros i' Hi'. apply check_consecutive_None, Hbefore, Hl1. lia.
Qed.

Lemma non_consecutive_loop_Some vs r :
  for_first (range_from 2 (length vs))
    (fun i => for_first (range (i - 1)) (check_non_consecutive vs i)) = Some r ->
  exists j i, (j + 2 <= i)%nat /\ (i < length vs)%nat /\
    hamming_distance (nth i vs 0) (nth j vs 0) <= 1 /\
    r = NonConsecutiveViolation j i (hamming_distance (nth i vs 0) (nth j vs 0)).
Proof.
  intros H. apply for_first_Some in H as (l1 & i & l2 & Hsplit & Hi & _).
  apply seq_split_index in Hsplit as [Hrange _].
  apply for_first_Some in Hi as (k1 & j & k2 & Hsplit & Hj & _).
  apply seq_split_index in Hsplit as [Hjrange _].
  exists j, i. unfold check_non_consecutive in Hj.
  destruct (Z.leb_spec (hamming_distance (nth i vs 0) (nth j vs 0)) 1);
    [|discriminate]. injection Hj as <-.
  unfold range_from in Hrange.
  split; [lia|]. split; [lia|]. split; [lia|reflexivity].
Qed.


(** ** Canonical form *)

(** The value of [max_dimension] when the loop of [is_canonical] ends. *)
Definition loop_max (max_dimension : Z) (ts : list Z) : Z :=
  fold_left (fun m dim => if dim =? m + 1 then dim else m) ts max_dimension.

Lemma is_canonical_loop_app m ts d :
  is_canonical_loop m (ts ++ [d]) =
  is_canonical_loop m ts && negb (d >? loop_max m ts + 1).
Proof.
  revert m. induction ts as [|t ts IH]; intros m; simpl.
  - unfold loop_max. simpl. destruct (d >? m + 1); reflexivity.
  - destruct (t >? m + 1); [reflexivity|]. apply IH.
Qed.

Lemma is_canonical_loop_bound ts :
  forall m, is_canonical_loop m ts = true ->
    m <= loop_max m ts /\ (forall x, In x ts -> x <= loop_max m ts).
Proof.
  induction ts as [|t ts IH]; intros m H; simpl in *.
  - unfold loop_max; simpl. split; [lia|]. intros x [].
  - destruct (Z.gtb_spec t (m + 1)); [discriminate|].
    destruct (IH _ H) as [Hm Hx]. change (loop_max m (t :: ts)) with
      (loop_max (if t =? m + 1 then t else m) ts).
    destruct (Z.eqb_spec t (m + 1)); (split; [lia|]);
      intros x [<-|Hin]; auto; lia.
Qed.

Lemma py_max_le (M x : Z) (l : list Z) :
  x <= M -> (forall y, In y l -> y <= M) -> py_max x l <= M.
Proof.
  unfold py_max. revert x. induction l as [|a l IH]; intros x Hx Hl; simpl; [lia|].
  apply IH; [|intros y Hy; apply Hl; right; exact Hy].
  specialize (Hl a (or_introl eq_refl)). lia.
Qed.

Lemma insert_sorted_In x y l : In y (insert_sorted x l) <-> y = x \/ In y l.
Proof.
  induction l as [|a l IH]; simpl; [intuition|].
  destruct (x <=? a); simpl; rewrite ?IH; intuition.
Qed.

Lemma py_sorted_In y l : In y (py_sorted l) <-> In y l.
Proof.
  induction l as [|a l IH]; simpl; [tauto|].
  rewrite insert_sorted_In, IH. intuition.
Qed.

Lemma legal_next_dimensions_In d first others :
  In d (get_legal_next_dimensions (first :: others)) <->
  In d (first :: others) \/ d = py_max first others + 1.
Proof.
  unfold get_legal_next_dimensions. rewrite py_sorted_In, in_app_iff.
  unfold py_set. rewrite nodup_In. simpl. intuition.
Qed.

Lemma canonical_extension (s : list Z) (d : Z) :
  is_canonical s = true ->
  In d (get_legal_next_dimensions s) ->
  is_canonical (s ++ [d]) = true.
Proof.
  destruct s as [|first others].
  - intros _ [<-|[]]. reflexivity.
  - intros Hcan Hd. apply legal_next_dimensions_In in Hd.
    unfold is_canonical in *. cbn [app].
    destruct (Z.eqb_spec first 0) as [->|]; [|discriminate]. simpl negb in *.
    cbv iota in *. change (0 :: others ++ [d]) with ((0 :: others) ++ [d]).
    rewrite is_canonical_loop_app, Hcan, andb_true_l.
    destruct (is_canonical_loop_bound _ _ Hcan) as [_ Hbound].
    destruct (Z.gtb_spec d (loop_max 0 (0 :: others) + 1)); [|reflexivity].
    exfalso. destruct Hd as [Hin| ->].
    + specialize (Hbound d Hin). lia.
    + assert (py_max 0 others <= loop_max 0 (0 :: others)); [|lia].
      apply py_max_le; [apply Hbound; left; reflexivity|].
      intros y Hy. apply Hbound. right. exact Hy.
Qed.

(** ** The vertex bitmap *)

Lemma bind_Ok {A B : Type} (r : result A) (k : A -> result B) (b : B) :
  bind r k = Ok b <-> exists a, r = Ok a /\ k a = Ok b.
Proof.
  destruct r as [a|e]; simpl.
  - split; [intros H; exists a; auto|intros (a' & [= <-] & H); exact H].
  - split; [discriminate|intros (a' & [=] & _)].
Qed.

Lemma testbit_mask (w i : Z) :
  0 <= i -> negb (Z.land w (Z.shiftl 1 i) =? 0) = Z.testbit w i.
Proof.
  intros Hi. rewrite Z.shiftl_1_l.
  destruct (Z.testbit w i) eqn:Hb.
  - destruct (Z.eqb_spec (Z.land w (2 ^ i)) 0) as [H0|]; [|reflexivity].
    assert (Hbit : Z.testbit (Z.land w (2 ^ i)) i = true).
    { rewrite Z.land_spec, Hb, Z.pow2_bits_true by assumption. reflexivity. }
    rewrite H0, Z.bits_0 in Hbit. discriminate.
  - assert (H0 : Z.land w (2 ^ i) = 0).
    { apply Z.bits_inj'. intros n Hn.
      rewrite Z.land_spec, Z.bits_0, Z.pow2_bits_eqb by assumption.
      destruct (Z.eqb_spec i n) as [->|]; [rewrite Hb|]; auto using andb_false_r. }
    rewrite H0. reflexivity.
Qed.

Lemma word_upper_bound (w : Z) :
  0 <= w -> (forall i, 64 <= i -> Z.testbit w i = false) -> w < 2 ^ 64.
Proof.
  intros Hw Hhigh. destruct (Z.eq_dec w 0) as [->|Hne]; [reflexivity|].
  apply Z.log2_lt_pow2; [lia|].
  destruct (Z_lt_le_dec (Z.log2 w) 64) as [|Hge]; [assumption|].
  specialize (Hhigh _ Hge). rewrite Z.bit_log2 in Hhigh by lia. discriminate.
Qed.

Lemma word_high_bits (w i : Z) :
  0 <= w < 2 ^ 64 -> 64 <= i -> Z.testbit w i = false.
Proof.
  intros [Hw Hlt] Hi. destruct (Z.eq_dec w 0) as [->|Hne]; [apply Z.bits_0|].
  apply Z.bits_above_log2; [assumption|].
  assert (Z.log2 w < 64) by (apply Z.log2_lt_pow2; lia). lia.
Qed.

(** The word and the bit of a vertex: [vertex >> 6] and [vertex & 63]. *)
Lemma word_idx_eq (v : Z) : Z.shiftr v 6 = v / 64.
Proof. rewrite Z.shiftr_div_pow2 by lia. reflexivity. Qed.

Lemma bit_idx_eq (v : Z) : Z.land v 63 = v mod 64.
Proof. change 63 with (Z.ones 6). rewrite Z.land_ones by lia. reflexivity. Qed.

(** The abstract reading of a bitmap: is the bit of vertex [v] set? *)
Definition marked (b : HypercubeBitmap.t) (v : Z) : bool :=
  match HypercubeBitmap.bitmap b !! Z.to_nat (v / 64) with
  | Some w => Z.testbit w (v mod 64)
  | None => false
  end.

(** The representation invariant of [HypercubeBitmap]. *)
Record bitmap_wf (b : HypercubeBitmap.t) : Prop := {
  wf_dimension : 1 <= HypercubeBitmap.dimension b;
  wf_num_vertices :
    HypercubeBitmap.num_vertices b = 2 ^ HypercubeBitmap.dimension b;
  wf_num_words :
    HypercubeBitmap.num_words b = (HypercubeBitmap.num_vertices b + 63) / 64;
  wf_length :
    Z.of_nat (length (HypercubeBitmap.bitmap b)) = HypercubeBitmap.num_words b;
  wf_words :
    forall k w, HypercubeBitmap.bitmap b !! k = Some w -> 0 <= w < 2 ^ 64;
  wf_high :
    forall v, HypercubeBitmap.num_vertices b <= v -> marked b v = false
}.

Lemma wf_num_vertices_pos b : bitmap_wf b -> 2 <= HypercubeBitmap.num_vertices b.
Proof.
  intros H. rewrite (wf_num_vertices _ H).
  pose proof (wf_dimension _ H).
  change 2 with (2 ^ 1) at 1. apply Z.pow_le_mono_r; lia.
Qed.

Lemma wf_word_in_range b v :
  bitmap_wf b -> 0 <= v < HypercubeBitmap.num_vertices b ->
  (Z.to_nat (v / 64) < length (HypercubeBitmap.bitmap b))%nat.
Proof.
  intros H Hv. pose proof (wf_length _ H) as Hlen.
  rewrite (wf_num_words _ H) in Hlen.
  assert (v / 64 < (HypercubeBitmap.num_vertices b + 63) / 64).
  { apply Z.div_lt_upper_bound; [lia|].
    pose proof (Z.mul_div_le (HypercubeBitmap.num_vertices b + 63) 64 ltac:(lia)).
    pose proof (Z.mod_pos_bound (HypercubeBitmap.num_vertices b + 63) 64 ltac:(lia)).
    pose proof (Z.div_mod (HypercubeBitmap.num_vertices b + 63) 64 ltac:(lia)).
    pose proof (Z.div_mod v 64 ltac:(lia)).
    pose proof (Z.mod_pos_bound v 64 ltac:(lia)).
    assert (0 <= v / 64) by (apply Z.div_pos; lia).
    nia. }
  assert (0 <= v / 64) by (apply Z.div_pos; lia). lia.
Qed.

Lemma array_get_lookup (a : list Z) (i : Z) :
  0 <= i -> (Z.to_nat i < length a)%nat ->
  exists w, a !! Z.to_nat i = Some w /\ array_get a i = Ok w.
Proof.
  intros Hi Hlt. destruct (lookup_lt_is_Some_2 a (Z.to_nat i) Hlt) as [w Hw].
  exists w. split; [assumption|]. unfold array_get, array_index.
  destruct (Z.ltb_spec i (- Z.of_nat (length a))); [lia|].
  destruct (Z.geb_spec i (Z.of_nat (length a))); [lia|]. simpl.
  destruct (Z.ltb_spec i 0); [lia|]. rewrite Hw. reflexivity.
Qed.

Lemma array_set_insert (a : list Z) (i w : Z) :
  0 <= i -> (Z.to_nat i < length a)%nat -> 0 <= w < 2 ^ 64 ->
  array_set a i w = Ok (<[Z.to_nat i := w]> a).
Proof.
  intros Hi Hlt Hw. unfold array_set, array_index.
  destruct (Z.ltb_spec i (- Z.of_nat (length a))); [lia|].
  destruct (Z.geb_spec i (Z.of_nat (length a))); [lia|]. simpl.
  destruct (Z.ltb_spec i 0); [lia|].
  destruct (Z.ltb_spec w 0); [lia|].
  destruct (Z.geb_spec w (2 ^ 64)); [lia|]. reflexivity.
Qed.

Lemma get_bit_marked b v :
  bitmap_wf b -> 0 <= v < HypercubeBitmap.num_vertices b ->
  HypercubeBitmap.get_bit b v = Ok (marked b v).
Proof.
  intros Hwf Hv. unfold HypercubeBitmap.get_bit, marked.
  destruct (Z.ltb_spec v 0); [lia|].
  destruct (Z.geb_spec v (HypercubeBitmap.num_vertices b)); [lia|]. simpl.
  rewrite word_idx_eq, bit_idx_eq.
  destruct (array_get_lookup (HypercubeBitmap.bitmap b) (v / 64))
    as (w & Hw & ->); [apply Z.div_pos; lia|apply wf_word_in_range; auto|].
  simpl. rewrite Hw, testbit_mask; [reflexivity|].
  apply Z.mod_pos_bound. lia.
Qed.

Lemma vertex_split (u v : Z) :
  u = v <-> u / 64 = v / 64 /\ u mod 64 = v mod 64.
Proof.
  split; [intros ->; auto|]. intros [Hd Hm].
  rewrite (Z.div_mod u 64), (Z.div_mod v 64) by lia. congruence.
Qed.

(** Marks of a bitmap whose word [v / 64] is replaced. *)
Lemma marked_insert b v w' u :
  0 <= v -> 0 <= u ->
  (Z.to_nat (v / 64) < length (HypercubeBitmap.bitmap b))%nat ->
  marked (HypercubeBitmap.with_bitmap b
            (<[Z.to_nat (v / 64) := w']> (HypercubeBitmap.bitmap b))) u
  = if u / 64 =? v / 64 then Z.testbit w' (u mod 64) else marked b u.
Proof.
  intros Hv Hu Hlt. unfold marked. simpl.
  assert (0 <= v / 64) by (apply Z.div_pos; lia).
  assert (0 <= u / 64) by (apply Z.div_pos; lia).
  destruct (Z.eqb_spec (u / 64) (v / 64)) as [->|Hne].
  - rewrite list_lookup_insert_eq by assumption. reflexivity.
  - rewrite list_lookup_insert_ne by lia. reflexivity.
Qed.

Lemma set_bit_spec b v :
  bitmap_wf b -> 0 <= v < HypercubeBitmap.num_vertices b ->
  exists b', HypercubeBitmap.set_bit b v = Ok b' /\
    bitmap_wf b' /\
    HypercubeBitmap.dimension b' = HypercubeBitmap.dimension b /\
    HypercubeBitmap.num_vertices b' = HypercubeBitmap.num_vertices b /\
    (forall u, 0 <= u -> marked b' u = (u =? v) || marked b u).
Proof.
  intros Hwf Hv. unfold HypercubeBitmap.set_bit.
  destruct (Z.ltb_spec v 0); [lia|].
  destruct (Z.geb_spec v (HypercubeBitmap.num_vertices b)); [lia|]. simpl.
  rewrite word_idx_eq, bit_idx_eq.
  pose proof (wf_word_in_range b v Hwf Hv) as Hlt.
  assert (Hdiv : 0 <= v / 64) by (apply Z.div_pos; lia).
  assert (Hmod : 0 <= v mod 64 < 64) by (apply Z.mod_pos_bound; lia).
  destruct (array_get_lookup (HypercubeBitmap.bitmap b) (v / 64) Hdiv Hlt)
    as (w & Hw & ->). simpl.
  pose proof (wf_words _ Hwf _ _ Hw) as Hwb.
  assert (Hnew : 0 <= Z.lor w (Z.shiftl 1 (v mod 64)) < 2 ^ 64).
  { rewrite Z.shiftl_1_l. split.
    - apply Z.lor_nonneg. split; [lia|]. apply Z.pow_nonneg. lia.
    - apply word_upper_bound.
      + apply Z.lor_nonneg. split; [lia|]. apply Z.pow_nonneg. lia.
      + intros i Hi. rewrite Z.lor_spec, (word_high_bits w i) by assumption.
        rewrite Z.pow2_bits_eqb by lia.
        destruct (Z.eqb_spec (v mod 64) i); [lia|reflexivity]. }
  rewrite array_set_insert by assumption. simpl.
  assert (Hmarks : forall u, 0 <= u ->
    marked (HypercubeBitmap.with_bitmap b
              (<[Z.to_nat (v / 64) := Z.lor w (Z.shiftl 1 (v mod 64))]>
                 (HypercubeBitmap.bitmap b))) u
    = (u =? v) || marked b u).
  { intros u Hu. rewrite marked_insert by (assumption || lia).
    destruct (Z.eqb_spec (u / 64) (v / 64)) as [Heq|Hne].
    - rewrite Z.lor_spec, Z.shiftl_1_l, Z.pow2_bits_eqb by lia.
      unfold marked. rewrite Heq, Hw.
      destruct (Z.eqb_spec (v mod 64) (u mod 64)) as [Hm|Hm];
        destruct (Z.eqb_spec u v) as [Huv|Huv]; try (apply orb_comm);
        try reflexivity.
      + exfalso. apply Huv, vertex_split. auto.
      + subst u. contradiction.
    - destruct (Z.eqb_spec u v) as [->|]; [contradiction|reflexivity]. }
  eexists. split; [reflexivity|]. split; [|auto].
  constructor; simpl; try apply Hwf.
  - rewrite length_insert. apply Hwf.
  - intros k w0 Hk. destruct (Nat.eq_dec k (Z.to_nat (v / 64))) as [->|Hne].
    + rewrite list_lookup_insert_eq in Hk by assumption. congruence.
    + rewrite list_lookup_insert_ne in Hk by auto. eapply wf_words; eauto.
  - intros u Hu. rewrite Hmarks by lia.
    rewrite (wf_high _ Hwf) by assumption.
    destruct (Z.eqb_spec u v); [lia|reflexivity].
Qed.

Lemma lookup_repeat_zero (n k : nat) (w : Z) :
  repeat 0 n !! k = Some w -> w = 0.
Proof.
  revert k. induction n as [|n IH]; intros k; simpl.
  - destruct k; discriminate.
  - destruct k; simpl; [congruence|apply IH].
Qed.

Lemma marked_repeat_zero b n v :
  HypercubeBitmap.bitmap b = repeat 0 n -> marked b v = false.
Proof.
  intros Hb. unfold marked. rewrite Hb.
  destruct (repeat 0 n !! Z.to_nat (v / 64)) as [w|] eqn:Hw; [|reflexivity].
  apply lookup_repeat_zero in Hw. subst w. apply Z.bits_0.
Qed.

Lemma new_bitmap_spec d :
  1 <= d ->
  exists b, HypercubeBitmap.new d = Ok b /\ bitmap_wf b /\
    HypercubeBitmap.dimension b = d /\ (forall v, marked b v = false).
Proof.
  intros Hd. unfold HypercubeBitmap.new.
  destruct (Z.ltb_spec d 1); [lia|].
  eexists. split; [reflexivity|].
  assert (Hpos : 0 < 2 ^ d) by (apply Z.pow_pos_nonneg; lia).
  split; [|split; [reflexivity|]].
  - constructor; simpl.
    + assumption.
    + apply Z.shiftl_1_l.
    + reflexivity.
    + rewrite repeat_length, Z2Nat.id; [reflexivity|].
      apply Z.div_pos; rewrite ?Z.shiftl_1_l; lia.
    + intros k w Hk. apply lookup_repeat_zero in Hk. subst w. lia.
    + intros v _. eapply marked_repeat_zero. reflexivity.
  - intros v. eapply marked_repeat_zero. reflexivity.
Qed.

(** ** Counting vertices *)

(** Number of elements of [l] that satisfy [f]. *)
Fixpoint count_if (f : Z -> bool) (l : list Z) : Z :=
  match l with
  | [] => 0
  | x :: rest => Z.b2z (f x) + count_if f rest
  end.

Lemma count_if_app f l1 l2 : count_if f (l1 ++ l2) = count_if f l1 + count_if f l2.
Proof. induction l1 as [|x l1 IH]; simpl; [reflexivity|]. rewrite IH. lia. Qed.

Lemma count_if_map f (g : Z -> Z) l :
  count_if f (map g l) = count_if (fun x => f (g x)) l.
Proof. induction l as [|x l IH]; simpl; [reflexivity|]. now rewrite IH. Qed.

Lemma count_if_ext_in f g l :
  (forall x, In x l -> f x = g x) -> count_if f l = count_if g l.
Proof.
  induction l as [|x l IH]; intros H; simpl; [reflexivity|].
  rewrite (H x) by (left; reflexivity). rewrite IH; [reflexivity|].
  intros y Hy. apply H. right. exact Hy.
Qed.

Lemma count_if_false f l : (forall x, In x l -> f x = false) -> count_if f l = 0.
Proof.
  induction l as [|x l IH]; intros H; simpl; [reflexivity|].
  rewrite (H x) by (left; reflexivity). rewrite IH; [reflexivity|].
  intros y Hy. apply H. right. exact Hy.
Qed.

Lemma count_if_negb f l :
  count_if (fun x => negb (f x)) l = Z.of_nat (length l) - count_if f l.
Proof.
  induction l as [|x l IH]; [reflexivity|].
  cbn [count_if length]. rewrite IH. destruct (f x); simpl Z.b2z; lia.
Qed.

Lemma count_if_mono f g l :
  (forall x, In x l -> f x = true -> g x = true) -> count_if f l <= count_if g l.
Proof.
  induction l as [|x l IH]; intros H; simpl; [lia|].
  assert (count_if f l <= count_if g l)
    by (apply IH; intros y Hy; apply H; right; exact Hy).
  specialize (H x (or_introl eq_refl)).
  destruct (f x), (g x); simpl; try lia; specialize (H eq_refl); discriminate.
Qed.

Lemma count_if_bounds f l : 0 <= count_if f l <= Z.of_nat (length l).
Proof.
  induction l as [|x l IH]; simpl length; simpl count_if; [lia|].
  destruct (f x); simpl Z.b2z; lia.
Qed.

(** [range(k)] over integers, for a natural number [k]. *)
Definition zrange_nat (k : nat) : list Z := map Z.of_nat (seq 0 k).

Lemma zrange_nat_succ k : zrange_nat (S k) = 0 :: map Z.succ (zrange_nat k).
Proof.
  unfold zrange_nat. rewrite <- cons_seq, <- seq_shift. simpl.
  rewrite !map_map. f_equal. apply map_ext. intros a. apply Nat2Z.inj_succ.
Qed.

Lemma seq_as_shift k m : seq k m = map (Nat.add k) (seq 0 m).
Proof.
  induction k as [|k IH].
  - simpl. rewrite <- (List.map_id (seq 0 m)) at 1. reflexivity.
  - rewrite <- seq_shift, IH, map_map. reflexivity.
Qed.

Lemma zrange_nat_add k m :
  zrange_nat (k + m) = zrange_nat k ++ map (Z.add (Z.of_nat k)) (zrange_nat m).
Proof.
  unfold zrange_nat. rewrite seq_app, map_app. f_equal.
  simpl. rewrite seq_as_shift, !map_map.
  apply map_ext. intros a. lia.
Qed.

Lemma in_zrange_nat k v : In v (zrange_nat k) <-> 0 <= v < Z.of_nat k.
Proof.
  unfold zrange_nat. rewrite in_map_iff. split.
  - intros (i & <- & Hi). apply in_seq in Hi. lia.
  - intros Hv. exists (Z.to_nat v). split; [lia|]. apply in_seq. lia.
Qed.

Lemma in_zrange n v : In v (zrange n) <-> 0 <= v < n.
Proof.
  change (zrange n) with (zrange_nat (Z.to_nat n)). rewrite in_zrange_nat. lia.
Qed.

Lemma zrange_length n : 0 <= n -> Z.of_nat (length (zrange n)) = n.
Proof. intros Hn. unfold zrange. rewrite length_map, length_seq. lia. Qed.

(** *** Population count through [bin(word).count('1')] *)

Definition popcount (w : Z) : Z := str_count (bin w) "1"%char.

Lemma str_count_app s1 s2 c :
  str_count (s1 ++ s2) c = str_count s1 c + str_count s2 c.
Proof.
  induction s1 as [|a s1 IH]; simpl; [reflexivity|]. rewrite IH. lia.
Qed.

Lemma popcount_pos_bits (p : positive) :
  forall k, Zpos p < 2 ^ Z.of_nat k ->
    str_count (bin_digits p) "1"%char
    = count_if (Z.testbit (Zpos p)) (zrange_nat k).
Proof.
  induction p as [q IH|q IH|]; intros k Hk.
  - destruct k as [|k]; [simpl in Hk; lia|].
    rewrite Nat2Z.inj_succ, Z.pow_succ_r in Hk by lia.
    rewrite zrange_nat_succ. cbn [bin_digits count_if].
    rewrite str_count_app, (IH k) by lia. rewrite count_if_map.
    change (Z.testbit (Z.pos q~1) 0) with true. simpl Z.b2z. simpl str_count.
    rewrite (count_if_ext_in (fun x => Z.testbit (Z.pos q~1) (Z.succ x))
               (Z.testbit (Z.pos q))); [lia|].
    intros x Hx. apply in_zrange_nat in Hx.
    change (Z.pos q~1) with (2 * Z.pos q + Z.b2z true).
    apply Z.testbit_succ_r. lia.
  - destruct k as [|k]; [simpl in Hk; lia|].
    rewrite Nat2Z.inj_succ, Z.pow_succ_r in Hk by lia.
    rewrite zrange_nat_succ. cbn [bin_digits count_if].
    rewrite str_count_app, (IH k) by lia. rewrite count_if_map.
    change (Z.testbit (Z.pos q~0) 0) with false. simpl Z.b2z. simpl str_count.
    rewrite (count_if_ext_in (fun x => Z.testbit (Z.pos q~0) (Z.succ x))
               (Z.testbit (Z.pos q))); [lia|].
    intros x Hx. apply in_zrange_nat in Hx.
    change (Z.pos q~0) with (2 * Z.pos q + Z.b2z false).
    apply Z.testbit_succ_r. lia.
  - destruct k as [|k]; [simpl in Hk; lia|].
    rewrite zrange_nat_succ. cbn [bin_digits count_if]. rewrite count_if_map.
    rewrite count_if_false; [reflexivity|].
    intros x Hx. apply in_zrange_nat in Hx.
    change (Z.pos 1) with (2 * 0 + Z.b2z true).
    rewrite Z.testbit_succ_r by lia. apply Z.bits_0.
Qed.

Lemma popcount_bits (w : Z) (k : nat) :
  0 <= w < 2 ^ Z.of_nat k ->
  popcount w = count_if (Z.testbit w) (zrange_nat k).
Proof.
  intros [Hw Hlt]. unfold popcount. destruct w as [|p|p]; [| |lia].
  - simpl. symmetry. apply count_if_false. intros x _. apply Z.bits_0.
  - cbn [bin]. rewrite str_count_app. simpl (str_count "0b" _).
    rewrite (popcount_pos_bits p k Hlt). lia.
Qed.

(** *** Marks of a list of words *)

Definition marked_in (words : list Z) (v : Z) : bool :=
  match words !! Z.to_nat (v / 64) with
  | Some w => Z.testbit w (v mod 64)
  | None => false
  end.

Definition sum_popcount (words : list Z) (acc : Z) : Z :=
  fold_left (fun acc word => acc + str_count (bin word) "1"%char) words acc.

Lemma sum_popcount_marks (words : list Z) :
  (forall k w, words !! k = Some w -> 0 <= w < 2 ^ 64) ->
  forall acc,
    sum_popcount words acc
    = acc + count_if (marked_in words) (zrange_nat (64 * length words)).
Proof.
  induction words as [|w words IH]; intros Hwords acc.
  - simpl. lia.
  - cbn [sum_popcount fold_left]. fold (sum_popcount words).
    rewrite IH by (intros k w' Hk; apply (Hwords (S k) w'); exact Hk).
    replace (64 * length (w :: words))%nat with (64 + 64 * length words)%nat
      by (simpl; lia).
    rewrite zrange_nat_add, count_if_app, count_if_map.
    fold (popcount w).
    rewrite (popcount_bits w 64) by (apply (Hwords 0%nat w); reflexivity).
    rewrite (count_if_ext_in (marked_in (w :: words)) (Z.testbit w)
               (zrange_nat 64)).
    + rewrite (count_if_ext_in
                 (fun x => marked_in (w :: words) (Z.of_nat 64 + x))
                 (marked_in words)); [lia|].
      intros x Hx. apply in_zrange_nat in Hx. unfold marked_in.
      replace (Z.of_nat 64 + x) with (x + 1 * 64) by lia.
      rewrite Z.div_add, Z.mod_add by lia.
      assert (0 <= x / 64) by (apply Z.div_pos; lia).
      replace (Z.to_nat (x / 64 + 1)) with (S (Z.to_nat (x / 64))) by lia.
      reflexivity.
    + intros x Hx. apply in_zrange_nat in Hx. unfold marked_in.
      rewrite Z.div_small, Z.mod_small by lia. reflexivity.
Qed.

Lemma count_unmarked_loop b l :
  bitmap_wf b ->
  (forall v, In v l -> 0 <= v < HypercubeBitmap.num_vertices b) ->
  forall count,
    for_each l
      (fun vertex count =>
         marked <- HypercubeBitmap.get_bit b vertex ;;
         Ok (if negb marked then count + 1 else count)) count
    = Ok (count + count_if (fun v => negb (marked b v)) l).
Proof.
  intros Hwf. induction l as [|v l IH]; intros Hl count; simpl.
  - f_equal. lia.
  - rewrite get_bit_marked by (auto; apply Hl; left; reflexivity). simpl.
    rewrite IH by (intros u Hu; apply Hl; right; exact Hu).
    f_equal. destruct (marked b v); simpl; lia.
Qed.

Lemma count_unmarked_spec b :
  bitmap_wf b ->
  HypercubeBitmap.count_unmarked b
  = Ok (count_if (fun v => negb (marked b v))
          (zrange (HypercubeBitmap.num_vertices b))).
Proof.
  intros Hwf. unfold HypercubeBitmap.count_unmarked.
  rewrite count_unmarked_loop; auto. intros v Hv. now apply in_zrange.
Qed.

Lemma count_marked_all_words b :
  bitmap_wf b ->
  count_if (marked b)
    (zrange_nat (64 * length (HypercubeBitmap.bitmap b)))
  = count_if (marked b) (zrange (HypercubeBitmap.num_vertices b)).
Proof.
  intros Hwf.
  pose proof (wf_num_vertices_pos b Hwf) as Hnv.
  assert (Hle : (Z.to_nat (HypercubeBitmap.num_vertices b)
                 <= 64 * length (HypercubeBitmap.bitmap b))%nat).
  { pose proof (wf_length _ Hwf) as Hlen. rewrite (wf_num_words _ Hwf) in Hlen.
    pose proof (Z.div_mod (HypercubeBitmap.num_vertices b + 63) 64 ltac:(lia)).
    pose proof (Z.mod_pos_bound (HypercubeBitmap.num_vertices b + 63) 64 ltac:(lia)).
    lia. }
  replace (64 * length (HypercubeBitmap.bitmap b))%nat
    with (Z.to_nat (HypercubeBitmap.num_vertices b)
          + (64 * length (HypercubeBitmap.bitmap b)
             - Z.to_nat (HypercubeBitmap.num_vertices b)))%nat by lia.
  rewrite zrange_nat_add, count_if_app, count_if_map.
  rewrite (count_if_false (fun x => marked b (_ + x))); [unfold zrange, zrange_nat; lia|].
  intros x Hx. apply in_zrange_nat in Hx. apply (wf_high _ Hwf). lia.
Qed.

Lemma count_unmarked_fast_spec b :
  bitmap_wf b ->
  HypercubeBitmap.count_unmarked_fast b
  = count_if (fun v => negb (marked b v))
      (zrange (HypercubeBitmap.num_vertices b)).
Proof.
  intros Hwf. unfold HypercubeBitmap.count_unmarked_fast.
  fold (sum_popcount (HypercubeBitmap.bitmap b) 0).
  rewrite sum_popcount_marks by (apply Hwf).
  change (marked_in (HypercubeBitmap.bitmap b)) with (marked b).
  rewrite count_marked_all_words, count_if_negb by assumption.
  rewrite zrange_length by (pose proof (wf_num_vertices_pos b Hwf); lia). lia.
Qed.

(** ** Search nodes *)

Lemma lxor_in_range (n a b : Z) :
  0 <= n -> 0 <= a < 2 ^ n -> 0 <= b < 2 ^ n -> 0 <= Z.lxor a b < 2 ^ n.
Proof.
  intros Hn Ha Hb.
  assert (Hnonneg : 0 <= Z.lxor a b) by (apply Z.lxor_nonneg; lia).
  split; [assumption|].
  destruct (Z.eq_dec (Z.lxor a b) 0) as [->|Hne]; [lia|].
  apply Z.log2_lt_pow2; [lia|].
  assert (Hlog : forall x, 0 <= x < 2 ^ n -> x <> 0 -> Z.log2 x < n).
  { intros x Hx Hx0. apply Z.log2_lt_pow2; lia. }
  pose proof (Z.log2_lxor a b ltac:(lia) ltac:(lia)) as Hmax.
  destruct (Z.eq_dec a 0) as [->|Ha0].
  - rewrite Z.lxor_0_l in *. apply Hlog; assumption.
  - destruct (Z.eq_dec b 0) as [->|Hb0].
    + rewrite Z.lxor_0_r in *. apply Hlog; assumption.
    + pose proof (Hlog a Ha Ha0). pose proof (Hlog b Hb Hb0). lia.
Qed.

Lemma flip_in_range (n v d : Z) :
  0 <= v < 2 ^ n -> 0 <= d < n -> 0 <= Z.lxor v (Z.shiftl 1 d) < 2 ^ n.
Proof.
  intros Hv Hd. apply lxor_in_range; [lia|assumption|].
  rewrite Z.shiftl_1_l. split; [apply Z.pow_nonneg; lia|].
  apply Z.pow_lt_mono_r; lia.
Qed.

(** The vertex reached from [current] by replaying [ts]. *)
Definition end_vertex (current : Z) (ts : list Z) : Z :=
  fold_left (fun v t => Z.lxor v (Z.shiftl 1 t)) ts current.

Lemma path_from_app current ts d :
  path_from current (ts ++ [d])
  = path_from current ts ++ [Z.lxor (end_vertex current ts) (Z.shiftl 1 d)].
Proof.
  revert current. induction ts as [|t ts IH]; intros current; simpl; [reflexivity|].
  now rewrite IH.
Qed.

Lemma end_vertex_in_path current ts :
  In (end_vertex current ts) (current :: path_from current ts).
Proof.
  revert current. induction ts as [|t ts IH]; intros current; simpl.
  - left. reflexivity.
  - right. apply (IH (Z.lxor current (Z.shiftl 1 t))).
Qed.

Lemma path_from_in_range n ts :
  Forall (in_range n) ts ->
  forall current, 0 <= current < 2 ^ n ->
    forall p, In p (path_from current ts) -> 0 <= p < 2 ^ n.
Proof.
  induction 1 as [|t ts Ht _ IH]; intros current Hc p; simpl; [intros []|].
  pose proof (flip_in_range n current t Hc Ht) as Hnext.
  intros [<-|Hp]; [assumption|]. eapply IH; eauto.
Qed.

Lemma path_from_length current ts : length (path_from current ts) = length ts.
Proof.
  revert current. induction ts as [|t ts IH]; intros current; simpl; auto.
Qed.

Lemma compute_current_vertex_from ts :
  Forall (fun t => 0 <= t) ts ->
  forall current,
    for_each ts
      (fun transition vertex =>
         bit <- py_lshift 1 transition ;; Ok (Z.lxor vertex bit)) current
    = Ok (end_vertex current ts).
Proof.
  induction 1 as [|t ts Ht _ IH]; intros current; simpl; [reflexivity|].
  unfold py_lshift. destruct (Z.ltb_spec t 0); [lia|]. simpl. apply IH.
Qed.

Lemma compute_current_vertex_ok n ts :
  Forall (in_range n) ts ->
  compute_current_vertex ts = Ok (end_vertex 0 ts).
Proof.
  intros H. apply compute_current_vertex_from.
  eapply List.Forall_impl; [|exact H]. intros a [Ha _]. exact Ha.
Qed.

(** What the bitmap of a node marks: the vertices of [path] and their
    neighbours along the dimensions in [used]. *)
Definition covers (used path : list Z) (u : Z) : Prop :=
  exists p, In p path /\
    (u = p \/ exists d, In d used /\ u = Z.lxor p (Z.shiftl 1 d)).

Lemma covers_cons used p path u :
  covers used (p :: path) u <->
  (u = p \/ exists d, In d used /\ u = Z.lxor p (Z.shiftl 1 d))
  \/ covers used path u.
Proof.
  unfold covers. split.
  - intros (q & [<-|Hq] & H); [left; exact H|right; eauto].
  - intros [H|(q & Hq & H)]; [exists p|exists q]; simpl; auto.
Qed.

Lemma covers_mono used used' path path' u :
  incl used used' -> incl path path' -> covers used path u -> covers used' path' u.
Proof.
  intros Hu Hp (p & Hin & H). exists p. split; [auto|].
  destruct H as [->|(d & Hd & ->)]; [left; reflexivity|right; eauto].
Qed.

Lemma used_dimensions_In seq d :
  In d (SnakeNode._get_used_dimensions seq) <-> In d seq.
Proof.
  unfold SnakeNode._get_used_dimensions, py_set.
  destruct seq; [tauto|]. apply nodup_In.
Qed.

Lemma mark_adjacent_spec dim vertex used :
  Forall (in_range dim) used ->
  forall b,
    bitmap_wf b -> HypercubeBitmap.dimension b = dim ->
    0 <= vertex < 2 ^ dim ->
    exists b', SnakeNode._mark_adjacent dim vertex b (Some used) = Ok b' /\
      bitmap_wf b' /\ HypercubeBitmap.dimension b' = dim /\
      (forall u, 0 <= u ->
         (marked b' u = true <->
          marked b u = true \/
          exists d, In d used /\ u = Z.lxor vertex (Z.shiftl 1 d))).
Proof.
  unfold SnakeNode._mark_adjacent.
  induction 1 as [|d used Hd _ IH]; intros b Hwf Hdim Hv; cbn [for_each].
  - exists b. split; [reflexivity|]. split; [assumption|]. split; [assumption|].
    intros u Hu. split; [auto|]. intros [H'|(d & [] & _)]. exact H'.
  - destruct Hd as [Hd0 Hd1].
    destruct (Z.ltb_spec d dim); [|lia].
    unfold py_lshift at 1. destruct (Z.ltb_spec d 0); [lia|]. cbn [bind].
    assert (Hflip : 0 <= Z.lxor vertex (Z.shiftl 1 d)
                    < HypercubeBitmap.num_vertices b).
    { rewrite (wf_num_vertices _ Hwf), Hdim. apply flip_in_range; lia. }
    destruct (set_bit_spec b _ Hwf Hflip) as (b1 & -> & Hwf1 & Hdim1 & _ & Hm1).
    cbn [bind]. destruct (IH b1 Hwf1 ltac:(congruence) Hv)
      as (b' & -> & Hwf' & Hdim' & Hm').
    exists b'. split; [reflexivity|]. split; [assumption|]. split; [assumption|].
    intros u Hu. split.
    + intros H'. apply Hm' in H'; [|assumption].
      destruct H' as [H'|(d' & Hd' & ->)];
        [|right; exists d'; split; [right; assumption|reflexivity]].
      rewrite Hm1 in H' by assumption. apply orb_true_iff in H' as [H'|H'].
      * right. exists d. split; [left; reflexivity|]. now apply Z.eqb_eq.
      * left. exact H'.
    + intros H'. apply Hm'; [assumption|].
      destruct H' as [H'|(d' & [<-|Hd'] & ->)].
      * left. rewrite Hm1, H' by assumption. apply orb_true_r.
      * left. rewrite Hm1, Z.eqb_refl by lia. reflexivity.
      * right. eauto.
Qed.

Lemma mark_step_spec dim used b vertex :
  Forall (in_range dim) used ->
  bitmap_wf b -> HypercubeBitmap.dimension b = dim ->
  0 <= vertex < 2 ^ dim ->
  exists b',
    (bitmap <- SnakeNode._mark_vertex vertex b ;;
     SnakeNode._mark_adjacent dim vertex bitmap (Some used)) = Ok b' /\
    bitmap_wf b' /\ HypercubeBitmap.dimension b' = dim /\
    (forall u, 0 <= u ->
       (marked b' u = true <-> marked b u = true \/ covers used [vertex] u)).
Proof.
  intros Hused Hwf Hdim Hv. unfold SnakeNode._mark_vertex.
  assert (Hv' : 0 <= vertex < HypercubeBitmap.num_vertices b)
    by (rewrite (wf_num_vertices _ Hwf), Hdim; assumption).
  destruct (set_bit_spec b _ Hwf Hv') as (b1 & -> & Hwf1 & Hdim1 & _ & Hm1).
  cbn [bind].
  destruct (mark_adjacent_spec dim vertex used Hused b1 Hwf1
              ltac:(congruence) Hv) as (b' & -> & Hwf' & Hdim' & Hm').
  exists b'. split; [reflexivity|]. split; [assumption|]. split; [assumption|].
  intros u Hu. split.
  - intros H. apply Hm' in H; [|assumption]. destruct H as [H|H].
    + rewrite Hm1 in H by assumption. apply orb_true_iff in H as [H|H].
      * right. exists vertex. split; [left; reflexivity|].
        left. now apply Z.eqb_eq.
      * left. exact H.
    + right. exists vertex. split; [left; reflexivity|]. right. exact H.
  - intros H. apply Hm'; [assumption|].
    destruct H as [H|(p & [<-|[]] & [->|H])].
    + left. rewrite Hm1, H by assumption. apply orb_true_r.
    + left. rewrite Hm1, Z.eqb_refl by lia. reflexivity.
    + right. exact H.
Qed.

Lemma initialize_loop_spec dim used ts :
  Forall (in_range dim) used ->
  Forall (in_range dim) ts ->
  forall current b,
    bitmap_wf b -> HypercubeBitmap.dimension b = dim ->
    0 <= current < 2 ^ dim ->
    exists b',
      for_each ts (SnakeNode._initialize_bitmap_step dim used) (current, b)
      = Ok (end_vertex current ts, b') /\
      bitmap_wf b' /\ HypercubeBitmap.dimension b' = dim /\
      (forall u, 0 <= u ->
         (marked b' u = true <->
          marked b u = true \/ covers used (path_from current ts) u)).
Proof.
  intros Hused. induction 1 as [|t ts Ht _ IH]; intros current b Hwf Hdim Hc.
  - exists b. simpl. split; [reflexivity|]. split; [assumption|].
    split; [assumption|]. intros u Hu. split; [auto|].
    intros [H'|(p & [] & _)]. exact H'.
  - cbn [for_each]. unfold SnakeNode._initialize_bitmap_step at 1.
    unfold py_lshift at 1.
    destruct (Z.ltb_spec t 0); [destruct Ht; lia|]. cbn [bind].
    pose proof (flip_in_range dim current t Hc Ht) as Hnext.
    destruct (mark_step_spec dim used b _ Hused Hwf Hdim Hnext)
      as (b1 & Hstep & Hwf1 & Hdim1 & Hm1).
    unfold bind in Hstep.
    destruct (SnakeNode._mark_vertex _ b) as [bv|e]; [|discriminate].
    cbn [bind]. rewrite Hstep. cbn [bind].
    destruct (IH _ b1 Hwf1 Hdim1 Hnext) as (b' & Hloop & Hwf' & Hdim' & Hm').
    exists b'. split; [exact Hloop|]. split; [assumption|]. split; [assumption|].
    intros u Hu. rewrite (Hm' u Hu), (Hm1 u Hu). cbn [path_from].
    rewrite (covers_cons used _ (path_from _ ts)).
    unfold covers at 1. split.
    + intros [[H'|(p & [<-|[]] & H')]|H']; auto.
    + intros [H'|[H'|H']]; auto. left. right.
      exists (Z.lxor current (Z.shiftl 1 t)).
      split; [left; reflexivity|exact H'].
Qed.

(** The vertices a node's snake visits, from the origin. *)
Definition node_path (seq : list Z) : list Z := 0 :: path_from 0 seq.

Lemma initialize_bitmap_spec seq dim :
  1 <= dim -> Forall (in_range dim) seq ->
  exists b, SnakeNode._initialize_bitmap seq dim = Ok b /\
    bitmap_wf b /\ HypercubeBitmap.dimension b = dim /\
    (forall u, 0 <= u ->
       (marked b u = true <-> covers seq (node_path seq) u)).
Proof.
  intros Hdim Hseq. unfold SnakeNode._initialize_bitmap.
  destruct (new_bitmap_spec dim Hdim) as (b0 & -> & Hwf0 & Hdim0 & Hm0).
  cbn [bind].
  set (used := SnakeNode._get_used_dimensions seq).
  assert (Hused : Forall (in_range dim) used).
  { apply List.Forall_forall. intros d Hd.
    rewrite List.Forall_forall in Hseq.
    exact (Hseq d (proj1 (used_dimensions_In seq d) Hd)). }
  assert (H0 : 0 <= 0 < 2 ^ dim) by (split; [lia|apply Z.pow_pos_nonneg; lia]).
  destruct (mark_step_spec dim used b0 0 Hused Hwf0 Hdim0 H0)
    as (b1 & Hstep & Hwf1 & Hdim1 & Hm1).
  unfold bind in Hstep.
  destruct (SnakeNode._mark_vertex 0 b0) as [bv|e]; [|discriminate].
  cbn [bind]. rewrite Hstep. cbn [bind].
  destruct (initialize_loop_spec dim used seq Hused Hseq 0 b1 Hwf1 Hdim1 H0)
    as (b' & -> & Hwf' & Hdim' & Hm').
  cbn [bind snd]. exists b'. split; [reflexivity|]. split; [assumption|].
  split; [assumption|]. intros u Hu. split.
  - intros H. apply Hm' in H; [|assumption].
    assert (Hcov : covers used (node_path seq) u).
    { unfold node_path. apply covers_cons. destruct H as [H|H]; [|right; exact H].
      apply Hm1 in H; [|assumption]. rewrite Hm0 in H.
      destruct H as [H|H]; [discriminate|].
      apply covers_cons in H as [H|(p & [] & _)]. left. exact H. }
    eapply covers_mono; [| |exact Hcov]; [|apply incl_refl].
    intros d Hd. now apply used_dimensions_In.
  - intros H. apply Hm'; [assumption|].
    assert (Hcov : covers used (node_path seq) u).
    { eapply covers_mono; [| |exact H]; [|apply incl_refl].
      intros d Hd. now apply used_dimensions_In. }
    unfold node_path in Hcov. apply covers_cons in Hcov as [Hc|Hc]; [|auto].
    left. apply Hm1; [assumption|]. right. apply covers_cons. left. exact Hc.
Qed.

(** *** Construction *)

Lemma check_transitions_ok dim seq :
  Forall (in_range dim) seq ->
  for_each seq (SnakeNode._check_transition dim) tt = Ok tt.
Proof.
  induction 1 as [|t seq [Ht0 Ht1] _ IH]; [reflexivity|].
  cbn [for_each]. unfold SnakeNode._check_transition at 1.
  destruct (Z.ltb_spec t 0); [lia|]. destruct (Z.geb_spec t dim); [lia|].
  exact IH.
Qed.

Lemma check_transitions_result dim seq :
  (Forall (in_range dim) seq /\
   for_each seq (SnakeNode._check_transition dim) tt = Ok tt)
  \/
  (exists t, In t seq /\ ~ in_range dim t /\
     for_each seq (SnakeNode._check_transition dim) tt
     = Err (ValueError (TransitionOutOfRange t dim))).
Proof.
  induction seq as [|t seq IH].
  - left. split; [constructor|reflexivity].
  - cbn [for_each]. unfold SnakeNode._check_transition at 1 3.
    destruct (Z.ltb_spec t 0) as [Hneg|Hnn].
    { right. exists t. split; [left; reflexivity|].
      split; [unfold in_range; lia|reflexivity]. }
    destruct (Z.geb_spec t dim) as [Hge|Hlt].
    { right. exists t. split; [left; reflexivity|].
      split; [unfold in_range; lia|reflexivity]. }
    cbn [orb bind]. destruct IH as [[Hall Hok]|(t' & Hin & Hbad & Herr)].
    + left. split; [constructor; [unfold in_range; lia|assumption]|exact Hok].
    + right. exists t'. split; [right; exact Hin|]. split; assumption.
Qed.

(** What holds of a node built from [seq] in dimension [dim]. *)
Record node_inv (seq : list Z) (dim : Z) (nd : SnakeNode.t) : Prop := {
  inv_dim : 1 <= dim;
  inv_range : Forall (in_range dim) seq;
  inv_sequence : SnakeNode.transition_sequence nd = seq;
  inv_dimension : SnakeNode.dimension nd = dim;
  inv_wf : bitmap_wf (SnakeNode.vertices_bitmap nd);
  inv_bitmap_dimension :
    HypercubeBitmap.dimension (SnakeNode.vertices_bitmap nd) = dim;
  inv_marks :
    forall u, 0 <= u ->
      (marked (SnakeNode.vertices_bitmap nd) u = true
       <-> covers seq (node_path seq) u);
  inv_fitness :
    SnakeNode.fitness nd
    = count_if (fun v => negb (marked (SnakeNode.vertices_bitmap nd) v))
        (zrange (2 ^ dim))
}.

Lemma node_new_ok seq dim :
  1 <= dim -> Forall (in_range dim) seq ->
  exists nd, SnakeNode.new seq dim = Ok nd /\ node_inv seq dim nd.
Proof.
  intros Hdim Hseq. unfold SnakeNode.new.
  destruct (Z.ltb_spec dim 1); [lia|].
  rewrite check_transitions_ok by assumption. cbn [bind].
  destruct (initialize_bitmap_spec seq dim Hdim Hseq)
    as (b & -> & Hwf & Hbdim & Hmarks).
  cbn [bind]. unfold SnakeNode._calculate_fitness.
  rewrite count_unmarked_spec by assumption. cbn [bind].
  eexists. split; [reflexivity|].
  constructor; simpl; auto.
  rewrite (wf_num_vertices _ Hwf), Hbdim. reflexivity.
Qed.

Lemma node_new_inv seq dim nd :
  SnakeNode.new seq dim = Ok nd -> node_inv seq dim nd.
Proof.
  intros Hnew.
  assert (Hdim : 1 <= dim).
  { unfold SnakeNode.new in Hnew. destruct (Z.ltb_spec dim 1); [discriminate|lia]. }
  assert (Hseq : Forall (in_range dim) seq).
  { unfold SnakeNode.new in Hnew. destruct (Z.ltb_spec dim 1); [lia|].
    destruct (check_transitions_result dim seq) as [[H' _]|(t & _ & _ & Herr)];
      [assumption|]. rewrite Herr in Hnew. discriminate. }
  destruct (node_new_ok seq dim Hdim Hseq) as (nd' & Hnew' & Hinv).
  congruence.
Qed.

(** C8: constructing a node fails exactly when [dimension < 1] or some
    transition lies outside [[0, dimension)]; the failure is the
    [ValueError] naming the dimension, respectively an offending
    transition; a successful construction stores the sequence and the
    dimension unchanged; and [SnakeNode([0, 5], 3)] fails with the
    transition-out-of-range error for 5. *)
Theorem snake_node_construction_fails_iff (seq : list Z) (dim : Z) :
  ((exists e, SnakeNode.new seq dim = Err e) <->
   dim < 1 \/ Exists (fun t => ~ in_range dim t) seq)
  /\
  (forall e, SnakeNode.new seq dim = Err e ->
     e = ValueError (DimensionTooSmall dim) \/
     exists t, In t seq /\ ~ in_range dim t /\
               e = ValueError (TransitionOutOfRange t dim))
  /\
  (forall nd, SnakeNode.new seq dim = Ok nd ->
     SnakeNode.transition_sequence nd = seq /\ SnakeNode.dimension nd = dim)
  /\
  SnakeNode.new [0; 5] 3 = Err (ValueError (TransitionOutOfRange 5 3)).
Proof.
  assert (Hcases :
    (dim < 1 /\ SnakeNode.new seq dim = Err (ValueError (DimensionTooSmall dim)))
    \/ (1 <= dim /\ exists t, In t seq /\ ~ in_range dim t /\
          SnakeNode.new seq dim = Err (ValueError (TransitionOutOfRange t dim)))
    \/ (1 <= dim /\ Forall (in_range dim) seq /\
          exists nd, SnakeNode.new seq dim = Ok nd)).
  { destruct (Z_lt_le_dec dim 1) as [Hlt|Hge].
    - left. split; [assumption|]. unfold SnakeNode.new.
      destruct (Z.ltb_spec dim 1); [reflexivity|lia].
    - right.
      destruct (check_transitions_result dim seq) as [[Hall _]|(t & Hin & Hbad & Herr)].
      + right. split; [assumption|]. split; [assumption|].
        destruct (node_new_ok seq dim Hge Hall) as (nd & Hnd & _). eauto.
      + left. split; [assumption|]. exists t. split; [assumption|].
        split; [assumption|]. unfold SnakeNode.new.
        destruct (Z.ltb_spec dim 1); [lia|]. rewrite Herr. reflexivity. }
  split; [|split; [|split; [|reflexivity]]].
  - split.
    + intros [e He].
      destruct Hcases as [[Hlt _]|[(_ & t & Hin & Hbad & _)|(_ & _ & nd & Hnd)]].
      * left. assumption.
      * right. apply List.Exists_exists. eauto.
      * congruence.
    + intros Hbad.
      destruct Hcases as [[_ Herr]|[(_ & t & _ & _ & Herr)|(Hge & Hall & _)]];
        [eauto|eauto|].
      destruct Hbad as [Hlt|Hex]; [lia|].
      apply List.Exists_exists in Hex as (t & Hin & Hbad).
      rewrite List.Forall_forall in Hall. exfalso. apply Hbad, Hall, Hin.
  - intros e He.
    destruct Hcases as [[_ Herr]|[(_ & t & Hin & Hbad & Herr)|(_ & _ & nd & Hnd)]].
    + left. congruence.
    + right. exists t. split; [assumption|]. split; [assumption|]. congruence.
    + congruence.
  - intros nd Hnd. apply node_new_inv in Hnd.
    split; [apply (inv_sequence _ _ _ Hnd)|apply (inv_dimension _ _ _ Hnd)].
Qed.

(** *** Extension *)

Lemma can_extend_spec seq dim nd d :
  node_inv seq dim nd ->
  SnakeNode.can_extend nd d
  = Ok ((0 <=? d) && (d <? dim) &&
        negb (marked (SnakeNode.vertices_bitmap nd)
                (Z.lxor (end_vertex 0 seq) (Z.shiftl 1 d)))).
Proof.
  intros Hinv. unfold SnakeNode.can_extend.
  rewrite (inv_dimension _ _ _ Hinv).
  destruct (Z.ltb_spec d 0) as [Hneg|Hnn].
  { destruct (Z.leb_spec 0 d); [lia|]. reflexivity. }
  destruct (Z.geb_spec d dim) as [Hge|Hlt].
  { destruct (Z.leb_spec 0 d); [|lia]. destruct (Z.ltb_spec d dim); [lia|].
    reflexivity. }
  destruct (Z.leb_spec 0 d); [|lia]. destruct (Z.ltb_spec d dim); [|lia].
  cbn [orb andb]. unfold SnakeNode.get_current_vertex.
  rewrite (inv_sequence _ _ _ Hinv).
  rewrite (compute_current_vertex_ok dim) by apply (inv_range _ _ _ Hinv).
  cbn [bind]. unfold py_lshift. destruct (Z.ltb_spec d 0); [lia|]. cbn [bind].
  unfold SnakeNode._is_marked. rewrite get_bit_marked; [reflexivity| |].
  - apply (inv_wf _ _ _ Hinv).
  - rewrite (wf_num_vertices _ (inv_wf _ _ _ Hinv)),
      (inv_bitmap_dimension _ _ _ Hinv).
    apply flip_in_range; [|lia].
    pose proof (inv_dim _ _ _ Hinv).
    assert (Horigin : 0 <= 0 < 2 ^ dim)
      by (split; [lia|apply Z.pow_pos_nonneg; lia]).
    destruct (end_vertex_in_path 0 seq) as [<-|Hin]; [assumption|].
    eapply path_from_in_range;
      [apply (inv_range _ _ _ Hinv)|exact Horigin|exact Hin].
Qed.

Lemma can_extend_true seq dim nd d :
  node_inv seq dim nd ->
  SnakeNode.can_extend nd d = Ok true ->
  in_range dim d /\
  marked (SnakeNode.vertices_bitmap nd)
    (Z.lxor (end_vertex 0 seq) (Z.shiftl 1 d)) = false.
Proof.
  intros Hinv H. rewrite (can_extend_spec _ _ _ _ Hinv) in H.
  injection H as H. apply andb_true_iff in H as [H Hm].
  apply andb_true_iff in H as [H0 H1].
  apply Z.leb_le in H0. apply Z.ltb_lt in H1. apply negb_true_iff in Hm.
  unfold in_range. auto.
Qed.

Lemma create_child_ok seq dim nd d :
  node_inv seq dim nd ->
  SnakeNode.can_extend nd d = Ok true ->
  exists c, SnakeNode.create_child nd d = Ok c /\ node_inv (seq ++ [d]) dim c.
Proof.
  intros Hinv Hext. destruct (can_extend_true _ _ _ _ Hinv Hext) as [Hd _].
  unfold SnakeNode.create_child. rewrite Hext. cbn [bind negb].
  rewrite (inv_sequence _ _ _ Hinv), (inv_dimension _ _ _ Hinv).
  apply node_new_ok; [apply (inv_dim _ _ _ Hinv)|].
  apply Forall_app. split; [apply (inv_range _ _ _ Hinv)|].
  constructor; [assumption|constructor].
Qed.

(** The neighbours of the current vertex along the used dimensions are
    marked with it, so a node can only be extended along a dimension that
    its sequence has not used yet. *)
Lemma cannot_extend_used_dimension seq dim nd d :
  node_inv seq dim nd -> In d seq -> SnakeNode.can_extend nd d = Ok false.
Proof.
  intros Hinv Hd. rewrite (can_extend_spec _ _ _ _ Hinv).
  assert (Hrange : in_range dim d).
  { pose proof (inv_range _ _ _ Hinv) as Hall.
    rewrite List.Forall_forall in Hall. apply Hall, Hd. }
  assert (Hflip : 0 <= Z.lxor (end_vertex 0 seq) (Z.shiftl 1 d)).
  { apply Z.lxor_nonneg. split; intros _.
    - rewrite Z.shiftl_1_l. apply Z.pow_nonneg. lia.
    - pose proof (inv_dim _ _ _ Hinv).
      assert (Horigin : 0 <= 0 < 2 ^ dim)
        by (split; [lia|apply Z.pow_pos_nonneg; lia]).
      destruct (end_vertex_in_path 0 seq) as [<-|Hin]; [lia|].
      pose proof (path_from_in_range dim seq (inv_range _ _ _ Hinv) 0 Horigin
                    _ Hin). lia. }
  assert (Hmarked : marked (SnakeNode.vertices_bitmap nd)
            (Z.lxor (end_vertex 0 seq) (Z.shiftl 1 d)) = true).
  { apply (inv_marks _ _ _ Hinv); [assumption|].
    exists (end_vertex 0 seq). split; [apply end_vertex_in_path|].
    right. exists d. split; [assumption|reflexivity]. }
  rewrite Hmarked. cbn [negb]. now rewrite andb_false_r.
Qed.

Lemma node_path_app seq d :
  node_path (seq ++ [d])
  = node_path seq ++ [Z.lxor (end_vertex 0 seq) (Z.shiftl 1 d)].
Proof. unfold node_path. rewrite path_from_app. reflexivity. Qed.

Lemma child_marks_superset seq dim p c d u :
  node_inv seq dim p -> node_inv (seq ++ [d]) dim c -> 0 <= u ->
  marked (SnakeNode.vertices_bitmap p) u = true ->
  marked (SnakeNode.vertices_bitmap c) u = true.
Proof.
  intros Hp Hc Hu Hm. apply (inv_marks _ _ _ Hc); [assumption|].
  apply (inv_marks _ _ _ Hp) in Hm; [|assumption].
  eapply covers_mono; [| |exact Hm].
  - apply incl_appl, incl_refl.
  - rewrite node_path_app. apply incl_appl, incl_refl.
Qed.

(** C5: extending a node [p] along a dimension it can extend in gives a
    child with one more transition and a fitness (unmarked-vertex count)
    that does not exceed the parent's. *)
Theorem create_child_monotone (seq : list Z) (dim : Z) (p : SnakeNode.t) (d : Z) :
  SnakeNode.new seq dim = Ok p ->
  SnakeNode.can_extend p d = Ok true ->
  exists c, SnakeNode.create_child p d = Ok c /\
    SnakeNode.get_length c = SnakeNode.get_length p + 1 /\
    SnakeNode.fitness c <= SnakeNode.fitness p.
Proof.
  intros Hnew Hext. apply node_new_inv in Hnew.
  destruct (create_child_ok _ _ _ _ Hnew Hext) as (c & Hc & Hcinv).
  exists c. split; [assumption|]. split.
  - unfold SnakeNode.get_length.
    rewrite (inv_sequence _ _ _ Hcinv), (inv_sequence _ _ _ Hnew).
    rewrite length_app. simpl. lia.
  - rewrite (inv_fitness _ _ _ Hcinv), (inv_fitness _ _ _ Hnew).
    apply count_if_mono. intros u Hu Hfree. apply in_zrange in Hu.
    apply negb_true_iff in Hfree. apply negb_true_iff.
    destruct (marked (SnakeNode.vertices_bitmap p) u) eqn:Hm; [|reflexivity].
    rewrite (child_marks_superset _ _ _ _ _ _ Hnew Hcinv) in Hfree;
      [discriminate|lia|assumption].
Qed.

Lemma create_child_monotone_witness :
  let p := {| SnakeNode.transition_sequence := [0; 1];
              SnakeNode.dimension := 3;
              SnakeNode.vertices_bitmap :=
                {| HypercubeBitmap.dimension := 3;
                   HypercubeBitmap.num_vertices := 8;
                   HypercubeBitmap.num_words := 1;
                   HypercubeBitmap.bitmap := [15] |};
              SnakeNode.fitness := 4 |} in
  exists c, SnakeNode.create_child p 2 = Ok c /\
    SnakeNode.get_length c = SnakeNode.get_length p + 1 /\
    SnakeNode.fitness c <= SnakeNode.fitness p.
Proof.
  intros p. apply (create_child_monotone [0; 1] 3 p 2); reflexivity.
Defined.

(** ** Every bitmap the class can produce is well formed *)

(** The bitmaps obtained from the constructor by the methods of the class. *)
Inductive bitmap_reachable : HypercubeBitmap.t -> Prop :=
| reach_new d b :
    HypercubeBitmap.new d = Ok b -> bitmap_reachable b
| reach_set_bit b v b' :
    bitmap_reachable b -> HypercubeBitmap.set_bit b v = Ok b' ->
    bitmap_reachable b'
| reach_clear_bit b v b' :
    bitmap_reachable b -> HypercubeBitmap.clear_bit b v = Ok b' ->
    bitmap_reachable b'
| reach_clear_all b b' :
    bitmap_reachable b -> HypercubeBitmap.clear_all b = Ok b' ->
    bitmap_reachable b'
| reach_copy b b' :
    bitmap_reachable b -> HypercubeBitmap.copy b = Ok b' ->
    bitmap_reachable b'.

Lemma wf_shrink b words :
  bitmap_wf b ->
  length words = length (HypercubeBitmap.bitmap b) ->
  (forall k w, words !! k = Some w -> 0 <= w < 2 ^ 64) ->
  (forall v, marked_in words v = true -> marked b v = true) ->
  bitmap_wf (HypercubeBitmap.with_bitmap b words).
Proof.
  intros Hwf Hlen Hwords Hsub. constructor; simpl; try apply Hwf.
  - rewrite Hlen. apply Hwf.
  - exact Hwords.
  - intros v Hv. change (marked_in words v = false).
    destruct (marked_in words v) eqn:Hm; [|reflexivity].
    apply Hsub in Hm. rewrite (wf_high _ Hwf v Hv) in Hm. discriminate.
Qed.

Lemma clear_bit_wf b v b' :
  bitmap_wf b -> HypercubeBitmap.clear_bit b v = Ok b' -> bitmap_wf b'.
Proof.
  intros Hwf. unfold HypercubeBitmap.clear_bit.
  destruct (Z.ltb_spec v 0); [discriminate|].
  destruct (Z.geb_spec v (HypercubeBitmap.num_vertices b)); [discriminate|].
  cbn [orb]. rewrite word_idx_eq, bit_idx_eq.
  assert (Hv : 0 <= v < HypercubeBitmap.num_vertices b) by lia.
  pose proof (wf_word_in_range b v Hwf Hv) as Hlt.
  assert (Hdiv : 0 <= v / 64) by (apply Z.div_pos; lia).
  assert (Hmod : 0 <= v mod 64 < 64) by (apply Z.mod_pos_bound; lia).
  destruct (array_get_lookup (HypercubeBitmap.bitmap b) (v / 64) Hdiv Hlt)
    as (w & Hw & ->). cbn [bind].
  pose proof (wf_words _ Hwf _ _ Hw) as Hwb.
  set (w' := Z.land w (Z.lnot (Z.shiftl 1 (v mod 64)))).
  assert (Hnonneg : 0 <= w') by (apply Z.land_nonneg; left; lia).
  assert (Hnew : 0 <= w' < 2 ^ 64).
  { split; [assumption|]. apply word_upper_bound; [assumption|].
    intros i Hi. unfold w'. rewrite Z.land_spec, (word_high_bits w i) by assumption.
    reflexivity. }
  rewrite array_set_insert by assumption. cbn [bind]. intros [= <-].
  apply wf_shrink; [assumption|apply length_insert| |].
  - intros k w0 Hk. destruct (Nat.eq_dec k (Z.to_nat (v / 64))) as [->|Hne].
    + rewrite list_lookup_insert_eq in Hk by assumption. congruence.
    + rewrite list_lookup_insert_ne in Hk by auto. eapply wf_words; eauto.
  - intros u. unfold marked_in, marked.
    destruct (Nat.eq_dec (Z.to_nat (u / 64)) (Z.to_nat (v / 64))) as [Heq|Hne].
    + rewrite Heq, list_lookup_insert_eq, Hw by assumption.
      unfold w'. rewrite Z.land_spec. intros H'.
      apply andb_true_iff in H' as [H' _]. exact H'.
    + rewrite list_lookup_insert_ne by auto. auto.
Qed.

Lemma clear_all_loop l :
  forall words,
    (forall i, In i l -> 0 <= i < Z.of_nat (length words)) ->
    exists words',
      for_each l (fun i words => array_set words i 0) words = Ok words' /\
      length words' = length words /\
      (forall k w, words' !! k = Some w -> w = 0 \/ words !! k = Some w).
Proof.
  induction l as [|i l IH]; intros words Hl; cbn [for_each].
  - exists words. auto.
  - assert (Hi : 0 <= i < Z.of_nat (length words)) by (apply Hl; left; reflexivity).
    rewrite array_set_insert by lia. cbn [bind].
    destruct (IH (<[Z.to_nat i := 0]> words)) as (words' & -> & Hlen & Hw).
    { intros j Hj. rewrite length_insert. apply Hl. right. exact Hj. }
    exists words'. split; [reflexivity|]. split.
    + rewrite Hlen. apply length_insert.
    + intros k w Hk. destruct (Hw k w Hk) as [->|Hk']; [left; reflexivity|].
      destruct (Nat.eq_dec k (Z.to_nat i)) as [->|Hne].
      * rewrite list_lookup_insert_eq in Hk' by lia. left. congruence.
      * rewrite list_lookup_insert_ne in Hk' by auto. right. exact Hk'.
Qed.

Lemma clear_all_wf b b' :
  bitmap_wf b -> HypercubeBitmap.clear_all b = Ok b' -> bitmap_wf b'.
Proof.
  intros Hwf. unfold HypercubeBitmap.clear_all.
  destruct (clear_all_loop (zrange (HypercubeBitmap.num_words b))
              (HypercubeBitmap.bitmap b)) as (words' & -> & Hlen & Hw).
  { intros i Hi. apply in_zrange in Hi. rewrite (wf_length _ Hwf). exact Hi. }
  cbn [bind]. intros [= <-]. apply wf_shrink; [assumption|assumption| |].
  - intros k w Hk. destruct (Hw k w Hk) as [->|Hk']; [split; [lia|reflexivity]|].
    eapply wf_words; eauto.
  - intros v. unfold marked_in, marked.
    destruct (words' !! Z.to_nat (v / 64)) as [w|] eqn:Hk; [|discriminate].
    destruct (Hw _ _ Hk) as [->|Hk']; [rewrite Z.bits_0; discriminate|].
    rewrite Hk'. auto.
Qed.

Lemma copy_wf b b' :
  bitmap_wf b -> HypercubeBitmap.copy b = Ok b' -> bitmap_wf b'.
Proof.
  intros Hwf. unfold HypercubeBitmap.copy.
  destruct (new_bitmap_spec _ (wf_dimension _ Hwf)) as (b0 & Hnew & Hwf0 & Hdim0 & _).
  rewrite Hnew. cbn [bind]. intros [= <-].
  assert (Hnv : HypercubeBitmap.num_vertices b0 = HypercubeBitmap.num_vertices b)
    by (rewrite (wf_num_vertices _ Hwf0), (wf_num_vertices _ Hwf), Hdim0;
        reflexivity).
  constructor; simpl.
  - apply Hwf0.
  - apply Hwf0.
  - apply Hwf0.
  - rewrite (wf_num_words _ Hwf0), Hnv, <- (wf_num_words _ Hwf). apply Hwf.
  - apply Hwf.
  - intros v Hv. rewrite Hnv in Hv. apply (wf_high _ Hwf v Hv).
Qed.

Lemma bitmap_reachable_wf b : bitmap_reachable b -> bitmap_wf b.
Proof.
  induction 1 as [d b Hnew|b v b' _ IH Hset|b v b' _ IH Hclr|b b' _ IH Hclr
                 |b b' _ IH Hcopy].
  - assert (Hd : 1 <= d).
    { unfold HypercubeBitmap.new in Hnew.
      destruct (Z.ltb_spec d 1); [discriminate|assumption]. }
    destruct (new_bitmap_spec d Hd) as (b0 & Hnew0 & Hwf & _). congruence.
  - assert (Hv : 0 <= v < HypercubeBitmap.num_vertices b).
    { unfold HypercubeBitmap.set_bit in Hset.
      destruct (Z.ltb_spec v 0); [discriminate|].
      destruct (Z.geb_spec v (HypercubeBitmap.num_vertices b)); [discriminate|lia]. }
    destruct (set_bit_spec b v IH Hv) as (b0 & Hset0 & Hwf & _). congruence.
  - eapply clear_bit_wf; eauto.
  - eapply clear_all_wf; eauto.
  - eapply copy_wf; eauto.
Qed.

(** The number of set bits among the 64 bits of each word, summed. *)
Definition set_bits (words : list Z) : Z :=
  fold_right (fun w acc => count_if (Z.testbit w) (zrange 64) + acc) 0 words.

Lemma sum_popcount_set_bits words :
  (forall k w, words !! k = Some w -> 0 <= w < 2 ^ 64) ->
  forall acc, sum_popcount words acc = acc + set_bits words.
Proof.
  induction words as [|w words IH]; intros Hwords acc; [simpl; lia|].
  change (sum_popcount (w :: words) acc)
    with (sum_popcount words (acc + popcount w)).
  change (set_bits (w :: words))
    with (count_if (Z.testbit w) (zrange_nat 64) + set_bits words).
  rewrite IH by (intros k w' Hk; apply (Hwords (S k) w'); exact Hk).
  rewrite (popcount_bits w 64) by (apply (Hwords 0%nat w); reflexivity).
  lia.
Qed.

(** C9: on every bitmap the class can produce, the per-bit count and the
    popcount-based count agree; the value is [2^n] minus the number of set
    bits over all words, which is the number of zero bits among the [2^n]
    vertex bits; and the fitness of a node is this count on its bitmap. *)
Theorem count_unmarked_agree (b : HypercubeBitmap.t) :
  bitmap_reachable b ->
  HypercubeBitmap.count_unmarked b = Ok (HypercubeBitmap.count_unmarked_fast b)
  /\
  HypercubeBitmap.count_unmarked_fast b
  = 2 ^ HypercubeBitmap.dimension b - set_bits (HypercubeBitmap.bitmap b)
  /\
  HypercubeBitmap.count_unmarked_fast b
  = count_if (fun v => negb (marked b v)) (zrange (2 ^ HypercubeBitmap.dimension b))
  /\
  (forall seq dim nd, SnakeNode.new seq dim = Ok nd ->
     HypercubeBitmap.count_unmarked (SnakeNode.vertices_bitmap nd)
     = Ok (SnakeNode.fitness nd) /\
     HypercubeBitmap.count_unmarked_fast (SnakeNode.vertices_bitmap nd)
     = SnakeNode.fitness nd).
Proof.
  intros Hreach. apply bitmap_reachable_wf in Hreach as Hwf.
  split; [|split; [|split]].
  - rewrite count_unmarked_spec, count_unmarked_fast_spec by assumption.
    reflexivity.
  - unfold HypercubeBitmap.count_unmarked_fast.
    fold (sum_popcount (HypercubeBitmap.bitmap b) 0).
    rewrite sum_popcount_set_bits by apply Hwf.
    rewrite (wf_num_vertices _ Hwf). lia.
  - rewrite count_unmarked_fast_spec by assumption.
    rewrite (wf_num_vertices _ Hwf). reflexivity.
  - intros seq dim nd Hnd. apply node_new_inv in Hnd.
    pose proof (inv_wf _ _ _ Hnd) as Hnwf.
    rewrite count_unmarked_spec, count_unmarked_fast_spec by assumption.
    rewrite (inv_fitness _ _ _ Hnd), (wf_num_vertices _ Hnwf),
      (inv_bitmap_dimension _ _ _ Hnd). auto.
Qed.

Lemma count_unmarked_agree_witness :
  HypercubeBitmap.count_unmarked
    {| HypercubeBitmap.dimension := 3; HypercubeBitmap.num_vertices := 8;
       HypercubeBitmap.num_words := 1; HypercubeBitmap.bitmap := [1] |}
  = Ok 7.
Proof.
  refine (proj1 (count_unmarked_agree _ _)).
  apply (reach_set_bit
           {| HypercubeBitmap.dimension := 3; HypercubeBitmap.num_vertices := 8;
              HypercubeBitmap.num_words := 1; HypercubeBitmap.bitmap := [0] |} 0).
  - apply (reach_new 3). reflexivity.
  - reflexivity.
Defined.

(** ** Flood fill over the free subgraph *)

(** A free vertex of a node: in the cube and unmarked. *)
Definition free (nd : SnakeNode.t) (v : Z) : Prop :=
  0 <= v < 2 ^ SnakeNode.dimension nd /\
  marked (SnakeNode.vertices_bitmap nd) v = false.

(** An edge of the free subgraph: a hypercube edge between two free
    vertices. *)
Definition free_edge (nd : SnakeNode.t) (u w : Z) : Prop :=
  free nd u /\ free nd w /\
  exists d, 0 <= d < SnakeNode.dimension nd /\ w = Z.lxor u (Z.shiftl 1 d).

(** Reachability inside the free subgraph. *)
Definition free_reachable (nd : SnakeNode.t) (s v : Z) : Prop :=
  rtc (free_edge nd) s v.

(** The vertices the specification and the docstring of
    [count_unreachable_vertices] call reachable from the current vertex
    ("all reachable unmarked vertices from the current snake position"):
    those to which a path of hypercube edges leads from the current vertex
    through free vertices only.  The current vertex carries the head of
    the snake and is itself marked; the path leaves it by one of its free
    neighbours. *)
Definition reachable_from_current (nd : SnakeNode.t) (current v : Z) : Prop :=
  exists d, 0 <= d < SnakeNode.dimension nd /\
    free nd (Z.lxor current (Z.shiftl 1 d)) /\
    free_reachable nd (Z.lxor current (Z.shiftl 1 d)) v.

Lemma is_marked_ok seq dim nd v :
  node_inv seq dim nd -> 0 <= v < 2 ^ dim ->
  SnakeNode._is_marked nd v = Ok (marked (SnakeNode.vertices_bitmap nd) v).
Proof.
  intros Hinv Hv. unfold SnakeNode._is_marked. apply get_bit_marked.
  - apply (inv_wf _ _ _ Hinv).
  - rewrite (wf_num_vertices _ (inv_wf _ _ _ Hinv)),
      (inv_bitmap_dimension _ _ _ Hinv). exact Hv.
Qed.

Lemma enqueue_neighbors_spec vertex (visited : gset Z) dims :
  forall queue,
    let queue' :=
      fold_left (AdvancedFitnessEvaluator._enqueue_neighbor vertex visited)
        dims queue in
    (forall q, In q queue -> In q queue') /\
    (forall q, In q queue' ->
       In q queue \/ exists d, In d dims /\ q = Z.lxor vertex (Z.shiftl 1 d)) /\
    (forall d, In d dims ->
       Z.lxor vertex (Z.shiftl 1 d) ∈ visited \/
       In (Z.lxor vertex (Z.shiftl 1 d)) queue') /\
    (length queue' <= length queue + length dims)%nat.
Proof.
  induction dims as [|d dims IH]; intros queue; cbn [fold_left].
  - cbn zeta. split; [auto|]. split; [auto|]. split; [intros d []|simpl; lia].
  - set (queue1 := AdvancedFitnessEvaluator._enqueue_neighbor vertex visited queue d).
    destruct (IH queue1) as (Hkeep & Hfrom & Hall & Hlen). cbn zeta in *.
    assert (H1keep : forall q, In q queue -> In q queue1).
    { intros q Hq. unfold queue1, AdvancedFitnessEvaluator._enqueue_neighbor.
      destruct (decide _); [assumption|]. apply in_or_app. left. exact Hq. }
    assert (H1from : forall q, In q queue1 ->
              In q queue \/ q = Z.lxor vertex (Z.shiftl 1 d)).
    { intros q. unfold queue1, AdvancedFitnessEvaluator._enqueue_neighbor.
      destruct (decide _); [auto|]. intros Hq. apply in_app_or in Hq.
      destruct Hq as [Hq|[<-|[]]]; auto. }
    assert (H1new : Z.lxor vertex (Z.shiftl 1 d) ∈ visited \/
                    In (Z.lxor vertex (Z.shiftl 1 d)) queue1).
    { unfold queue1, AdvancedFitnessEvaluator._enqueue_neighbor.
      destruct (decide _); [left; assumption|].
      right. apply in_or_app. right. left. reflexivity. }
    assert (H1len : (length queue1 <= S (length queue))%nat).
    { unfold queue1, AdvancedFitnessEvaluator._enqueue_neighbor.
      destruct (decide _); [lia|]. rewrite length_app. simpl. lia. }
    split; [auto|]. split; [|split].
    + intros q Hq. destruct (Hfrom q Hq) as [Hq1|(d' & Hd' & ->)].
      * destruct (H1from q Hq1) as [Hq0| ->]; [auto|].
        right. exists d. split; [left; reflexivity|reflexivity].
      * right. exists d'. split; [right; exact Hd'|reflexivity].
    + intros d' [<-|Hd'].
      * destruct H1new as [Hv|Hv]; [left; exact Hv|right; apply Hkeep, Hv].
      * apply Hall, Hd'.
    + simpl. lia.
Qed.

Lemma size_in_range (X : gset Z) (N : Z) :
  (forall v, v ∈ X -> 0 <= v < N) -> Z.of_nat (size X) <= Z.max 0 N.
Proof.
  intros HX.
  assert (Hsub : X ⊆ list_to_set (seqZ 0 N)).
  { intros v Hv. apply elem_of_list_to_set, elem_of_seqZ. specialize (HX v Hv). lia. }
  apply subseteq_size in Hsub.
  rewrite size_list_to_set, length_seqZ in Hsub by apply NoDup_seqZ. lia.
Qed.

(** The invariant of the [while queue:] loop, for the start vertex [s]. *)
Record fill_inv (nd : SnakeNode.t) (s : Z) (visited : gset Z) (queue : list Z)
  : Prop := {
  fi_sound :
    forall v, v ∈ visited -> free nd v /\ free_reachable nd s v;
  fi_queue :
    forall q, In q queue ->
      0 <= q < 2 ^ SnakeNode.dimension nd /\
      (q = s \/ exists u d, u ∈ visited /\ 0 <= d < SnakeNode.dimension nd /\
                            q = Z.lxor u (Z.shiftl 1 d));
  fi_closed :
    forall u d, u ∈ visited -> 0 <= d < SnakeNode.dimension nd ->
      Z.lxor u (Z.shiftl 1 d) ∈ visited \/
      In (Z.lxor u (Z.shiftl 1 d)) queue \/
      marked (SnakeNode.vertices_bitmap nd) (Z.lxor u (Z.shiftl 1 d)) = true;
  fi_start :
    s ∈ visited \/ In s queue \/ marked (SnakeNode.vertices_bitmap nd) s = true
}.

(** The loop's variant: pending queue entries plus [dimension] entries for
    every vertex not visited yet. *)
Definition fill_measure (dim : Z) (visited : gset Z) (queue : list Z) : Z :=
  Z.of_nat (length queue) + dim * (2 ^ dim - Z.of_nat (size visited)).

Lemma fill_inv_drop nd s visited vertex queue :
  fill_inv nd s visited (vertex :: queue) ->
  vertex ∈ visited \/ marked (SnakeNode.vertices_bitmap nd) vertex = true ->
  fill_inv nd s visited queue.
Proof.
  intros Hinv Hdrop. constructor.
  - apply (fi_sound _ _ _ _ Hinv).
  - intros q Hq. apply (fi_queue _ _ _ _ Hinv). right. exact Hq.
  - intros u d Hu Hd.
    destruct (fi_closed _ _ _ _ Hinv u d Hu Hd) as [H'|[[<-|H']|H']]; auto.
    destruct Hdrop; auto.
  - destruct (fi_start _ _ _ _ Hinv) as [H'|[[<-|H']|H']]; auto.
    destruct Hdrop; auto.
Qed.

Lemma fill_inv_visit seq dim nd s visited vertex queue :
  node_inv seq dim nd ->
  fill_inv nd s visited (vertex :: queue) ->
  vertex ∉ visited ->
  marked (SnakeNode.vertices_bitmap nd) vertex = false ->
  fill_inv nd s (visited ∪ {[vertex]})
    (fold_left
       (AdvancedFitnessEvaluator._enqueue_neighbor vertex (visited ∪ {[vertex]}))
       (zrange dim) queue).
Proof.
  intros Hnode Hinv Hfresh Hfree.
  pose proof (inv_dimension _ _ _ Hnode) as Hdim.
  destruct (enqueue_neighbors_spec vertex (visited ∪ {[vertex]}) (zrange dim) queue)
    as (Hkeep & Hfrom & Hall & _). cbn zeta in *.
  destruct (fi_queue _ _ _ _ Hinv vertex (or_introl eq_refl)) as [Hrange Horigin].
  assert (Hvfree : free nd vertex) by (split; assumption).
  assert (Hvreach : free_reachable nd s vertex).
  { destruct Horigin as [->|(u & d & Hu & Hd & Hq)]; [apply rtc_refl|].
    destruct (fi_sound _ _ _ _ Hinv u Hu) as [Hufree Hureach].
    eapply rtc_r; [exact Hureach|]. split; [assumption|]. split; [assumption|].
    exists d. auto. }
  constructor.
  - intros v Hv. apply elem_of_union in Hv as [Hv|Hv].
    + apply (fi_sound _ _ _ _ Hinv v Hv).
    + apply elem_of_singleton in Hv. subst v. auto.
  - intros q Hq. destruct (Hfrom q Hq) as [Hq0|(d & Hd & ->)].
    + destruct (fi_queue _ _ _ _ Hinv q (or_intror Hq0)) as [Hqr Hqo].
      split; [assumption|]. destruct Hqo as [->|(u & d & Hu & Hd & ->)]; [auto|].
      right. exists u, d. split; [apply elem_of_union; auto|auto].
    + apply in_zrange in Hd. rewrite Hdim in *. split.
      * apply flip_in_range; assumption.
      * right. exists vertex, d.
        split; [apply elem_of_union; right; apply elem_of_singleton; reflexivity|].
        auto.
  - intros u d Hu Hd. apply elem_of_union in Hu as [Hu|Hu].
    + destruct (fi_closed _ _ _ _ Hinv u d Hu Hd) as [H'|[[<-|H']|H']].
      * left. apply elem_of_union. auto.
      * left. apply elem_of_union. right. apply elem_of_singleton. reflexivity.
      * right. left. apply Hkeep, H'.
      * right. right. exact H'.
    + apply elem_of_singleton in Hu. subst u.
      rewrite Hdim in Hd. apply in_zrange in Hd.
      destruct (Hall d Hd) as [H'|H']; auto.
  - destruct (fi_start _ _ _ _ Hinv) as [H'|[[<-|H']|H']].
    + left. apply elem_of_union. auto.
    + left. apply elem_of_union. right. apply elem_of_singleton. reflexivity.
    + right. left. apply Hkeep, H'.
    + right. right. exact H'.
Qed.

Lemma fill_measure_nonneg nd s dim visited queue :
  1 <= dim -> SnakeNode.dimension nd = dim ->
  fill_inv nd s visited queue -> 0 <= fill_measure dim visited queue.
Proof.
  intros Hdim Hnd Hinv. unfold fill_measure.
  assert (Hsize : Z.of_nat (size visited) <= Z.max 0 (2 ^ dim)).
  { apply size_in_range. intros v Hv.
    destruct (fi_sound _ _ _ _ Hinv v Hv) as [[Hr _] _]. rewrite Hnd in Hr. exact Hr. }
  assert (0 < 2 ^ dim) by (apply Z.pow_pos_nonneg; lia).
  assert (0 <= dim * (2 ^ dim - Z.of_nat (size visited)))
    by (apply Z.mul_nonneg_nonneg; lia).
  lia.
Qed.

Lemma flood_fill_loop_terminates seq dim nd s :
  node_inv seq dim nd ->
  forall fuel visited queue,
    fill_inv nd s visited queue ->
    fill_measure dim visited queue < Z.of_nat fuel ->
    exists reachable,
      AdvancedFitnessEvaluator._flood_fill_loop fuel
        (AdvancedFitnessEvaluator.new nd) visited queue = Some (Ok reachable) /\
      fill_inv nd s reachable [].
Proof.
  intros Hnode. pose proof (inv_dim _ _ _ Hnode) as Hdim.
  pose proof (inv_dimension _ _ _ Hnode) as Hnd.
  induction fuel as [|fuel IH]; intros visited queue Hinv Hfuel.
  - pose proof (fill_measure_nonneg _ _ _ _ _ Hdim Hnd Hinv). lia.
  - cbn [AdvancedFitnessEvaluator._flood_fill_loop].
    destruct queue as [|vertex queue]; [exists visited; auto|].
    assert (Hstep : fill_measure dim visited queue
                    = fill_measure dim visited (vertex :: queue) - 1).
    { unfold fill_measure. simpl length. lia. }
    destruct (decide (vertex ∈ visited)) as [Hin|Hnotin].
    { apply IH; [eapply fill_inv_drop; eauto|lia]. }
    destruct (fi_queue _ _ _ _ Hinv vertex (or_introl eq_refl)) as [Hrange _].
    rewrite Hnd in Hrange. cbn [AdvancedFitnessEvaluator.node AdvancedFitnessEvaluator.new].
    rewrite (is_marked_ok _ _ _ _ Hnode Hrange).
    destruct (marked (SnakeNode.vertices_bitmap nd) vertex) eqn:Hm.
    { apply IH; [eapply fill_inv_drop; eauto|lia]. }
    change (AdvancedFitnessEvaluator.dimension (AdvancedFitnessEvaluator.new nd))
      with (SnakeNode.dimension nd). rewrite Hnd.
    pose proof (fill_inv_visit _ _ _ _ _ _ _ Hnode Hinv Hnotin Hm) as Hinv'.
    apply IH; [exact Hinv'|].
    destruct (enqueue_neighbors_spec vertex (visited ∪ {[vertex]}) (zrange dim) queue)
      as (_ & _ & _ & Hlen). cbn zeta in Hlen.
    unfold fill_measure in *.
    rewrite size_union, size_singleton
      by (apply disjoint_singleton_r; exact Hnotin).
    assert (Hzlen : Z.of_nat (length (zrange dim)) = dim)
      by (apply zrange_length; lia).
    simpl length in Hfuel.
    assert (Hsize : Z.of_nat (size (visited ∪ {[vertex]})) <= Z.max 0 (2 ^ dim)).
    { apply size_in_range. intros v Hv.
      destruct (fi_sound _ _ _ _ Hinv' v Hv) as [[Hr _] _].
      rewrite Hnd in Hr. exact Hr. }
    rewrite size_union, size_singleton in Hsize
      by (apply disjoint_singleton_r; exact Hnotin).
    lia.
Qed.

Lemma fill_inv_final nd s reachable :
  fill_inv nd s reachable [] ->
  forall v, v ∈ reachable <-> free nd v /\ free_reachable nd s v.
Proof.
  intros Hinv v. split; [apply (fi_sound _ _ _ _ Hinv)|].
  intros [Hfree Hreach]. revert Hfree. unfold free_reachable in Hreach.
  pattern v. revert v Hreach. apply rtc_ind_r.
  - intros Hfree.
    destruct (fi_start _ _ _ _ Hinv) as [H'|[[]|H']]; [assumption|].
    destruct Hfree as [_ Hfree]. congruence.
  - intros u w _ (Hufree & Hwfree & d & Hd & ->) IH Hfree.
    specialize (IH Hufree).
    destruct (fi_closed _ _ _ _ Hinv u d IH Hd) as [H'|[[]|H']]; [assumption|].
    destruct Hfree as [_ Hfree]. congruence.
Qed.

Lemma flood_fill_reachable_spec seq dim nd s :
  node_inv seq dim nd -> 0 <= s < 2 ^ dim ->
  exists reachable : gset Z,
    (forall fuel, dim * 2 ^ dim + 1 < Z.of_nat fuel ->
       AdvancedFitnessEvaluator._flood_fill_reachable fuel
         (AdvancedFitnessEvaluator.new nd) s = Some (Ok reachable)) /\
    (forall v, v ∈ reachable <-> free nd v /\ free_reachable nd s v).
Proof.
  intros Hnode Hs. pose proof (inv_dimension _ _ _ Hnode) as Hnd.
  pose proof (inv_dim _ _ _ Hnode) as Hdim.
  assert (Hinit : fill_inv nd s ∅ [s]).
  { constructor.
    - intros v Hv. apply not_elem_of_empty in Hv. contradiction.
    - intros q [<-|[]]. rewrite Hnd. auto.
    - intros u d Hu. apply not_elem_of_empty in Hu. contradiction.
    - right. left. left. reflexivity. }
  assert (Hmeasure : fill_measure dim ∅ [s] = dim * 2 ^ dim + 1).
  { unfold fill_measure. rewrite size_empty. cbn [length].
    change (Z.of_nat 0) with 0. rewrite Z.sub_0_r. apply Z.add_comm. }
  destruct (flood_fill_loop_terminates _ _ _ s Hnode
              (S (Z.to_nat (dim * 2 ^ dim + 1))) ∅ [s] Hinit)
    as (reachable & Hrun & Hfinal).
  { rewrite Hmeasure.
    assert (0 <= dim * 2 ^ dim)
      by (apply Z.mul_nonneg_nonneg; [|apply Z.pow_nonneg]; lia).
    lia. }
  exists reachable. split; [|apply fill_inv_final; exact Hfinal].
  intros fuel Hfuel.
  destruct (flood_fill_loop_terminates _ _ _ s Hnode fuel ∅ [s] Hinit)
    as (reachable' & Hrun' & Hfinal'); [rewrite Hmeasure; exact Hfuel|].
  unfold AdvancedFitnessEvaluator._flood_fill_reachable. rewrite Hrun'.
  do 2 f_equal. apply set_eq. intros v.
  rewrite (fill_inv_final _ _ _ Hfinal), (fill_inv_final _ _ _ Hfinal').
  reflexivity.
Qed.

(** *** Counting the unreachable free vertices *)

Lemma count_if_filter_length f l :
  count_if f l = Z.of_nat (length (List.filter f l)).
Proof.
  induction l as [|x l IH]; [reflexivity|].
  cbn [count_if List.filter]. destruct (f x); cbn [length Z.b2z]; lia.
Qed.

Lemma zrange_NoDup n : List.NoDup (zrange n).
Proof.
  unfold zrange. apply Finite.Injective_map_NoDup; [|apply seq_NoDup].
  intros a b. apply Nat2Z.inj.
Qed.

(** The set of free vertices of a node. *)
Definition free_set (nd : SnakeNode.t) : gset Z :=
  list_to_set
    (List.filter (fun v => negb (marked (SnakeNode.vertices_bitmap nd) v))
       (zrange (2 ^ SnakeNode.dimension nd))).

Lemma elem_of_free_set nd v : v ∈ free_set nd <-> free nd v.
Proof.
  unfold free_set, free.
  rewrite elem_of_list_to_set, list_elem_of_In, filter_In, in_zrange, negb_true_iff.
  reflexivity.
Qed.

Lemma size_free_set seq dim nd :
  node_inv seq dim nd -> Z.of_nat (size (free_set nd)) = SnakeNode.fitness nd.
Proof.
  intros Hinv. unfold free_set.
  rewrite size_list_to_set
    by (apply NoDup_ListNoDup, List.NoDup_filter, zrange_NoDup).
  rewrite (inv_fitness _ _ _ Hinv), (inv_dimension _ _ _ Hinv).
  symmetry. apply count_if_filter_length.
Qed.

Lemma current_vertex_ok seq dim nd :
  node_inv seq dim nd ->
  SnakeNode.get_current_vertex nd = Ok (end_vertex 0 seq) /\
  0 <= end_vertex 0 seq < 2 ^ dim /\
  marked (SnakeNode.vertices_bitmap nd) (end_vertex 0 seq) = true.
Proof.
  intros Hinv. pose proof (inv_dim _ _ _ Hinv) as Hdim.
  assert (Horigin : 0 <= 0 < 2 ^ dim)
    by (split; [lia|apply Z.pow_pos_nonneg; lia]).
  assert (Hrange : 0 <= end_vertex 0 seq < 2 ^ dim).
  { destruct (end_vertex_in_path 0 seq) as [<-|Hin]; [assumption|].
    eapply path_from_in_range;
      [apply (inv_range _ _ _ Hinv)|exact Horigin|exact Hin]. }
  split; [|split; [assumption|]].
  - unfold SnakeNode.get_current_vertex. rewrite (inv_sequence _ _ _ Hinv).
    apply (compute_current_vertex_ok dim), (inv_range _ _ _ Hinv).
  - apply (inv_marks _ _ _ Hinv); [lia|].
    exists (end_vertex 0 seq). split; [apply end_vertex_in_path|left; reflexivity].
Qed.

(** The current vertex of a node is always marked, so it is not a vertex
    of the free subgraph: nothing is reachable from it there, and the
    count is the node's fitness. *)
Lemma count_unreachable_is_fitness (seq : list Z) (dim : Z) (nd : SnakeNode.t) :
  SnakeNode.new seq dim = Ok nd ->
  forall fuel, dim * 2 ^ dim + 1 < Z.of_nat fuel ->
    AdvancedFitnessEvaluator.count_unreachable_vertices fuel
      (AdvancedFitnessEvaluator.new nd)
    = Some (Ok (SnakeNode.fitness nd)).
Proof.
  intros Hnew fuel Hfuel. apply node_new_inv in Hnew as Hinv.
  destruct (current_vertex_ok _ _ _ Hinv) as (Hcur & Hrange & Hmarked).
  destruct (flood_fill_reachable_spec _ _ _ _ Hinv Hrange)
    as (reachable & Hrun & Hreach).
  assert (Hempty : reachable = ∅).
  { apply set_eq. intros v. rewrite Hreach. split.
    - intros [[_ Hfree] Hpath]. exfalso.
      apply rtc_inv in Hpath as [<-|(w & [[_ Hsfree] _] & _)]; congruence.
    - intros Hv. apply not_elem_of_empty in Hv. contradiction. }
  unfold AdvancedFitnessEvaluator.count_unreachable_vertices.
  change (SnakeNode.transition_sequence
            (AdvancedFitnessEvaluator.node (AdvancedFitnessEvaluator.new nd)))
    with (SnakeNode.transition_sequence nd).
  unfold SnakeNode.get_current_vertex in Hcur. rewrite Hcur.
  rewrite (Hrun fuel Hfuel), Hempty, size_empty. do 2 f_equal.
  unfold AdvancedFitnessEvaluator.count_unmarked_vertices.
  change (AdvancedFitnessEvaluator.node (AdvancedFitnessEvaluator.new nd)) with nd.
  change (Z.of_nat 0) with 0. lia.
Qed.

Lemma free_reachable_free nd s v :
  free nd s -> free_reachable nd s v -> free nd v.
Proof.
  intros Hs Hpath. revert Hs. unfold free_reachable in Hpath.
  induction Hpath as [|s w v (_ & Hw & _) _ IH]; auto.
Qed.

Lemma free_reachable_start nd s v :
  free nd v -> free_reachable nd s v -> free nd s.
Proof.
  intros Hv Hpath. apply rtc_inv in Hpath as [<-|(w & (Hs & _) & _)]; assumption.
Qed.

(** The free vertices reachable through the neighbours of [current] along
    the dimensions [dims] form a finite set: the union of the flood fills
    started on these neighbours. *)
Lemma reachable_through seq dim nd current :
  node_inv seq dim nd -> 0 <= current < 2 ^ dim ->
  forall dims, Forall (in_range dim) dims ->
  exists reachable : gset Z,
    forall u, u ∈ reachable <->
      exists d, In d dims /\ free nd (Z.lxor current (Z.shiftl 1 d)) /\
                free_reachable nd (Z.lxor current (Z.shiftl 1 d)) u.
Proof.
  intros Hinv Hcur. induction dims as [|d dims IH]; intros Hdims.
  - exists ∅. intros u. split.
    + intros Hu. apply not_elem_of_empty in Hu. contradiction.
    + intros (d & [] & _).
  - apply Forall_cons in Hdims as [Hd Hdims].
    destruct (IH Hdims) as (rest & Hrest).
    destruct (flood_fill_reachable_spec seq dim nd
                (Z.lxor current (Z.shiftl 1 d)) Hinv)
      as (here & _ & Hhere); [apply flip_in_range; assumption|].
    exists (here ∪ rest). intros u. rewrite elem_of_union, Hhere, Hrest. split.
    + intros [[Hu Hpath]|(d' & Hd' & Hfree & Hpath)].
      * exists d. split; [left; reflexivity|]. split; [|exact Hpath].
        eapply free_reachable_start; eauto.
      * exists d'. split; [right; exact Hd'|]. split; assumption.
    + intros (d' & [<-|Hd'] & Hfree & Hpath).
      * left. split; [|exact Hpath]. eapply free_reachable_free; eauto.
      * right. exists d'. split; [exact Hd'|]. split; assumption.
Qed.

(** C1 (the code departs from the specification): the flood fill of
    [count_unreachable_vertices] starts on the node's current vertex,
    which is marked, and skips it at once, so it visits nothing and every
    free vertex is counted as unreachable: the result is the node's
    fitness.  Whenever some free vertex [v] can be reached from the
    current vertex through free vertices, the set of the free vertices
    that cannot is smaller than the count the code returns. *)
Theorem count_unreachable_vertices_overcounts
  (seq : list Z) (dim : Z) (nd : SnakeNode.t) (current v : Z) :
  SnakeNode.new seq dim = Ok nd ->
  SnakeNode.get_current_vertex nd = Ok current ->
  reachable_from_current nd current v ->
  exists unreachable : gset Z,
    (forall u, u ∈ unreachable <->
       free nd u /\ ~ reachable_from_current nd current u) /\
    Z.of_nat (size unreachable) < SnakeNode.fitness nd /\
    forall fuel, dim * 2 ^ dim + 1 < Z.of_nat fuel ->
      AdvancedFitnessEvaluator.count_unreachable_vertices fuel
        (AdvancedFitnessEvaluator.new nd)
      = Some (Ok (SnakeNode.fitness nd)).
Proof.
  intros Hnew Hcurrent Hv. apply node_new_inv in Hnew as Hinv.
  destruct (current_vertex_ok _ _ _ Hinv) as (Hcur & Hrange & _).
  rewrite Hcur in Hcurrent. injection Hcurrent as <-.
  pose proof (inv_dimension _ _ _ Hinv) as Hnd.
  destruct (reachable_through seq dim nd (end_vertex 0 seq) Hinv Hrange (zrange dim))
    as (reachable & Hreach).
  { apply List.Forall_forall. intros d Hd. apply in_zrange in Hd. exact Hd. }
  assert (Hiff : forall u, u ∈ reachable <->
                   reachable_from_current nd (end_vertex 0 seq) u).
  { intros u. rewrite Hreach. unfold reachable_from_current. rewrite Hnd.
    split; intros (d & Hd & H'); exists d; (split; [|exact H']).
    - apply in_zrange, Hd.
    - apply in_zrange, Hd. }
  assert (Hsub : reachable ⊆ free_set nd).
  { intros u Hu. apply elem_of_free_set.
    apply Hiff in Hu as (d & _ & Hfree & Hpath).
    eapply free_reachable_free; eauto. }
  exists (free_set nd ∖ reachable). split; [|split].
  - intros u. rewrite elem_of_difference, elem_of_free_set, Hiff. reflexivity.
  - rewrite <- (size_free_set _ _ _ Hinv), (size_difference _ _ Hsub).
    pose proof (subseteq_size _ _ Hsub) as Hle.
    assert (Hpos : size reachable <> 0%nat).
    { intros Hzero. apply size_empty_inv in Hzero.
      apply Hiff in Hv. apply Hzero in Hv. apply not_elem_of_empty in Hv. exact Hv. }
    lia.
  - apply (count_unreachable_is_fitness seq dim nd). exact Hnew.
Qed.

(** The node [SnakeNode([0, 1], 3)]: the snake 0, 1, 3 with its head on
    vertex 3; the vertices 0 to 3 are marked and 4 to 7 are free. *)
Definition snake_01 : SnakeNode.t :=
  {| SnakeNode.transition_sequence := [0; 1];
     SnakeNode.dimension := 3;
     SnakeNode.vertices_bitmap :=
       {| HypercubeBitmap.dimension := 3;
          HypercubeBitmap.num_vertices := 8;
          HypercubeBitmap.num_words := 1;
          HypercubeBitmap.bitmap := [15] |};
     SnakeNode.fitness := 4 |}.

Lemma snake_01_free v : free snake_01 v <-> 4 <= v < 8.
Proof.
  unfold free. change (2 ^ SnakeNode.dimension snake_01) with 8. split.
  - intros [Hv Hm].
    assert (Hcases : v = 0 \/ v = 1 \/ v = 2 \/ v = 3 \/ 4 <= v < 8) by lia.
    destruct Hcases as [-> | [-> | [-> | [-> | H']]]]; try discriminate Hm.
    exact H'.
  - intros Hv. split; [lia|].
    assert (Hcases : v = 4 \/ v = 5 \/ v = 6 \/ v = 7) by lia.
    destruct Hcases as [-> | [-> | [-> | ->]]]; reflexivity.
Qed.

Lemma snake_01_edge u d :
  4 <= u < 8 -> 0 <= d < 2 -> free_edge snake_01 u (Z.lxor u (Z.shiftl 1 d)).
Proof.
  intros Hu Hd. split; [apply snake_01_free, Hu|]. split.
  - apply snake_01_free.
    assert (Hcases : (u = 4 \/ u = 5 \/ u = 6 \/ u = 7) /\ (d = 0 \/ d = 1)) by lia.
    destruct Hcases as [[-> | [-> | [-> | ->]]] [-> | ->]];
      (split; [apply Z.leb_le|apply Z.ltb_lt]; reflexivity).
  - exists d. split; [cbn; lia|reflexivity].
Qed.

(** On this node the head's neighbour 7 is free and joins the four free
    vertices, so no free vertex is unreachable from the current vertex;
    the code returns 4. *)
Example count_unreachable_vertices_snake_01 :
  SnakeNode.new [0; 1] 3 = Ok snake_01 /\
  SnakeNode.get_current_vertex snake_01 = Ok 3 /\
  AdvancedFitnessEvaluator.count_unreachable_vertices 2
    (AdvancedFitnessEvaluator.new snake_01) = Some (Ok 4) /\
  forall v, free snake_01 v -> reachable_from_current snake_01 3 v.
Proof.
  split; [reflexivity|]. split; [reflexivity|]. split; [reflexivity|].
  intros v Hv. apply snake_01_free in Hv.
  exists 2. change (Z.lxor 3 (Z.shiftl 1 2)) with 7.
  split; [cbn; lia|]. split; [apply snake_01_free; lia|]. unfold free_reachable.
  assert (Hcases : v = 4 \/ v = 5 \/ v = 6 \/ v = 7) by lia.
  destruct Hcases as [-> | [-> | [-> | ->]]].
  - apply (rtc_l _ _ 5); [apply (snake_01_edge 7 1); lia|].
    apply rtc_once. apply (snake_01_edge 5 0); lia.
  - apply rtc_once. apply (snake_01_edge 7 1); lia.
  - apply rtc_once. apply (snake_01_edge 7 0); lia.
  - apply rtc_refl.
Qed.

Lemma count_unreachable_vertices_overcounts_witness :
  exists unreachable : gset Z,
    (forall u, u ∈ unreachable <->
       free snake_01 u /\ ~ reachable_from_current snake_01 3 u) /\
    Z.of_nat (size unreachable) < SnakeNode.fitness snake_01 /\
    forall fuel, 3 * 2 ^ 3 + 1 < Z.of_nat fuel ->
      AdvancedFitnessEvaluator.count_unreachable_vertices fuel
        (AdvancedFitnessEvaluator.new snake_01)
      = Some (Ok (SnakeNode.fitness snake_01)).
Proof.
  apply (count_unreachable_vertices_overcounts [0; 1] 3 snake_01 3 7).
  - reflexivity.
  - reflexivity.
  - exists 2. change (Z.lxor 3 (Z.shiftl 1 2)) with 7.
    split; [cbn; lia|]. split; [|apply rtc_refl].
    split; [cbn; lia|reflexivity].
Defined.

(** ** The pruned breadth-first search *)

Lemma In_firstn {A : Type} (n : nat) (l : list A) (x : A) :
  In x (firstn n l) -> In x l.
Proof.
  intros Hx. rewrite <- (firstn_skipn n l). apply in_or_app. left. exact Hx.
Qed.

Lemma In_py_slice_to {A : Type} (l : list A) (k : Z) (x : A) :
  In x (py_slice_to l k) -> In x l.
Proof. unfold py_slice_to. destruct (k <? 0); apply In_firstn. Qed.

(** A node of the frontier at level [k]: built from a canonical sequence of
    [k] in-range transitions whose path visits pairwise distinct vertices. *)
Definition frontier_node (dim : Z) (k : Z) (nd : SnakeNode.t) : Prop :=
  exists seq, node_inv seq dim nd /\ is_canonical seq = true /\
    Z.of_nat (length seq) = k /\ List.NoDup (node_path seq).

(** The running best answer: absent only while nothing was found, and
    otherwise of the recorded length, which is at least 1. *)
Definition best_ok (best : option SnakeNode.t) (len : Z) : Prop :=
  match best with
  | None => len = 0
  | Some b => SnakeNode.get_length b = len /\ 1 <= len
  end.

Lemma node_path_in_range seq dim nd :
  node_inv seq dim nd -> forall p, In p (node_path seq) -> 0 <= p < 2 ^ dim.
Proof.
  intros Hinv p. pose proof (inv_dim _ _ _ Hinv) as Hdim.
  assert (Horigin : 0 <= 0 < 2 ^ dim)
    by (split; [lia|apply Z.pow_pos_nonneg; lia]).
  intros [<-|Hp]; [assumption|].
  eapply path_from_in_range; [apply (inv_range _ _ _ Hinv)|exact Horigin|exact Hp].
Qed.

Lemma node_path_length seq : length (node_path seq) = S (length seq).
Proof. unfold node_path. simpl. now rewrite path_from_length. Qed.

(** A frontier node at level [k] leaves room for its [k + 1] vertices. *)
Lemma frontier_node_level_bound dim k nd :
  frontier_node dim k nd -> k + 1 <= 2 ^ dim.
Proof.
  intros (seq & Hinv & _ & Hlen & Hnodup).
  assert (Hincl : incl (node_path seq) (zrange (2 ^ dim))).
  { intros p Hp. apply in_zrange. eapply node_path_in_range; eauto. }
  pose proof (List.NoDup_incl_length Hnodup Hincl) as Hle.
  rewrite node_path_length in Hle.
  pose proof (inv_dim _ _ _ Hinv).
  assert (0 < 2 ^ dim) by (apply Z.pow_pos_nonneg; lia).
  assert (Z.of_nat (length (zrange (2 ^ dim))) = 2 ^ dim)
    by (apply zrange_length; lia).
  lia.
Qed.

Lemma child_frontier_node seq dim k nd d c :
  node_inv seq dim nd -> is_canonical seq = true ->
  Z.of_nat (length seq) = k -> List.NoDup (node_path seq) ->
  In d (get_legal_next_dimensions seq) ->
  SnakeNode.can_extend nd d = Ok true ->
  node_inv (seq ++ [d]) dim c ->
  frontier_node dim (k + 1) c.
Proof.
  intros Hinv Hcan Hlen Hnodup Hlegal Hext Hcinv.
  exists (seq ++ [d]). split; [assumption|]. split; [|split].
  - apply canonical_extension; assumption.
  - rewrite length_app. simpl. lia.
  - rewrite node_path_app. apply List.NoDup_app; [assumption| |].
    + constructor; [intros []|constructor].
    + intros p Hp [<-|[]].
      destruct (can_extend_true _ _ _ _ Hinv Hext) as [_ Hfree].
      assert (Hmarked : marked (SnakeNode.vertices_bitmap nd)
                (Z.lxor (end_vertex 0 seq) (Z.shiftl 1 d)) = true).
      { apply (inv_marks _ _ _ Hinv).
        - pose proof (node_path_in_range _ _ _ Hinv _ Hp). lia.
        - exists (Z.lxor (end_vertex 0 seq) (Z.shiftl 1 d)).
          split; [exact Hp|left; reflexivity]. }
      congruence.
Qed.

(** The origin node can always be extended along dimension 0. *)
Lemma root_can_extend dim root :
  node_inv [] dim root -> SnakeNode.can_extend root 0 = Ok true.
Proof.
  intros Hinv. rewrite (can_extend_spec _ _ _ _ Hinv).
  pose proof (inv_dim _ _ _ Hinv) as Hdim.
  destruct (Z.ltb_spec 0 dim); [|lia]. cbn [Z.leb andb end_vertex fold_left].
  destruct (marked (SnakeNode.vertices_bitmap root) (Z.lxor 0 (Z.shiftl 1 0)))
    eqn:Hm; [|reflexivity].
  apply (inv_marks _ _ _ Hinv) in Hm; [|cbv; discriminate].
  destruct Hm as (p & [<-|[]] & [Heq|(d & [] & _)]). discriminate.
Qed.

Section SearchInvariants.
Context `{Platform}.
Variable dim : Z.
Variable memory_limit_gb : float.

(** What the expansion loops maintain while level [k] is expanded. *)
Definition expansion_inv (k : Z) (acc : expansion) : Prop :=
  (forall c, In c (next_level acc) -> frontier_node dim (k + 1) c) /\
  best_ok (best_snake acc) (max_length acc) /\
  (next_level acc = [] \/ 1 <= max_length acc).

(** What holds of the search state between two levels. *)
Definition state_inv (st : search_state) : Prop :=
  (forall nd, In nd (current_level st) -> frontier_node dim (level_count st) nd) /\
  best_ok (best_so_far st) (best_length st) /\
  0 <= level_count st.

(** Expanding a frontier node along a legal dimension never raises: either
    the extension is infeasible and nothing changes, or the child is built
    and appended. *)
Lemma expand_dimension_spec k nd d acc :
  frontier_node dim k nd -> 0 <= k ->
  In d (get_legal_next_dimensions (SnakeNode.transition_sequence nd)) ->
  expansion_inv k acc ->
  (SnakeNode.can_extend nd d = Ok false /\ expand_dimension nd d acc = Ok acc)
  \/
  (exists c acc',
     SnakeNode.can_extend nd d = Ok true /\
     SnakeNode.create_child nd d = Ok c /\
     expand_dimension nd d acc = Ok acc' /\
     next_level acc' = next_level acc ++ [c] /\
     max_length acc <= max_length acc' /\
     expansion_inv k acc').
Proof.
  intros (seq & Hinv & Hcan & Hlen & Hnodup) Hk Hlegal (Hnext & Hbest & Hsome).
  rewrite (inv_sequence _ _ _ Hinv) in Hlegal.
  unfold expand_dimension, is_valid_extension.
  pose proof (can_extend_spec _ _ _ d Hinv) as Hspec.
  destruct ((0 <=? d) && (d <? dim) &&
            negb (marked (SnakeNode.vertices_bitmap nd)
                    (Z.lxor (end_vertex 0 seq) (Z.shiftl 1 d)))) eqn:Hb;
    rewrite Hspec; cbn [bind]; [|left; split; reflexivity].
  right. destruct (create_child_ok _ _ _ _ Hinv Hspec) as (c & Hc & Hcinv).
  rewrite Hc.
  assert (Hcnode : frontier_node dim (k + 1) c)
    by exact (child_frontier_node seq dim k nd d c
                Hinv Hcan Hlen Hnodup Hlegal Hspec Hcinv).
  assert (Hclen : SnakeNode.get_length c = k + 1).
  { unfold SnakeNode.get_length. rewrite (inv_sequence _ _ _ Hcinv), length_app.
    simpl. lia. }
  eexists c, _. split; [reflexivity|]. split; [reflexivity|].
  split; [reflexivity|]. split; [reflexivity|].
  cbn [next_level best_snake max_length]. split; [|split; [|split]].
  - destruct (Z.gtb_spec (SnakeNode.get_length c) (max_length acc)); lia.
  - intros c' Hc'. apply in_app_or in Hc' as [Hc'|[<-|[]]]; auto.
  - destruct (Z.gtb_spec (SnakeNode.get_length c) (max_length acc)).
    + simpl. split; [reflexivity|lia].
    + exact Hbest.
  - right.
    destruct (Z.gtb_spec (SnakeNode.get_length c) (max_length acc));
      cbn [max_length]; lia.
Qed.

Lemma expand_dimensions_spec k nd dims :
  frontier_node dim k nd -> 0 <= k ->
  (forall d, In d dims ->
     In d (get_legal_next_dimensions (SnakeNode.transition_sequence nd))) ->
  forall acc, expansion_inv k acc ->
    exists acc', for_each dims (expand_dimension nd) acc = Ok acc' /\
      expansion_inv k acc' /\
      (length (next_level acc) <= length (next_level acc'))%nat /\
      max_length acc <= max_length acc'.
Proof.
  intros Hnode Hk. induction dims as [|d dims IH]; intros Hdims acc Hacc.
  - exists acc. split; [reflexivity|]. split; [assumption|]. split; lia.
  - cbn [for_each].
    destruct (expand_dimension_spec k nd d acc Hnode Hk
                (Hdims d (or_introl eq_refl)) Hacc)
      as [[_ ->]|(c & acc1 & _ & _ & -> & Hnext & Hmax & Hacc1)]; cbn [bind].
    + apply IH; [|assumption]. intros d' Hd'. apply Hdims. right. exact Hd'.
    + destruct (IH (fun d' Hd' => Hdims d' (or_intror Hd')) acc1 Hacc1)
        as (acc' & Hrun & Hacc' & Hlen & Hmax').
      exists acc'. split; [assumption|]. split; [assumption|].
      rewrite Hnext, length_app in Hlen. split; lia.
Qed.

Lemma expand_node_spec k nd acc :
  frontier_node dim k nd -> 0 <= k -> expansion_inv k acc ->
  exists acc', expand_node nd acc = Ok acc' /\ expansion_inv k acc' /\
    (length (next_level acc) <= length (next_level acc'))%nat /\
    max_length acc <= max_length acc'.
Proof.
  intros Hnode Hk Hacc. unfold expand_node.
  apply expand_dimensions_spec; auto.
Qed.

Lemma expand_level_spec k nodes :
  0 <= k -> (forall nd, In nd nodes -> frontier_node dim k nd) ->
  forall acc, expansion_inv k acc ->
    exists acc', for_each nodes expand_node acc = Ok acc' /\
      expansion_inv k acc' /\
      (length (next_level acc) <= length (next_level acc'))%nat /\
      max_length acc <= max_length acc'.
Proof.
  intros Hk. induction nodes as [|nd nodes IH]; intros Hnodes acc Hacc.
  - exists acc. split; [reflexivity|]. split; [assumption|]. split; lia.
  - cbn [for_each].
    destruct (expand_node_spec k nd acc (Hnodes nd (or_introl eq_refl)) Hk Hacc)
      as (acc1 & -> & Hacc1 & Hlen1 & Hmax1). cbn [bind].
    destruct (IH (fun nd' Hnd' => Hnodes nd' (or_intror Hnd')) acc1 Hacc1)
      as (acc' & Hrun & Hacc' & Hlen & Hmax).
    exists acc'. split; [assumption|]. split; [assumption|]. split; lia.
Qed.

Lemma insert_by_fitness_In x y l :
  In y (insert_by_fitness x l) <-> y = x \/ In y l.
Proof.
  induction l as [|a l IH]; simpl; [intuition|].
  destruct (SnakeNode.fitness a <=? SnakeNode.fitness x); simpl;
    rewrite ?IH; intuition.
Qed.

Lemma sort_by_fitness_In y l : In y (sort_by_fitness l) <-> In y l.
Proof.
  induction l as [|a l IH]; simpl; [tauto|].
  rewrite insert_by_fitness_In, IH. intuition.
Qed.

Lemma prune_by_fitness_In nodes pruned nd :
  prune_by_fitness nodes memory_limit_gb = Ok pruned ->
  In nd pruned -> In nd nodes.
Proof.
  unfold prune_by_fitness. destruct nodes as [|first rest]; [intros [= <-]; auto|].
  destruct (nodes_within _ _) as [max_nodes|e]; [|discriminate]. cbn [bind].
  destruct (_ <=? max_nodes); intros [= <-]; [auto|].
  intros Hin. apply In_py_slice_to in Hin.
  exact (proj1 (sort_by_fitness_In nd (first :: rest)) Hin).
Qed.

(** The node budget is defined: whenever the estimate exceeds the limit,
    so that [prune_by_fitness] is called, the conversion
    [int((memory_limit_gb * 1024**3) / bytes_per_node)] succeeds.  It
    fails only on an infinite quotient, that is for a limit of minus
    infinity or so negative that the product overflows. *)
Definition budget_defined : Prop :=
  forall first rest,
    float_gt (estimate_memory_usage (first :: rest)) memory_limit_gb = true ->
    exists max_nodes,
      nodes_within memory_limit_gb (estimate_node_size first) = Ok max_nodes.

Lemma prune_by_fitness_ok nodes :
  budget_defined ->
  float_gt (estimate_memory_usage nodes) memory_limit_gb = true ->
  exists pruned, prune_by_fitness nodes memory_limit_gb = Ok pruned.
Proof.
  intros Hfin Hover. unfold prune_by_fitness.
  destruct nodes as [|first rest]; [eauto|].
  destruct (Hfin first rest Hover) as (max_nodes & ->). cbn [bind].
  destruct (_ <=? max_nodes); eauto.
Qed.

(** A level keeps the invariant. *)
Lemma bfs_level_inv st st' :
  state_inv st -> bfs_level memory_limit_gb st = Ok st' ->
  state_inv st' /\ level_count st' = level_count st + 1 /\
  best_length st <= best_length st' /\
  (current_level st' = [] \/ 1 <= best_length st').
Proof.
  intros (Hnodes & Hbest & Hk) Hlevel. unfold bfs_level in Hlevel.
  destruct (expand_level_spec (level_count st) (current_level st) Hk Hnodes
              {| next_level := []; best_snake := best_so_far st;
                 max_length := best_length st;
                 total_nodes_explored := nodes_explored st |})
    as (acc & Hrun & (Hnext & Hbest' & Hsome) & _ & Hmax).
  { split; [intros c []|]. split; [exact Hbest|left; reflexivity]. }
  rewrite Hrun in Hlevel. cbn [bind] in Hlevel.
  apply bind_Ok in Hlevel as (pruned & Hpruned & [= <-]).
  assert (Hsub : forall nd, In nd pruned -> In nd (next_level acc)).
  { intros nd Hnd. destruct (float_gt _ _).
    - eapply prune_by_fitness_In; eauto.
    - injection Hpruned as <-. exact Hnd. }
  unfold state_inv. cbn [current_level best_so_far best_length level_count].
  split; [|split; [reflexivity|split; [exact Hmax|]]].
  - split; [|split; [assumption|lia]]. intros nd Hnd. apply Hnext, Hsub, Hnd.
  - destruct Hsome as [Hnil|Hpos]; [|right; exact Hpos].
    left. destruct pruned as [|nd pruned]; [reflexivity|].
    specialize (Hsub nd (or_introl eq_refl)). rewrite Hnil in Hsub. destruct Hsub.
Qed.

(** With a defined node budget, a level never raises. *)
Lemma bfs_level_ok st :
  state_inv st -> budget_defined ->
  exists st', bfs_level memory_limit_gb st = Ok st'.
Proof.
  intros (Hnodes & Hbest & Hk) Hfin. unfold bfs_level.
  destruct (expand_level_spec (level_count st) (current_level st) Hk Hnodes
              {| next_level := []; best_snake := best_so_far st;
                 max_length := best_length st;
                 total_nodes_explored := nodes_explored st |})
    as (acc & -> & _).
  { split; [intros c []|]. split; [exact Hbest|left; reflexivity]. }
  cbn [bind]. destruct (float_gt _ _) eqn:Hover.
  - destruct (prune_by_fitness_ok (next_level acc) Hfin Hover) as (pruned & ->).
    cbn [bind]. eauto.
  - cbn [bind]. eauto.
Qed.

(** The first level extends the origin node along dimension 0. *)
Lemma first_level_finds_child root st' :
  node_inv [] dim root ->
  bfs_level memory_limit_gb (initial_state root) = Ok st' ->
  1 <= best_length st'.
Proof.
  intros Hroot Hlevel.
  assert (Hnode : frontier_node dim 0 root).
  { exists []. split; [assumption|]. split; [reflexivity|].
    split; [reflexivity|]. repeat constructor. intros []. }
  set (acc0 := {| next_level := []; best_snake := None; max_length := 0;
                  total_nodes_explored := 0 |}).
  assert (Hacc0 : expansion_inv 0 acc0).
  { split; [intros c []|]. split; [reflexivity|left; reflexivity]. }
  assert (Hfor : exists acc1,
            for_each [root] expand_node acc0 = Ok acc1 /\ 1 <= max_length acc1).
  { cbn [for_each]. unfold expand_node. rewrite (inv_sequence _ _ _ Hroot).
    cbn [get_legal_next_dimensions for_each].
    destruct (expand_dimension_spec 0 root 0 acc0 Hnode ltac:(lia)) as
      [[Hno _]|(c & acc1 & _ & _ & Hrun & Hnext & _ & (_ & _ & Hsome))];
      [rewrite (inv_sequence _ _ _ Hroot); left; reflexivity|exact Hacc0| |].
    - rewrite (root_can_extend _ _ Hroot) in Hno. discriminate.
    - exists acc1. rewrite Hrun. split; [reflexivity|].
      destruct Hsome as [Hnil|Hpos]; [|exact Hpos].
      rewrite Hnext in Hnil. destruct (next_level acc0); discriminate. }
  destruct Hfor as (acc1 & Hfor & Hpos).
  unfold bfs_level, initial_state in Hlevel.
  cbn [current_level best_so_far best_length nodes_explored level_count] in Hlevel.
  fold acc0 in Hlevel. rewrite Hfor in Hlevel. cbn [bind] in Hlevel.
  apply bind_Ok in Hlevel as (pruned & _ & [= <-]). exact Hpos.
Qed.

(** The states the loop of [pruned_bfs_search] goes through. *)
Inductive frontier_state : search_state -> Prop :=
| frontier_initial root :
    SnakeNode.new [] dim = Ok root -> frontier_state (initial_state root)
| frontier_next st st' :
    frontier_state st -> bfs_level memory_limit_gb st = Ok st' ->
    frontier_state st'.

Lemma frontier_state_inv st : frontier_state st -> state_inv st.
Proof.
  induction 1 as [root Hroot|st st' _ IH Hlevel].
  - apply node_new_inv in Hroot. split; [|split; [reflexivity|simpl; lia]].
    intros nd [<-|[]]. exists []. split; [assumption|].
    split; [reflexivity|]. split; [reflexivity|]. repeat constructor. intros [].
  - apply (bfs_level_inv st st' IH Hlevel).
Qed.

End SearchInvariants.

Section SearchResults.
Context `{Platform}.
Variable dim : Z.
Variable memory_limit_gb : float.

(** C4: every node of every frontier of [pruned_bfs_search] has a
    canonical transition sequence; this rests on the two facts that a
    canonical sequence extended by one of its legal next dimensions is
    canonical, and that the empty sequence is canonical. *)
Theorem frontier_nodes_canonical :
  (forall st, frontier_state dim memory_limit_gb st ->
     forall nd, In nd (current_level st) ->
       is_canonical (SnakeNode.transition_sequence nd) = true)
  /\
  (forall s d, is_canonical s = true -> In d (get_legal_next_dimensions s) ->
     is_canonical (s ++ [d]) = true)
  /\
  is_canonical [] = true.
Proof.
  split; [|split; [exact canonical_extension|reflexivity]].
  intros st Hst nd Hnd. apply frontier_state_inv in Hst as (Hnodes & _).
  destruct (Hnodes nd Hnd) as (seq & Hinv & Hcan & _).
  rewrite (inv_sequence _ _ _ Hinv). exact Hcan.
Qed.

(** C10: every node of every frontier has all its transitions in
    [[0, dim)]; [get_legal_next_dimensions] does propose [max + 1], which
    may equal [dim], but [can_extend] answers [False] for every dimension
    outside [[0, dim)]; for each legal dimension the engine either skips it
    or builds the child, without any exception, and the child's
    transitions are in range again. *)
Theorem frontier_transitions_in_range (st : search_state) (nd : SnakeNode.t) :
  frontier_state dim memory_limit_gb st ->
  In nd (current_level st) ->
  Forall (in_range dim) (SnakeNode.transition_sequence nd)
  /\
  (forall first others,
     In (py_max first others + 1) (get_legal_next_dimensions (first :: others)))
  /\
  (forall d, ~ in_range dim d -> SnakeNode.can_extend nd d = Ok false)
  /\
  (forall d acc,
     In d (get_legal_next_dimensions (SnakeNode.transition_sequence nd)) ->
     (is_valid_extension nd d = Ok false /\ expand_dimension nd d acc = Ok acc)
     \/
     (exists c,
        is_valid_extension nd d = Ok true /\ in_range dim d /\
        SnakeNode.create_child nd d = Ok c /\
        SnakeNode.transition_sequence c = SnakeNode.transition_sequence nd ++ [d] /\
        Forall (in_range dim) (SnakeNode.transition_sequence c) /\
        exists acc', expand_dimension nd d acc = Ok acc' /\
                     next_level acc' = next_level acc ++ [c])).
Proof.
  intros Hst Hnd. apply frontier_state_inv in Hst as (Hnodes & _ & Hk).
  destruct (Hnodes nd Hnd) as (seq & Hinv & Hcan & Hlen & Hnodup).
  split; [|split; [|split]].
  - rewrite (inv_sequence _ _ _ Hinv). apply (inv_range _ _ _ Hinv).
  - intros first others. apply legal_next_dimensions_In. right. reflexivity.
  - intros d Hd. rewrite (can_extend_spec _ _ _ _ Hinv).
    unfold in_range in Hd.
    destruct (Z.leb_spec 0 d); [|reflexivity].
    destruct (Z.ltb_spec d dim); [lia|reflexivity].
  - intros d acc Hlegal. unfold is_valid_extension, expand_dimension.
    unfold is_valid_extension.
    rewrite (inv_sequence _ _ _ Hinv) in Hlegal |- *.
    pose proof (can_extend_spec _ _ _ d Hinv) as Hspec.
    destruct ((0 <=? d) && (d <? dim) &&
              negb (marked (SnakeNode.vertices_bitmap nd)
                      (Z.lxor (end_vertex 0 seq) (Z.shiftl 1 d)))) eqn:Hb;
      rewrite Hspec; cbn [bind]; [|left; split; reflexivity].
    right. destruct (create_child_ok _ _ _ _ Hinv Hspec) as (c & Hc & Hcinv).
    destruct (can_extend_true _ _ _ _ Hinv Hspec) as [Hd _].
    exists c. rewrite Hc. split; [reflexivity|]. split; [assumption|].
    split; [reflexivity|]. rewrite (inv_sequence _ _ _ Hcinv).
    split; [reflexivity|]. split; [apply (inv_range _ _ _ Hcinv)|].
    eexists. split; reflexivity.
Qed.

Lemma best_ok_some best len :
  best_ok best len -> 1 <= len ->
  exists b, best = Some b /\ 1 <= SnakeNode.get_length b.
Proof.
  destruct best as [b|]; simpl; [|lia]. intros [Hlen _] Hpos.
  exists b. split; [reflexivity|lia].
Qed.

Lemma bfs_loop_terminates :
  budget_defined memory_limit_gb ->
  forall fuel st,
    state_inv dim st -> 1 <= best_length st ->
    Z.max 0 (2 ^ dim - level_count st) < Z.of_nat fuel ->
    exists b, pruned_bfs_search_loop fuel memory_limit_gb st = Some (Ok (Some b)) /\
              1 <= SnakeNode.get_length b.
Proof.
  intros Hfin. induction fuel as [|fuel IH]; intros st Hst Hbest Hfuel; [lia|].
  cbn [pruned_bfs_search_loop].
  destruct (current_level st) as [|nd rest] eqn:Hlevel.
  { destruct Hst as (_ & Hok & _).
    destruct (best_ok_some _ _ Hok Hbest) as (b & -> & Hb). eauto. }
  assert (Hbound : level_count st + 1 <= 2 ^ dim).
  { destruct Hst as (Hnodes & _). eapply frontier_node_level_bound.
    apply (Hnodes nd). rewrite Hlevel. left. reflexivity. }
  destruct (bfs_level_ok dim memory_limit_gb st Hst Hfin) as (st' & Hstep).
  rewrite Hstep.
  destruct (bfs_level_inv dim memory_limit_gb st st' Hst Hstep)
    as (Hst' & Hcount & Hmono & _).
  destruct (current_level st') as [|nd' rest'] eqn:Hlevel'.
  { destruct Hst' as (_ & Hok & _).
    destruct (best_ok_some _ _ Hok ltac:(lia)) as (b & -> & Hb). eauto. }
  apply IH; [assumption|lia|lia].
Qed.


End SearchResults.

(** ** Reference platforms

    Two instances of [Platform] for the examples, both with the object
    sizes of CPython 3.11 on a 64-bit machine, and with the conversions
    between integers and floats of the interpreter, whose floats are IEEE
    binary64 numbers.  In [reference_platform] the memory limit is an exact
    rational, so the arithmetic on the limit neither rounds nor has
    infinities; in [binary64_platform] it is a double, as in the
    interpreter. *)

(** The double nearest to [m * 2^e], ties to even; infinite beyond the
    range of a double. *)
Definition nearest_double (m e : Z) : PrimFloat.float :=
  FloatOps.SF2Prim
    (SpecFloat.binary_normalize FloatOps.prec FloatOps.emax m e false).

(** The conversion of an integer operand of a float operation: "int too
    large to convert to float" is an [OverflowError]. *)
Definition float_of_int (z : Z) : result PrimFloat.float :=
  let x := nearest_double z 0 in
  if PrimFloat.is_infinity x then Err OverflowError else Ok x.

(** [int(x)]: truncation towards zero. *)
Definition int_of_float (x : PrimFloat.float) : result Z :=
  match FloatOps.Prim2SF x with
  | SpecFloat.S754_zero _ => Ok 0
  | SpecFloat.S754_finite negative m e =>
      let magnitude := Z.shiftl (Z.pos m) e in
      Ok (if negative then - magnitude else magnitude)
  | SpecFloat.S754_infinity _ => Err OverflowError
  | SpecFloat.S754_nan => Err (ValueError FloatNaNToInteger)
  end.

(** [int(length * ratio)] for a ratio literal given in thousandths; the
    literal denotes the double nearest to it.  The product raises for a
    length beyond the range of a double, which no list has; the value is
    [0] there. *)
Definition int_of_scaled (len ratio : Z) : Z :=
  let ratio_literal :=
    PrimFloat.div (nearest_double ratio 0) (nearest_double 1000 0) in
  match (x <- float_of_int len ;; int_of_float (PrimFloat.mul x ratio_literal)) with
  | Ok scaled => scaled
  | Err _ => 0
  end.

Definition q_truncate (q : Q) : Z :=
  if Qle_bool 0 q then Qfloor q else - Qfloor (Qopp q).

Definition reference_platform : Platform :=
  {| float := Q;
     getsizeof_list := fun l => 56 + 8 * Z.of_nat (length l);
     getsizeof_int := fun i => 24 + 4 * (Z.log2 (Z.abs i) / 30 + 1);
     getsizeof_array := fun a => 80 + 8 * Z.of_nat (length a);
     float_zero := 0%Q;
     bytes_to_gb := fun b => Qmake b (2 ^ 30);
     float_gt := fun a b => negb (Qle_bool a b);
     nodes_within := fun limit bytes_per_node =>
       Ok (q_truncate (Qdiv (Qmult limit (inject_Z (2 ^ 30)))
                         (inject_Z bytes_per_node)));
     high_dimension_memory := fun limit =>
       if Qle_bool (Qmult limit (inject_Z 2)) (inject_Z 50)
       then Qmult limit (inject_Z 2) else inject_Z 50;
     scale_length := int_of_scaled |}.

(** The interpreter's own arithmetic.  [getsizeof] of a list is that of a
    list allocated for its length, as those built by [+] and by slicing
    are.  [total_bytes / (1024**3)] is the correctly rounded quotient (the
    interpreter raises beyond the range of a double, from about 2^1054
    bytes on; the quotient is infinite there).  In [memory_limit_gb *
    1024**3 / bytes_per_node] the divisor is converted first, then tested
    for zero.  [min(a, 50.0)] is [50.0] when [50.0 < a] and [a] otherwise,
    also for a limit that is not a number. *)
Definition binary64_platform : Platform :=
  {| float := PrimFloat.float;
     getsizeof_list := fun l => 56 + 8 * Z.of_nat (length l);
     getsizeof_int := fun i => 24 + 4 * (Z.log2 (Z.abs i) / 30 + 1);
     getsizeof_array := fun a => 80 + 8 * Z.of_nat (length a);
     float_zero := PrimFloat.zero;
     bytes_to_gb := fun b => nearest_double b (-30);
     float_gt := fun a b => PrimFloat.ltb b a;
     nodes_within := fun limit bytes_per_node =>
       let product := PrimFloat.mul limit (nearest_double (2 ^ 30) 0) in
       divisor <- float_of_int bytes_per_node ;;
       if PrimFloat.eqb divisor PrimFloat.zero then Err ZeroDivisionError
       else int_of_float (PrimFloat.div product divisor);
     high_dimension_memory := fun limit =>
       let doubled := PrimFloat.mul limit (nearest_double 2 0) in
       if PrimFloat.ltb (nearest_double 50 0) doubled
       then nearest_double 50 0 else doubled;
     scale_length := int_of_scaled |}.

Lemma reference_platform_budget (limit : Q) :
  @budget_defined reference_platform limit.
Proof. intros first rest _. eexists. reflexivity. Qed.

Lemma frontier_transitions_in_range_witness :
  exists root, SnakeNode.new [] 3 = Ok root /\
    Forall (in_range 3) (SnakeNode.transition_sequence root) /\
    SnakeNode.can_extend root 3 = Ok false.
Proof.
  eexists. split; [reflexivity|].
  destruct (@frontier_transitions_in_range reference_platform 3 (18 # 1)%Q
              (initial_state _) _
              (@frontier_initial reference_platform 3 (18 # 1)%Q _ eq_refl)
              (or_introl eq_refl)) as (Hrange & _ & Hout & _).
  split; [exact Hrange|]. apply Hout. unfold in_range. lia.
Defined.


Example pruned_bfs_search_q3 :
  exists b, @pruned_bfs_search reference_platform 9 3 (18 # 1)%Q = Some (Ok (Some b)) /\
            SnakeNode.transition_sequence b = [0; 1; 2].
Proof. eexists. split; [vm_compute; reflexivity|reflexivity]. Qed.


(** With a finite limit the same search returns the snake [[0; 1; 2]] of
    the 3-cube. *)
Example pruned_bfs_search_binary64 :
  exists b,
    @pruned_bfs_search binary64_platform 9 3 (nearest_double 18 0)
    = Some (Ok (Some b)) /\
    SnakeNode.transition_sequence b = [0; 1; 2].
Proof. eexists. split; [vm_compute; reflexivity|reflexivity]. Qed.

(** ** Priming: a search that does not return *)

Section PrimingDivergence.
Context `{Platform}.

Lemma seed_expand_dimension_skip dimension node dim_val acc :
  (dim_val >=? dimension) = true \/ SnakeNode.can_extend node dim_val = Ok false ->
  seed_expand_dimension dimension node dim_val acc = Ok acc.
Proof.
  unfold seed_expand_dimension, is_valid_extension.
  destruct (dim_val >=? dimension); [reflexivity|].
  intros [Hge | ->]; [discriminate|reflexivity].
Qed.

Lemma seed_expand_dimension_improves dimension node dim_val child acc :
  (dim_val >=? dimension) = false ->
  SnakeNode.can_extend node dim_val = Ok true ->
  SnakeNode.create_child node dim_val = Ok child ->
  (SnakeNode.get_length child >? exp_max_length acc) = true ->
  seed_expand_dimension dimension node dim_val acc
  = Ok {| seed_next_level := seed_next_level acc ++ [child];
          exp_best_snake := Some child;
          exp_max_length := SnakeNode.get_length child;
          exp_nodes_explored := exp_nodes_explored acc + 1;
          exp_no_improvement := 0 |}.
Proof.
  intros Hlt Hext Hchild Hbetter. unfold seed_expand_dimension, is_valid_extension.
  rewrite Hlt, Hext. cbn [bind]. rewrite Hchild, Hbetter. reflexivity.
Qed.

Variables seed child : SnakeNode.t.
Hypothesis seed_built : SnakeNode.new [12] 14 = Ok seed.
Hypothesis child_built : SnakeNode.create_child seed 13 = Ok child.

Lemma stuck_seed_inv : node_inv [12] 14 seed.
Proof. apply node_new_inv, seed_built. Qed.

Lemma stuck_seed_extends : SnakeNode.can_extend seed 13 = Ok true.
Proof.
  rewrite (can_extend_spec _ _ _ _ stuck_seed_inv).
  destruct (marked (SnakeNode.vertices_bitmap seed)
              (Z.lxor (end_vertex 0 [12]) (Z.shiftl 1 13))) eqn:Hm; [|reflexivity].
  apply (inv_marks _ _ _ stuck_seed_inv) in Hm; [|cbv; discriminate].
  destruct Hm as (p & [<-|[<-|[]]] & [Heq|(d & [<-|[]] & Heq)]); discriminate.
Qed.

Lemma stuck_child_inv : node_inv [12; 13] 14 child.
Proof.
  destruct (create_child_ok _ _ _ 13 stuck_seed_inv stuck_seed_extends) as (c & Hc & Hinv).
  rewrite child_built in Hc. injection Hc as <-. exact Hinv.
Qed.

Lemma stuck_seed_length : SnakeNode.get_length seed = 1.
Proof. unfold SnakeNode.get_length. now rewrite (inv_sequence _ _ _ stuck_seed_inv). Qed.

Lemma stuck_child_length : SnakeNode.get_length child = 2.
Proof. unfold SnakeNode.get_length. now rewrite (inv_sequence _ _ _ stuck_child_inv). Qed.

Lemma stuck_starting_nodes : starting_nodes seed 14 = Ok [seed].
Proof.
  unfold starting_nodes, initial_nodes. rewrite stuck_seed_length.
  change (1 >? 100) with false. cbv iota. cbn [bind for_each].
  unfold keep_viable, can_extend_somewhere.
  rewrite (inv_sequence _ _ _ stuck_seed_inv).
  change (below 14 (with_new_dimension 14 (get_legal_next_dimensions [12])))
    with [12; 13].
  cbn [py_any]. unfold is_valid_extension.
  rewrite (cannot_extend_used_dimension _ _ _ 12 stuck_seed_inv) by (left; reflexivity).
  cbn [bind]. rewrite stuck_seed_extends. reflexivity.
Qed.

(** The loop state when the main loop is entered with the seed, and the
    state after its first level. *)
Definition stuck_state0 : seed_state :=
  {| seed_current_level := [seed];
     seed_best_snake := Some seed;
     seed_max_length := 1;
     seed_level_count := 0;
     seed_nodes_explored := 0;
     no_improvement_count := 0 |}.

Definition stuck_state1 : seed_state :=
  {| seed_current_level := [child];
     seed_best_snake := Some child;
     seed_max_length := 2;
     seed_level_count := 1;
     seed_nodes_explored := 1;
     no_improvement_count := 0 |}.

Lemma stuck_first_expansion :
  for_each [seed] (seed_expand_node 14)
    {| seed_next_level := [];
       exp_best_snake := Some seed;
       exp_max_length := 1;
       exp_nodes_explored := 0;
       exp_no_improvement := 0 |}
  = Ok {| seed_next_level := [child];
          exp_best_snake := Some child;
          exp_max_length := 2;
          exp_nodes_explored := 1;
          exp_no_improvement := 0 |}.
Proof.
  cbn [for_each]. unfold seed_expand_node.
  rewrite (inv_sequence _ _ _ stuck_seed_inv).
  change (with_new_dimension 14 (get_legal_next_dimensions [12])) with [12; 13].
  cbn [for_each].
  rewrite seed_expand_dimension_skip
    by (right; apply (cannot_extend_used_dimension _ _ _ 12 stuck_seed_inv);
        left; reflexivity).
  cbn [bind].
  rewrite (seed_expand_dimension_improves 14 seed 13 child);
    [|reflexivity|exact stuck_seed_extends|exact child_built
     |rewrite stuck_child_length; reflexivity].
  cbn [bind seed_next_level exp_nodes_explored app]. rewrite stuck_child_length.
  reflexivity.
Qed.

Lemma stuck_second_expansion :
  for_each [child] (seed_expand_node 14)
    {| seed_next_level := [];
       exp_best_snake := Some child;
       exp_max_length := 2;
       exp_nodes_explored := 1;
       exp_no_improvement := 0 |}
  = Ok {| seed_next_level := [];
          exp_best_snake := Some child;
          exp_max_length := 2;
          exp_nodes_explored := 1;
          exp_no_improvement := 0 |}.
Proof.
  cbn [for_each]. unfold seed_expand_node.
  rewrite (inv_sequence _ _ _ stuck_child_inv).
  change (with_new_dimension 14 (get_legal_next_dimensions [12; 13]))
    with [12; 13; 14].
  cbn [for_each].
  rewrite seed_expand_dimension_skip
    by (right; apply (cannot_extend_used_dimension _ _ _ 12 stuck_child_inv);
        left; reflexivity).
  cbn [bind].
  rewrite seed_expand_dimension_skip
    by (right; apply (cannot_extend_used_dimension _ _ _ 13 stuck_child_inv);
        right; left; reflexivity).
  cbn [bind].
  rewrite seed_expand_dimension_skip by (left; reflexivity).
  reflexivity.
Qed.

(** The first level creates the child and advances. *)
Lemma stuck_first_level (memory_limit_gb : float) :
  float_gt (estimate_memory_usage [child]) memory_limit_gb = false ->
  seed_level 14 memory_limit_gb 1 stuck_state0 = Ok (Next stuck_state1).
Proof.
  intros Hfits. unfold seed_level.
  change (seed_current_level stuck_state0) with [seed].
  change (seed_best_snake stuck_state0) with (Some seed).
  change (seed_max_length stuck_state0) with 1.
  change (seed_nodes_explored stuck_state0) with 0.
  change (no_improvement_count stuck_state0) with 0.
  rewrite stuck_first_expansion.
  cbv beta iota zeta delta [bind seed_next_level exp_no_improvement
                              exp_max_length exp_best_snake exp_nodes_explored].
  rewrite Hfits. reflexivity.
Qed.

(** The second level finds no child and no prefix to backtrack to, and
    [continue]s with every loop variable unchanged. *)
Lemma stuck_second_level (memory_limit_gb : float) :
  seed_level 14 memory_limit_gb 1 stuck_state1 = Ok (Next stuck_state1).
Proof.
  unfold seed_level.
  change (seed_current_level stuck_state1) with [child].
  change (seed_best_snake stuck_state1) with (Some child).
  change (seed_max_length stuck_state1) with 2.
  change (seed_nodes_explored stuck_state1) with 1.
  change (no_improvement_count stuck_state1) with 0.
  rewrite stuck_second_expansion.
  cbv beta iota zeta delta [bind seed_next_level exp_no_improvement
                              exp_max_length exp_best_snake exp_nodes_explored].
  change (14 >=? 14) with true. cbv iota.
  unfold aggressive_backtracking. rewrite stuck_child_length.
  reflexivity.
Qed.

(** A state that an iteration maps to itself keeps the loop running. *)
Lemma seed_loop_fixed_point dimension limit max_levels seed_len st :
  seed_current_level st <> [] ->
  seed_level_count st < max_levels ->
  seed_level dimension limit seed_len st = Ok (Next st) ->
  forall fuel, seed_loop fuel dimension limit max_levels seed_len st = None.
Proof.
  intros Hlevel Hcount Hstep. induction fuel as [|fuel IH]; [reflexivity|].
  cbn [seed_loop]. destruct (seed_current_level st); [contradiction|].
  destruct (Z.ltb_spec (seed_level_count st) max_levels); [|lia].
  rewrite Hstep. exact IH.
Qed.

Lemma stuck_seed_search_diverges (memory_limit_gb : float) :
  float_gt (estimate_memory_usage [child]) memory_limit_gb = false ->
  forall fuel,
    pruned_bfs_search_from_seed fuel seed 14 memory_limit_gb 200000 1 = None.
Proof.
  intros Hfits fuel. unfold pruned_bfs_search_from_seed.
  rewrite (inv_dimension _ _ _ stuck_seed_inv).
  change (negb (14 =? 14)) with false. cbv iota.
  rewrite stuck_starting_nodes, stuck_seed_length.
  fold stuck_state0.
  destruct fuel as [|fuel]; [reflexivity|]. cbn [seed_loop].
  change (seed_current_level stuck_state0) with [seed].
  change (seed_level_count stuck_state0 <? 200000) with true. cbv iota.
  rewrite (stuck_first_level _ Hfits).
  rewrite seed_loop_fixed_point; [reflexivity|discriminate|reflexivity|].
  apply stuck_second_level.
Qed.

End PrimingDivergence.

(** C6 (the code departs from the specification): [prime_search([12], 14)] does
    not return.  The seed extends once, to [[12, 13]]; the next level has no
    child, the best snake is too short for the backtracking to be tried,
    and the [continue] of the high-dimension branch re-enters the loop
    without incrementing [level_count], so the same iteration repeats for
    ever: no amount of fuel lets the model return.  The only assumption is
    that the one-node frontier [[12, 13]] fits the memory budget. *)
Theorem prime_search_diverges `{Platform} (memory_limit_gb : float) :
  (forall child, SnakeNode.new [12; 13] 14 = Ok child ->
     float_gt (estimate_memory_usage [child])
       (high_dimension_memory memory_limit_gb) = false) ->
  forall fuel, prime_search fuel [12] 14 memory_limit_gb = None.
Proof.
  intros Hfits fuel.
  destruct (node_new_ok [12] 14) as (seed & Hseed & Hseed_inv);
    [lia|repeat constructor; unfold in_range; lia|].
  destruct (create_child_ok _ _ _ 13 Hseed_inv (stuck_seed_extends seed Hseed))
    as (child & Hchild & Hchild_inv).
  assert (Hnew : SnakeNode.new [12; 13] 14 = Ok child).
  { unfold SnakeNode.create_child in Hchild.
    rewrite (stuck_seed_extends seed Hseed) in Hchild. cbn [bind negb] in Hchild.
    rewrite (inv_sequence _ _ _ Hseed_inv), (inv_dimension _ _ _ Hseed_inv)
      in Hchild. exact Hchild. }
  unfold prime_search.
  change (detect_dimension [12] >=? 14) with false. cbv iota.
  change (detect_dimension [12]) with 13.
  destruct fuel as [|fuel]; [reflexivity|]. cbn [prime_search_loop].
  change (13 <? 14) with true. cbv iota.
  change (13 + 1) with 14. rewrite Hseed.
  change (14 >=? 14) with true. cbv iota zeta.
  rewrite (stuck_seed_search_diverges seed child Hseed Hchild _ (Hfits child Hnew)).
  reflexivity.
Qed.

Lemma reference_single_node_fits (child : SnakeNode.t) :
  SnakeNode.new [12; 13] 14 = Ok child ->
  @float_gt reference_platform
    (@estimate_memory_usage reference_platform [child])
    (@high_dimension_memory reference_platform (18 # 1)%Q) = false.
Proof.
  intros Hchild. apply node_new_inv in Hchild.
  pose proof (inv_wf _ _ _ Hchild) as Hwf.
  assert (Hwords : HypercubeBitmap.num_words (SnakeNode.vertices_bitmap child) = 256).
  { rewrite (wf_num_words _ Hwf), (wf_num_vertices _ Hwf),
      (inv_bitmap_dimension _ _ _ Hchild). reflexivity. }
  pose proof (wf_length _ Hwf) as Hlen. rewrite Hwords in Hlen.
  unfold estimate_memory_usage, estimate_node_size.
  cbn [float_gt bytes_to_gb getsizeof_list getsizeof_int getsizeof_array
       high_dimension_memory reference_platform].
  rewrite (inv_sequence _ _ _ Hchild), Hlen, Hwords. reflexivity.
Qed.

Lemma prime_search_diverges_witness :
  @prime_search reference_platform 1000 [12] 14 (18 # 1)%Q = None.
Proof.
  apply (@prime_search_diverges reference_platform (18 # 1)%Q).
  exact reference_single_node_fits.
Defined.

(** ** Priming: what a returned result satisfies *)

Lemma for_each_invariant {A S : Type} (P : S -> Prop) (body : A -> S -> result S)
  (l : list A) :
  (forall x s s', P s -> body x s = Ok s' -> P s') ->
  forall s s', P s -> for_each l body s = Ok s' -> P s'.
Proof.
  intros Hbody. induction l as [|x l IH]; intros s s' Hs; cbn [for_each].
  - intros [= <-]. exact Hs.
  - intros Hrun. apply bind_Ok in Hrun as (s1 & Hx & Hrest).
    eapply IH; [|exact Hrest]. eapply Hbody; eauto.
Qed.

Section PrimingResults.
Context `{Platform}.

(** The best snake is present and has the recorded length. *)
Definition best_recorded (best : option SnakeNode.t) (len : Z) : Prop :=
  exists b, best = Some b /\ SnakeNode.get_length b = len.

Definition step_state (step : loop_step) : seed_state :=
  match step with
  | Break st => st
  | Next st => st
  end.

Lemma seed_expand_dimension_best dimension node dim_val acc acc' :
  best_recorded (exp_best_snake acc) (exp_max_length acc) ->
  seed_expand_dimension dimension node dim_val acc = Ok acc' ->
  best_recorded (exp_best_snake acc') (exp_max_length acc').
Proof.
  intros Hacc. unfold seed_expand_dimension.
  destruct (dim_val >=? dimension); [intros [= <-]; exact Hacc|].
  destruct (is_valid_extension node dim_val) as [[|]|e]; cbn [bind];
    [|intros [= <-]; exact Hacc|discriminate].
  destruct (SnakeNode.create_child node dim_val) as [child|[m|i b| |]];
    [|intros [= <-]; exact Hacc|discriminate|discriminate|discriminate].
  destruct (SnakeNode.get_length child >? exp_max_length acc); intros [= <-].
  - exists child. split; reflexivity.
  - exact Hacc.
Qed.

Lemma seed_expand_node_best dimension node acc acc' :
  best_recorded (exp_best_snake acc) (exp_max_length acc) ->
  seed_expand_node dimension node acc = Ok acc' ->
  best_recorded (exp_best_snake acc') (exp_max_length acc').
Proof.
  unfold seed_expand_node.
  apply (for_each_invariant
           (fun a => best_recorded (exp_best_snake a) (exp_max_length a))).
  intros d s s'. apply seed_expand_dimension_best.
Qed.

(** Whatever way an iteration ends, the state it leaves has the best snake
    and the maximal length computed by the expansion loops. *)
Lemma seed_level_best dimension limit seed_length st step :
  best_recorded (seed_best_snake st) (seed_max_length st) ->
  seed_level dimension limit seed_length st = Ok step ->
  best_recorded (seed_best_snake (step_state step))
    (seed_max_length (step_state step)).
Proof.
  intros Hst Hstep. unfold seed_level in Hstep.
  apply bind_Ok in Hstep as (acc & Hrun & Hstep).
  assert (Hacc : best_recorded (exp_best_snake acc) (exp_max_length acc)).
  { revert Hrun.
    apply (for_each_invariant
             (fun a => best_recorded (exp_best_snake a) (exp_max_length a))).
    - intros node s s'. apply seed_expand_node_best.
    - exact Hst. }
  clear Hrun Hst. revert Hstep.
  repeat match goal with
         | |- context [match ?c with _ => _ end] =>
             lazymatch c with
             | bind _ _ => fail
             | _ => destruct c eqn:?
             end
         | |- bind _ _ = Ok _ -> _ =>
             let Hb := fresh "Hb" in
             let pruned := fresh "pruned" in
             intros Hb; apply bind_Ok in Hb as (pruned & _ & Hb); revert Hb
         end;
    intros [= <-]; exact Hacc.
Qed.

Lemma seed_loop_best dimension limit max_levels seed_length fuel :
  forall st st',
    best_recorded (seed_best_snake st) (seed_max_length st) ->
    seed_loop fuel dimension limit max_levels seed_length st = Some (Ok st') ->
    best_recorded (seed_best_snake st') (seed_max_length st').
Proof.
  induction fuel as [|fuel IH]; intros st st' Hst; [discriminate|].
  cbn [seed_loop]. destruct (seed_current_level st); [intros [= <-]; exact Hst|].
  destruct (seed_level_count st <? max_levels); [|intros [= <-]; exact Hst].
  destruct (seed_level dimension limit seed_length st) as [step|e] eqn:Hstep;
    [|discriminate].
  pose proof (seed_level_best _ _ _ _ _ Hst Hstep) as Hnext.
  destruct step as [st1|st1]; cbn [step_state] in Hnext.
  - intros [= <-]. exact Hnext.
  - apply IH. exact Hnext.
Qed.

(** When the search from a seed returns, it returns either [None] or a
    node strictly longer than the seed. *)
Lemma seed_search_result fuel seed_node dimension limit max_levels min_extension r :
  pruned_bfs_search_from_seed fuel seed_node dimension limit max_levels
    min_extension = Some (Ok r) ->
  r = None \/
  exists n, r = Some n /\ SnakeNode.get_length seed_node < SnakeNode.get_length n.
Proof.
  unfold pruned_bfs_search_from_seed.
  destruct (negb (SnakeNode.dimension seed_node =? dimension)); [discriminate|].
  destruct (starting_nodes seed_node dimension) as [viable|e]; [|discriminate].
  destruct (seed_loop _ _ _ _ _ _) as [[st|e]|] eqn:Hloop; try discriminate.
  apply seed_loop_best in Hloop as (b & Hb & Hlen);
    [|exists seed_node; split; reflexivity].
  cbn [seed_best_snake seed_max_length] in *. rewrite Hb.
  destruct (Z.gtb_spec (seed_max_length st) (SnakeNode.get_length seed_node)).
  - intros [= <-]. right. exists b. split; [reflexivity|lia].
  - intros [= <-]. left. reflexivity.
Qed.

Lemma prime_search_loop_result fuel :
  forall current_snake current_dim target_dimension limit s,
    prime_search_loop fuel current_snake current_dim target_dimension limit
    = Some (Ok s) ->
    (length current_snake <= length s)%nat.
Proof.
  induction fuel as [|fuel IH];
    intros current_snake current_dim target_dimension limit s; [discriminate|].
  cbn [prime_search_loop].
  destruct (current_dim <? target_dimension); [|intros [= <-]; lia].
  destruct (SnakeNode.new current_snake (current_dim + 1))
    as [initial_node|[m|i b| |]];
    [|intros [= <-]; lia|discriminate|discriminate|discriminate].
  cbv zeta.
  destruct (pruned_bfs_search_from_seed _ _ _ _ _ _) as [[[ext|]|e]|];
    [|intros [= <-]; lia|discriminate|discriminate].
  destruct (Z.gtb_spec (SnakeNode.get_length ext) (Z.of_nat (length current_snake)));
    [|intros [= <-]; lia].
  intros Hrest. apply IH in Hrest. unfold SnakeNode.get_length in *. lia.
Qed.

(** Whenever [prime_search] returns, the sequence it returns is at least
    as long as the seed. *)
Lemma prime_search_result fuel seed target_dimension limit s :
  prime_search fuel seed target_dimension limit = Some (Ok s) ->
  (length seed <= length s)%nat.
Proof.
  unfold prime_search.
  destruct (detect_dimension seed >=? target_dimension); [intros [= <-]; lia|].
  apply prime_search_loop_result.
Qed.

End PrimingResults.

(* ===================================================================== *)
(** * Part III: further properties of the code                            *)
(* ===================================================================== *)

(** ** [HypercubeBitmap]: reading back what was written *)

Lemma reachable_num_vertices b :
  bitmap_reachable b ->
  HypercubeBitmap.num_vertices b = 2 ^ HypercubeBitmap.dimension b.
Proof. intros Hb. apply wf_num_vertices, bitmap_reachable_wf, Hb. Qed.

Lemma get_bit_out_of_range b v :
  ~ (0 <= v < HypercubeBitmap.num_vertices b) ->
  HypercubeBitmap.get_bit b v
  = Err (IndexError v (HypercubeBitmap.num_vertices b)).
Proof.
  intros Hv. unfold HypercubeBitmap.get_bit.
  destruct (Z.ltb_spec v 0); [reflexivity|].
  destruct (Z.geb_spec v (HypercubeBitmap.num_vertices b)); [reflexivity|lia].
Qed.

Lemma set_bit_out_of_range b v :
  ~ (0 <= v < HypercubeBitmap.num_vertices b) ->
  HypercubeBitmap.set_bit b v
  = Err (IndexError v (HypercubeBitmap.num_vertices b)).
Proof.
  intros Hv. unfold HypercubeBitmap.set_bit.
  destruct (Z.ltb_spec v 0); [reflexivity|].
  destruct (Z.geb_spec v (HypercubeBitmap.num_vertices b)); [reflexivity|lia].
Qed.

Lemma clear_bit_out_of_range b v :
  ~ (0 <= v < HypercubeBitmap.num_vertices b) ->
  HypercubeBitmap.clear_bit b v
  = Err (IndexError v (HypercubeBitmap.num_vertices b)).
Proof.
  intros Hv. unfold HypercubeBitmap.clear_bit.
  destruct (Z.ltb_spec v 0); [reflexivity|].
  destruct (Z.geb_spec v (HypercubeBitmap.num_vertices b)); [reflexivity|lia].
Qed.

(** Two bitmaps of the same size whose marks agree at [u] answer [get_bit]
    alike, whether [u] is a vertex or not. *)
Lemma get_bit_agree b b' u :
  bitmap_wf b -> bitmap_wf b' ->
  HypercubeBitmap.num_vertices b' = HypercubeBitmap.num_vertices b ->
  marked b' u = marked b u ->
  HypercubeBitmap.get_bit b' u = HypercubeBitmap.get_bit b u.
Proof.
  intros Hwf Hwf' Hnv Hm.
  destruct (Z_lt_dec u 0) as [Hneg|Hpos];
    [|destruct (Z_lt_dec u (HypercubeBitmap.num_vertices b)) as [Hlt|Hge]].
  - rewrite !get_bit_out_of_range by lia. rewrite Hnv. reflexivity.
  - rewrite !get_bit_marked by (assumption || lia). rewrite Hm. reflexivity.
  - rewrite !get_bit_out_of_range by lia. rewrite Hnv. reflexivity.
Qed.

Lemma clear_bit_spec b v :
  bitmap_wf b -> 0 <= v < HypercubeBitmap.num_vertices b ->
  exists b', HypercubeBitmap.clear_bit b v = Ok b' /\
    bitmap_wf b' /\
    HypercubeBitmap.dimension b' = HypercubeBitmap.dimension b /\
    HypercubeBitmap.num_vertices b' = HypercubeBitmap.num_vertices b /\
    (forall u, 0 <= u -> marked b' u = negb (u =? v) && marked b u).
Proof.
  intros Hwf Hv.
  destruct (HypercubeBitmap.clear_bit b v) as [b'|e] eqn:Hclear.
  - exists b'. split; [reflexivity|]. split; [eapply clear_bit_wf; eauto|].
    revert Hclear. unfold HypercubeBitmap.clear_bit.
    destruct (Z.ltb_spec v 0); [lia|].
    destruct (Z.geb_spec v (HypercubeBitmap.num_vertices b)); [lia|].
    cbn [orb]. rewrite word_idx_eq, bit_idx_eq.
    pose proof (wf_word_in_range b v Hwf Hv) as Hlt.
    assert (Hdiv : 0 <= v / 64) by (apply Z.div_pos; lia).
    assert (Hmod : 0 <= v mod 64 < 64) by (apply Z.mod_pos_bound; lia).
    destruct (array_get_lookup (HypercubeBitmap.bitmap b) (v / 64) Hdiv Hlt)
      as (w & Hw & ->). cbn [bind].
    unfold array_set.
    destruct (array_index (HypercubeBitmap.bitmap b) (v / 64)) as [k|] eqn:Hk;
      [|discriminate].
    assert (Hkeq : k = Z.to_nat (v / 64)).
    { revert Hk. unfold array_index.
      destruct (_ || _); [discriminate|].
      destruct (Z.ltb_spec (v / 64) 0); [lia|]. congruence. }
    subst k. cbn [bind].
    destruct (_ || _); [discriminate|]. intros [= <-].
    split; [reflexivity|]. split; [reflexivity|].
    intros u Hu. rewrite marked_insert by (assumption || lia).
    destruct (Z.eqb_spec (u / 64) (v / 64)) as [Heq|Hne].
    + rewrite Z.land_spec, Z.lnot_spec, Z.shiftl_1_l, Z.pow2_bits_eqb
        by (try apply Z.mod_pos_bound; lia).
      unfold marked. rewrite Heq, Hw.
      destruct (Z.eqb_spec (v mod 64) (u mod 64)) as [Hm|Hm];
        destruct (Z.eqb_spec u v) as [Huv|Huv]; cbn [negb andb];
        rewrite ?andb_false_r, ?andb_true_r; try reflexivity.
      * exfalso. apply Huv, vertex_split. auto.
      * subst u. contradiction.
    + destruct (Z.eqb_spec u v) as [->|]; [contradiction|reflexivity].
  - exfalso. revert Hclear. unfold HypercubeBitmap.clear_bit.
    destruct (Z.ltb_spec v 0); [lia|].
    destruct (Z.geb_spec v (HypercubeBitmap.num_vertices b)); [lia|].
    cbn [orb]. rewrite word_idx_eq, bit_idx_eq.
    pose proof (wf_word_in_range b v Hwf Hv) as Hlt.
    assert (Hdiv : 0 <= v / 64) by (apply Z.div_pos; lia).
    assert (Hmod : 0 <= v mod 64 < 64) by (apply Z.mod_pos_bound; lia).
    destruct (array_get_lookup (HypercubeBitmap.bitmap b) (v / 64) Hdiv Hlt)
      as (w & Hw & ->). cbn [bind].
    pose proof (wf_words _ Hwf _ _ Hw) as Hwb.
    set (w' := Z.land w (Z.lnot (Z.shiftl 1 (v mod 64)))).
    assert (Hnonneg : 0 <= w') by (apply Z.land_nonneg; left; lia).
    assert (Hnew : 0 <= w' < 2 ^ 64).
    { split; [assumption|]. apply word_upper_bound; [assumption|].
      intros i Hi. unfold w'.
      rewrite Z.land_spec, (word_high_bits w i) by assumption. reflexivity. }
    rewrite array_set_insert by assumption. discriminate.
Qed.

(** X1: setting a bit of a bitmap succeeds on every vertex of the cube;
    afterwards [get_bit] answers [True] for that vertex, and what it
    answers for any other argument (a vertex or not) is unchanged. *)
Theorem set_bit_then_get_bit (b : HypercubeBitmap.t) (v : Z) :
  bitmap_reachable b ->
  0 <= v < 2 ^ HypercubeBitmap.dimension b ->
  exists b', HypercubeBitmap.set_bit b v = Ok b' /\
    HypercubeBitmap.get_bit b' v = Ok true /\
    (forall u, u <> v ->
       HypercubeBitmap.get_bit b' u = HypercubeBitmap.get_bit b u).
Proof.
  intros Hb Hv. pose proof (bitmap_reachable_wf b Hb) as Hwf.
  rewrite <- (wf_num_vertices _ Hwf) in Hv.
  destruct (set_bit_spec b v Hwf Hv) as (b' & Hset & Hwf' & _ & Hnv & Hm).
  exists b'. split; [exact Hset|]. split.
  - rewrite get_bit_marked by (assumption || lia).
    rewrite Hm, Z.eqb_refl by lia. reflexivity.
  - intros u Hu. destruct (Z_lt_dec u 0) as [Hneg|Hpos].
    + rewrite !get_bit_out_of_range by lia. rewrite Hnv. reflexivity.
    + apply get_bit_agree; try assumption.
      rewrite Hm by lia. destruct (Z.eqb_spec u v); [contradiction|reflexivity].
Qed.

Lemma set_bit_then_get_bit_witness :
  exists b',
    HypercubeBitmap.set_bit
      {| HypercubeBitmap.dimension := 3; HypercubeBitmap.num_vertices := 8;
         HypercubeBitmap.num_words := 1; HypercubeBitmap.bitmap := [0] |} 5
    = Ok b' /\
    HypercubeBitmap.get_bit b' 5 = Ok true /\
    (forall u, u <> 5 ->
       HypercubeBitmap.get_bit b' u
       = HypercubeBitmap.get_bit
           {| HypercubeBitmap.dimension := 3; HypercubeBitmap.num_vertices := 8;
              HypercubeBitmap.num_words := 1; HypercubeBitmap.bitmap := [0] |} u).
Proof.
  apply (set_bit_then_get_bit
           {| HypercubeBitmap.dimension := 3; HypercubeBitmap.num_vertices := 8;
              HypercubeBitmap.num_words := 1; HypercubeBitmap.bitmap := [0] |} 5).
  - apply (reach_new 3). reflexivity.
  - cbn. lia.
Defined.

(** X2: clearing a bit succeeds on every vertex of the cube; afterwards
    [get_bit] answers [False] for that vertex, and what it answers for any
    other argument is unchanged. *)
Theorem clear_bit_then_get_bit (b : HypercubeBitmap.t) (v : Z) :
  bitmap_reachable b ->
  0 <= v < 2 ^ HypercubeBitmap.dimension b ->
  exists b', HypercubeBitmap.clear_bit b v = Ok b' /\
    HypercubeBitmap.get_bit b' v = Ok false /\
    (forall u, u <> v ->
       HypercubeBitmap.get_bit b' u = HypercubeBitmap.get_bit b u).
Proof.
  intros Hb Hv. pose proof (bitmap_reachable_wf b Hb) as Hwf.
  rewrite <- (wf_num_vertices _ Hwf) in Hv.
  destruct (clear_bit_spec b v Hwf Hv) as (b' & Hclr & Hwf' & _ & Hnv & Hm).
  exists b'. split; [exact Hclr|]. split.
  - rewrite get_bit_marked by (assumption || lia).
    rewrite Hm, Z.eqb_refl by lia. reflexivity.
  - intros u Hu. destruct (Z_lt_dec u 0) as [Hneg|Hpos].
    + rewrite !get_bit_out_of_range by lia. rewrite Hnv. reflexivity.
    + apply get_bit_agree; try assumption.
      rewrite Hm by lia. destruct (Z.eqb_spec u v); [contradiction|reflexivity].
Qed.

Lemma clear_bit_then_get_bit_witness :
  exists b',
    HypercubeBitmap.clear_bit
      {| HypercubeBitmap.dimension := 3; HypercubeBitmap.num_vertices := 8;
         HypercubeBitmap.num_words := 1; HypercubeBitmap.bitmap := [0] |} 5
    = Ok b' /\
    HypercubeBitmap.get_bit b' 5 = Ok false /\
    (forall u, u <> 5 ->
       HypercubeBitmap.get_bit b' u
       = HypercubeBitmap.get_bit
           {| HypercubeBitmap.dimension := 3; HypercubeBitmap.num_vertices := 8;
              HypercubeBitmap.num_words := 1; HypercubeBitmap.bitmap := [0] |} u).
Proof.
  apply (clear_bit_then_get_bit
           {| HypercubeBitmap.dimension := 3; HypercubeBitmap.num_vertices := 8;
              HypercubeBitmap.num_words := 1; HypercubeBitmap.bitmap := [0] |} 5).
  - apply (reach_new 3). reflexivity.
  - cbn. lia.
Defined.

(** X3: the three bit operations raise [IndexError] exactly on the
    arguments that are not vertices of the cube, negative ones included
    (the array's wrap-around indexing is never reached), and succeed on
    every vertex. *)
Theorem bit_operations_index_error (b : HypercubeBitmap.t) (v : Z) :
  bitmap_reachable b ->
  (0 <= v < 2 ^ HypercubeBitmap.dimension b ->
   (exists m, HypercubeBitmap.get_bit b v = Ok m) /\
   (exists b', HypercubeBitmap.set_bit b v = Ok b') /\
   (exists b', HypercubeBitmap.clear_bit b v = Ok b'))
  /\
  (~ (0 <= v < 2 ^ HypercubeBitmap.dimension b) ->
   let e := IndexError v (2 ^ HypercubeBitmap.dimension b) in
   HypercubeBitmap.get_bit b v = Err e /\
   HypercubeBitmap.set_bit b v = Err e /\
   HypercubeBitmap.clear_bit b v = Err e).
Proof.
  intros Hb. pose proof (bitmap_reachable_wf b Hb) as Hwf.
  rewrite <- (wf_num_vertices _ Hwf). split.
  - intros Hv. split; [|split].
    + eexists. apply get_bit_marked; assumption.
    + destruct (set_bit_spec b v Hwf Hv) as (b' & Hset & _). eauto.
    + destruct (clear_bit_spec b v Hwf Hv) as (b' & Hclr & _). eauto.
  - intros Hv. cbv zeta.
    rewrite get_bit_out_of_range, set_bit_out_of_range, clear_bit_out_of_range
      by assumption.
    auto.
Qed.

Lemma bit_operations_index_error_witness :
  let b := {| HypercubeBitmap.dimension := 3; HypercubeBitmap.num_vertices := 8;
              HypercubeBitmap.num_words := 1; HypercubeBitmap.bitmap := [0] |} in
  HypercubeBitmap.get_bit b (-1) = Err (IndexError (-1) 8) /\
  HypercubeBitmap.set_bit b (-1) = Err (IndexError (-1) 8) /\
  HypercubeBitmap.clear_bit b (-1) = Err (IndexError (-1) 8).
Proof.
  intros b.
  refine (proj2 (bit_operations_index_error b (-1) _) _).
  - apply (reach_new 3). reflexivity.
  - cbn. lia.
Defined.

(** ** [HypercubeBitmap]: construction, reset, copy and counting *)

Lemma count_unmarked_none b :
  bitmap_wf b -> (forall v, marked b v = false) ->
  HypercubeBitmap.count_unmarked b = Ok (2 ^ HypercubeBitmap.dimension b) /\
  HypercubeBitmap.count_unmarked_fast b = 2 ^ HypercubeBitmap.dimension b.
Proof.
  intros Hwf Hm.
  assert (Hc : count_if (fun v => negb (marked b v))
                 (zrange (HypercubeBitmap.num_vertices b))
               = 2 ^ HypercubeBitmap.dimension b).
  { rewrite count_if_negb, count_if_false by (intros; apply Hm).
    pose proof (wf_num_vertices_pos b Hwf).
    rewrite zrange_length by lia. rewrite (wf_num_vertices _ Hwf). lia. }
  rewrite count_unmarked_spec, count_unmarked_fast_spec, Hc by assumption.
  auto.
Qed.

(** X4: [HypercubeBitmap(d)] raises [ValueError] exactly when [d < 1];
    otherwise the new bitmap has no marked vertex, and both counting
    methods give [2 ** d]. *)
Theorem new_bitmap_is_empty (d : Z) :
  (d < 1 -> HypercubeBitmap.new d = Err (ValueError (DimensionTooSmall d)))
  /\
  (1 <= d ->
   exists b, HypercubeBitmap.new d = Ok b /\
     HypercubeBitmap.dimension b = d /\
     HypercubeBitmap.num_vertices b = 2 ^ d /\
     (forall v, 0 <= v < 2 ^ d -> HypercubeBitmap.get_bit b v = Ok false) /\
     HypercubeBitmap.count_unmarked b = Ok (2 ^ d) /\
     HypercubeBitmap.count_unmarked_fast b = 2 ^ d).
Proof.
  split.
  - intros Hd. unfold HypercubeBitmap.new.
    destruct (Z.ltb_spec d 1); [reflexivity|lia].
  - intros Hd. destruct (new_bitmap_spec d Hd) as (b & Hnew & Hwf & Hdim & Hm).
    exists b. split; [exact Hnew|]. split; [exact Hdim|].
    pose proof (wf_num_vertices _ Hwf) as Hnv. rewrite Hdim in Hnv.
    split; [exact Hnv|]. split.
    + intros v Hv. rewrite get_bit_marked, Hm by (assumption || lia).
      reflexivity.
    + rewrite <- Hdim. apply count_unmarked_none; assumption.
Qed.

Lemma clear_all_loop_zero l :
  forall words,
    (forall i, In i l -> 0 <= i < Z.of_nat (length words)) ->
    exists words',
      for_each l (fun i words => array_set words i 0) words = Ok words' /\
      length words' = length words /\
      (forall k w, words' !! k = Some w -> In (Z.of_nat k) l -> w = 0).
Proof.
  induction l as [|i l IH]; intros words Hl; cbn [for_each].
  - exists words. split; [reflexivity|]. split; [reflexivity|].
    intros k w _ [].
  - assert (Hi : 0 <= i < Z.of_nat (length words)) by (apply Hl; left; reflexivity).
    rewrite array_set_insert by lia. cbn [bind].
    destruct (clear_all_loop l (<[Z.to_nat i := 0]> words))
      as (words' & Hrun & Hlen & Hold).
    { intros j Hj. rewrite length_insert. apply Hl. right. exact Hj. }
    destruct (IH (<[Z.to_nat i := 0]> words)) as (words'' & Hrun' & _ & Hzero).
    { intros j Hj. rewrite length_insert. apply Hl. right. exact Hj. }
    rewrite Hrun in Hrun'. injection Hrun' as <-.
    exists words'. split; [exact Hrun|]. split.
    + rewrite Hlen. apply length_insert.
    + intros k w Hk [Hki | Hkl]; [|eauto].
      destruct (Hold k w Hk) as [-> | Hk']; [reflexivity|].
      subst i. rewrite Nat2Z.id in Hk'.
      rewrite list_lookup_insert_eq in Hk' by lia. congruence.
Qed.

(** X5: [clear_all] never fails; afterwards no vertex is marked and the
    count of unmarked vertices is [2 ** dimension] again. *)
Theorem clear_all_resets (b : HypercubeBitmap.t) :
  bitmap_reachable b ->
  exists b', HypercubeBitmap.clear_all b = Ok b' /\
    HypercubeBitmap.dimension b' = HypercubeBitmap.dimension b /\
    (forall v, 0 <= v < 2 ^ HypercubeBitmap.dimension b ->
       HypercubeBitmap.get_bit b' v = Ok false) /\
    HypercubeBitmap.count_unmarked b' = Ok (2 ^ HypercubeBitmap.dimension b).
Proof.
  intros Hb. pose proof (bitmap_reachable_wf b Hb) as Hwf.
  destruct (clear_all_loop_zero (zrange (HypercubeBitmap.num_words b))
              (HypercubeBitmap.bitmap b)) as (words' & Hrun & Hlen & Hzero).
  { intros i Hi. apply in_zrange in Hi. rewrite (wf_length _ Hwf). exact Hi. }
  assert (Hclear : HypercubeBitmap.clear_all b
                   = Ok (HypercubeBitmap.with_bitmap b words')).
  { unfold HypercubeBitmap.clear_all. rewrite Hrun. reflexivity. }
  pose proof (clear_all_wf b _ Hwf Hclear) as Hwf'.
  assert (Hm : forall v, marked (HypercubeBitmap.with_bitmap b words') v = false).
  { intros v. unfold marked. cbn [HypercubeBitmap.bitmap HypercubeBitmap.with_bitmap].
    destruct (words' !! Z.to_nat (v / 64)) as [w|] eqn:Hw; [|reflexivity].
    rewrite (Hzero _ _ Hw); [apply Z.bits_0|].
    apply in_zrange. apply lookup_lt_Some in Hw.
    rewrite <- (wf_length _ Hwf). lia. }
  exists (HypercubeBitmap.with_bitmap b words').
  split; [exact Hclear|]. split; [reflexivity|]. split.
  - intros v Hv. rewrite get_bit_marked, Hm; [reflexivity|assumption|].
    cbn [HypercubeBitmap.num_vertices HypercubeBitmap.with_bitmap].
    rewrite (wf_num_vertices _ Hwf). exact Hv.
  - apply (count_unmarked_none _ Hwf' Hm).
Qed.

Lemma clear_all_resets_witness :
  exists b',
    HypercubeBitmap.clear_all
      {| HypercubeBitmap.dimension := 3; HypercubeBitmap.num_vertices := 8;
         HypercubeBitmap.num_words := 1; HypercubeBitmap.bitmap := [0] |}
    = Ok b' /\
    HypercubeBitmap.dimension b' = 3 /\
    (forall v, 0 <= v < 2 ^ 3 -> HypercubeBitmap.get_bit b' v = Ok false) /\
    HypercubeBitmap.count_unmarked b' = Ok (2 ^ 3).
Proof.
  apply (clear_all_resets
           {| HypercubeBitmap.dimension := 3; HypercubeBitmap.num_vertices := 8;
              HypercubeBitmap.num_words := 1; HypercubeBitmap.bitmap := [0] |}).
  apply (reach_new 3). reflexivity.
Defined.

(** Counting after one more element satisfies the predicate. *)
Lemma count_if_add (f : Z -> bool) (v : Z) (l : list Z) :
  List.NoDup l -> In v l ->
  count_if (fun u => (u =? v) || f u) l
  = count_if f l + (if f v then 0 else 1).
Proof.
  induction l as [|x l IH]; intros Hnd Hin; [destruct Hin|].
  inversion Hnd as [|? ? Hx Hnd']; subst. cbn [count_if].
  destruct (Z.eqb_spec x v) as [->|Hne].
  - cbn [orb].
    assert (Hrest : count_if (fun u => (u =? v) || f u) l = count_if f l).
    { apply count_if_ext_in. intros u Hu.
      destruct (Z.eqb_spec u v) as [->|]; [contradiction|reflexivity]. }
    rewrite Hrest. destruct (f v); cbn [Z.b2z]; lia.
  - cbn [orb]. destruct Hin as [Heq|Hin]; [congruence|].
    rewrite IH by assumption. lia.
Qed.

(** X6: marking a vertex lowers the count of unmarked vertices by exactly
    one when the vertex was unmarked, and leaves it unchanged when the
    vertex was marked already. *)
Theorem set_bit_count_unmarked (b : HypercubeBitmap.t) (v : Z) :
  bitmap_reachable b ->
  0 <= v < 2 ^ HypercubeBitmap.dimension b ->
  exists b' m c,
    HypercubeBitmap.set_bit b v = Ok b' /\
    HypercubeBitmap.get_bit b v = Ok m /\
    HypercubeBitmap.count_unmarked b = Ok c /\
    HypercubeBitmap.count_unmarked b' = Ok (if m then c else c - 1).
Proof.
  intros Hb Hv. pose proof (bitmap_reachable_wf b Hb) as Hwf.
  rewrite <- (wf_num_vertices _ Hwf) in Hv.
  destruct (set_bit_spec b v Hwf Hv) as (b' & Hset & Hwf' & _ & Hnv & Hm).
  exists b', (marked b v),
    (count_if (fun u => negb (marked b u)) (zrange (HypercubeBitmap.num_vertices b))).
  split; [exact Hset|]. split; [apply get_bit_marked; assumption|].
  split; [apply count_unmarked_spec; assumption|].
  rewrite count_unmarked_spec, Hnv by assumption. f_equal.
  rewrite !count_if_negb.
  rewrite (count_if_ext_in (marked b') (fun u => (u =? v) || marked b u)).
  - rewrite count_if_add; [|apply zrange_NoDup|apply in_zrange; exact Hv].
    destruct (marked b v); lia.
  - intros u Hu. apply in_zrange in Hu. apply Hm. lia.
Qed.

Lemma set_bit_count_unmarked_witness :
  exists b' m c,
    HypercubeBitmap.set_bit
      {| HypercubeBitmap.dimension := 3; HypercubeBitmap.num_vertices := 8;
         HypercubeBitmap.num_words := 1; HypercubeBitmap.bitmap := [0] |} 5
    = Ok b' /\
    HypercubeBitmap.get_bit
      {| HypercubeBitmap.dimension := 3; HypercubeBitmap.num_vertices := 8;
         HypercubeBitmap.num_words := 1; HypercubeBitmap.bitmap := [0] |} 5
    = Ok m /\
    HypercubeBitmap.count_unmarked
      {| HypercubeBitmap.dimension := 3; HypercubeBitmap.num_vertices := 8;
         HypercubeBitmap.num_words := 1; HypercubeBitmap.bitmap := [0] |}
    = Ok c /\
    HypercubeBitmap.count_unmarked b' = Ok (if m then c else c - 1).
Proof.
  apply (set_bit_count_unmarked
           {| HypercubeBitmap.dimension := 3; HypercubeBitmap.num_vertices := 8;
              HypercubeBitmap.num_words := 1; HypercubeBitmap.bitmap := [0] |} 5).
  - apply (reach_new 3). reflexivity.
  - cbn. lia.
Defined.

(** X7: [copy] never fails on a bitmap built by the class, and the copy has
    the same dimension, sizes and words as the original. *)
Theorem copy_is_identical (b : HypercubeBitmap.t) :
  bitmap_reachable b -> HypercubeBitmap.copy b = Ok b.
Proof.
  intros Hb. pose proof (bitmap_reachable_wf b Hb) as Hwf.
  destruct (new_bitmap_spec _ (wf_dimension _ Hwf)) as (b0 & Hnew & Hwf0 & Hdim0 & _).
  unfold HypercubeBitmap.copy. rewrite Hnew. cbn [bind]. f_equal.
  pose proof (wf_num_vertices _ Hwf) as Hnv.
  pose proof (wf_num_words _ Hwf) as Hnw.
  pose proof (wf_num_vertices _ Hwf0) as Hnv0.
  pose proof (wf_num_words _ Hwf0) as Hnw0.
  unfold HypercubeBitmap.with_bitmap. destruct b as [d nv nw words].
  cbn in *. rewrite Hnw0, Hnv0, Hdim0. subst nw nv. reflexivity.
Qed.

Lemma copy_is_identical_witness :
  HypercubeBitmap.copy
    {| HypercubeBitmap.dimension := 3; HypercubeBitmap.num_vertices := 8;
       HypercubeBitmap.num_words := 1; HypercubeBitmap.bitmap := [0] |}
  = Ok {| HypercubeBitmap.dimension := 3; HypercubeBitmap.num_vertices := 8;
          HypercubeBitmap.num_words := 1; HypercubeBitmap.bitmap := [0] |}.
Proof.
  apply (copy_is_identical
           {| HypercubeBitmap.dimension := 3; HypercubeBitmap.num_vertices := 8;
              HypercubeBitmap.num_words := 1; HypercubeBitmap.bitmap := [0] |}).
  apply (reach_new 3). reflexivity.
Defined.

(** ** The transition/vertex codec *)

Lemma transition_to_vertex_loop_inv dimension ts :
  forall current vertices r,
    transition_to_vertex_loop dimension ts current vertices = Ok r ->
    Forall (in_range dimension) ts /\ r = vertices ++ path_from current ts.
Proof.
  induction ts as [|t ts IH]; intros current vertices r; cbn [transition_to_vertex_loop].
  - intros [= <-]. split; [constructor|]. cbn [path_from]. rewrite app_nil_r. reflexivity.
  - destruct (Z.ltb_spec t 0); [discriminate|].
    destruct (Z.geb_spec t dimension); [discriminate|]. cbn [orb].
    intros Hr. apply IH in Hr as [Hts ->]. split.
    + constructor; [unfold in_range; lia|assumption].
    + cbn [path_from]. rewrite <- app_assoc. reflexivity.
Qed.

Lemma transition_to_vertex_loop_error dimension l1 t l2 :
  Forall (in_range dimension) l1 -> ~ in_range dimension t ->
  forall current vertices,
    transition_to_vertex_loop dimension (l1 ++ t :: l2) current vertices
    = Err (ValueError (TransitionOutOfRange t dimension)).
Proof.
  intros Hl1 Ht. induction Hl1 as [|x l1 Hx _ IH]; intros current vertices;
    cbn [app transition_to_vertex_loop].
  - unfold in_range in Ht.
    destruct (Z.ltb_spec t 0); [reflexivity|].
    destruct (Z.geb_spec t dimension); [reflexivity|lia].
  - unfold in_range in Hx.
    destruct (Z.ltb_spec x 0); [lia|].
    destruct (Z.geb_spec x dimension); [lia|]. cbn [orb]. apply IH.
Qed.

Lemma nth_path_from ts :
  forall current i, (i < length ts)%nat ->
    nth (S i) (current :: path_from current ts) 0
    = Z.lxor (nth i (current :: path_from current ts) 0)
        (Z.shiftl 1 (nth i ts 0)).
Proof.
  induction ts as [|t ts IH]; intros current i Hi; [cbn in Hi; lia|].
  destruct i as [|i]; [reflexivity|].
  cbn [length] in Hi. cbn [path_from].
  change (nth (S (S i)) (current :: ?x :: ?l) 0) with (nth (S i) (x :: l) 0).
  change (nth (S i) (current :: ?x :: ?l) 0) with (nth i (x :: l) 0).
  change (nth (S i) (t :: ts) 0) with (nth i ts 0).
  apply IH. lia.
Qed.

(** X8: [transition_to_vertex] succeeds exactly on the sequences whose
    transitions all lie in [[0, dimension)]; the result then starts at
    the start vertex, has one vertex more than there are transitions, and
    each vertex is the previous one with the bit of its transition flipped.
    Otherwise the [ValueError] reports the first offending transition. *)
Theorem transition_to_vertex_result (seq : list Z) (dimension start_vertex : Z) :
  (Forall (in_range dimension) seq ->
   exists vs, transition_to_vertex seq dimension start_vertex = Ok vs /\
     length vs = S (length seq) /\
     nth 0 vs 0 = start_vertex /\
     (forall i, (i < length seq)%nat ->
        nth (S i) vs 0 = Z.lxor (nth i vs 0) (Z.shiftl 1 (nth i seq 0))))
  /\
  (forall l1 t l2,
     seq = l1 ++ t :: l2 -> Forall (in_range dimension) l1 ->
     ~ in_range dimension t ->
     transition_to_vertex seq dimension start_vertex
     = Err (ValueError (TransitionOutOfRange t dimension)))
  /\
  ((exists vs, transition_to_vertex seq dimension start_vertex = Ok vs) ->
   Forall (in_range dimension) seq).
Proof.
  split; [|split].
  - intros Hseq. exists (start_vertex :: path_from start_vertex seq).
    unfold transition_to_vertex.
    rewrite transition_to_vertex_loop_ok by assumption. cbn [app].
    split; [reflexivity|]. split; [|split].
    + cbn [length]. rewrite path_from_length. reflexivity.
    + reflexivity.
    + intros i Hi. apply nth_path_from. exact Hi.
  - intros l1 t l2 -> Hl1 Ht. unfold transition_to_vertex.
    apply transition_to_vertex_loop_error; assumption.
  - intros [vs Hvs]. unfold transition_to_vertex in Hvs.
    apply transition_to_vertex_loop_inv in Hvs. apply Hvs.
Qed.

(** A number with a single bit set is a power of two. *)
Lemma single_bit_pow2 (x : Z) :
  x <> 0 -> Z.land x (x - 1) = 0 -> 0 < x /\ x = 2 ^ Z.log2 x.
Proof.
  intros Hx Hland.
  assert (Hpos : 0 < x).
  { destruct (Z_lt_dec 0 x); [assumption|]. exfalso.
    assert (Z.land x (x - 1) < 0) by (apply Z.land_neg; lia). lia. }
  split; [assumption|].
  destruct (Z.log2_spec x Hpos) as [Hlo Hhi].
  destruct (Z.eq_dec x (2 ^ Z.log2 x)) as [|Hne]; [assumption|exfalso].
  assert (Hpow : 0 < 2 ^ Z.log2 x)
    by (apply Z.pow_pos_nonneg; [lia|apply Z.log2_nonneg]).
  assert (Hlog : Z.log2 (x - 1) = Z.log2 x).
  { apply Z.log2_unique; [apply Z.log2_nonneg|]. lia. }
  assert (Hb1 : Z.testbit x (Z.log2 x) = true) by (apply Z.bit_log2; lia).
  assert (Hb2 : Z.testbit (x - 1) (Z.log2 x) = true).
  { rewrite <- Hlog. apply Z.bit_log2. lia. }
  assert (Hb : Z.testbit (Z.land x (x - 1)) (Z.log2 x) = true)
    by (rewrite Z.land_spec, Hb1, Hb2; reflexivity).
  rewrite Hland, Z.bits_0 in Hb. discriminate.
Qed.

Lemma single_bit_transition (a b : Z) :
  Z.lxor a b <> 0 ->
  Z.land (Z.lxor a b) (Z.lxor a b - 1) = 0 ->
  0 <= bit_length (Z.lxor a b) - 1 /\
  b = Z.lxor a (Z.shiftl 1 (bit_length (Z.lxor a b) - 1)).
Proof.
  intros Hne Hland. destruct (single_bit_pow2 _ Hne Hland) as [Hpos Hpow].
  unfold bit_length. destruct (Z.eqb_spec (Z.lxor a b) 0); [contradiction|].
  rewrite Z.abs_eq by lia.
  replace (Z.log2 (Z.lxor a b) + 1 - 1) with (Z.log2 (Z.lxor a b)) by lia.
  split; [apply Z.log2_nonneg|].
  rewrite Z.shiftl_1_l, <- Hpow. symmetry. apply lxor_flip_back.
Qed.

Lemma vertex_to_transition_from_cons i a b rest :
  vertex_to_transition_from i (a :: b :: rest)
  = if Z.lxor a b =? 0 then Err (ValueError (IdenticalVertices i a))
    else if negb (Z.land (Z.lxor a b) (Z.lxor a b - 1) =? 0)
    then Err (ValueError (MultipleBits i a b))
    else
      transitions <- vertex_to_transition_from (S i) (b :: rest) ;;
      Ok (bit_length (Z.lxor a b) - 1 :: transitions).
Proof. reflexivity. Qed.

Lemma vertex_to_transition_from_inv rest :
  forall a i ts,
    vertex_to_transition_from i (a :: rest) = Ok ts ->
    rest = path_from a ts /\ Forall (fun t => 0 <= t) ts.
Proof.
  induction rest as [|b rest IH]; intros a i ts.
  - cbn. intros [= <-]. split; [reflexivity|constructor].
  - rewrite vertex_to_transition_from_cons.
    destruct (Z.eqb_spec (Z.lxor a b) 0) as [|Hne]; [discriminate|].
    destruct (Z.eqb_spec (Z.land (Z.lxor a b) (Z.lxor a b - 1)) 0) as [Hland|];
      [|discriminate].
    cbn [negb].
    destruct (vertex_to_transition_from (S i) (b :: rest)) as [ts'|] eqn:Hrec;
      cbn [bind]; [|discriminate].
    intros [= <-].
    destruct (IH _ _ _ Hrec) as [Hrest Hts'].
    destruct (single_bit_transition a b Hne Hland) as [Hk Hb].
    split; [|constructor; assumption].
    cbn [path_from]. rewrite <- Hb, <- Hrest. reflexivity.
Qed.

(** X9: the codec's round trip from the vertex side.  When
    [vertex_to_transition] accepts a non-empty vertex sequence, the
    transitions it returns are non-negative, there is one fewer of them
    than vertices, and replaying them from the first vertex in any
    dimension above them gives the vertex sequence back. *)
Theorem vertex_transition_roundtrip (v0 : Z) (rest ts : list Z) (dimension : Z) :
  vertex_to_transition (v0 :: rest) = Ok ts ->
  (forall t, In t ts -> t < dimension) ->
  Forall (in_range dimension) ts /\
  length ts = length rest /\
  transition_to_vertex ts dimension v0 = Ok (v0 :: rest).
Proof.
  intros Hts Hlt.
  assert (Hfrom : vertex_to_transition_from 0 (v0 :: rest) = Ok ts).
  { revert Hts. unfold vertex_to_transition.
    destruct rest as [|b rest]; [cbn; auto|]. cbn [length Nat.ltb Nat.leb]. auto. }
  destruct (vertex_to_transition_from_inv _ _ _ _ Hfrom) as [Hrest Hpos].
  assert (Hrange : Forall (in_range dimension) ts).
  { apply List.Forall_forall. intros t Ht. split.
    - rewrite List.Forall_forall in Hpos. apply Hpos, Ht.
    - apply Hlt, Ht. }
  split; [exact Hrange|]. split.
  - rewrite Hrest, path_from_length. reflexivity.
  - unfold transition_to_vertex.
    rewrite transition_to_vertex_loop_ok by assumption.
    cbn [app]. rewrite <- Hrest. reflexivity.
Qed.

Lemma vertex_transition_roundtrip_witness :
  Forall (in_range 3) [0; 1; 2; 0] /\
  length [0; 1; 2; 0] = length [1; 3; 7; 6] /\
  transition_to_vertex [0; 1; 2; 0] 3 0 = Ok [0; 1; 3; 7; 6].
Proof.
  apply (vertex_transition_roundtrip 0 [1; 3; 7; 6] [0; 1; 2; 0] 3).
  - reflexivity.
  - intros t Ht. repeat (destruct Ht as [<- | Ht]; [reflexivity|]). destruct Ht.
Defined.

(** ** Hamming distance *)

Lemma bin_digits_count_pos (p : positive) :
  1 <= str_count (bin_digits p) "1"%char.
Proof.
  induction p as [q IH|q IH|]; cbn [bin_digits].
  - rewrite str_count_app. cbn. lia.
  - rewrite str_count_app. cbn. lia.
  - cbn. lia.
Qed.

Lemma popcount_pos (p : positive) :
  popcount (Zpos p) = str_count (bin_digits p) "1"%char.
Proof.
  unfold popcount, bin. rewrite str_count_app. reflexivity.
Qed.

Lemma popcount_neg (p : positive) :
  popcount (Zneg p) = str_count (bin_digits p) "1"%char.
Proof.
  unfold popcount, bin. rewrite str_count_app. reflexivity.
Qed.

Lemma popcount_nonneg (x : Z) : 0 <= popcount x.
Proof.
  destruct x as [|p|p]; [cbv; discriminate| |].
  - rewrite popcount_pos. pose proof (bin_digits_count_pos p). lia.
  - rewrite popcount_neg. pose proof (bin_digits_count_pos p). lia.
Qed.

Lemma popcount_zero_iff (x : Z) : popcount x = 0 <-> x = 0.
Proof.
  split; [|intros ->; reflexivity].
  destruct x as [|p|p]; [reflexivity| |]; intros Hc; exfalso.
  - rewrite popcount_pos in Hc. pose proof (bin_digits_count_pos p). lia.
  - rewrite popcount_neg in Hc. pose proof (bin_digits_count_pos p). lia.
Qed.

Lemma bin_digits_one (p : positive) :
  str_count (bin_digits p) "1"%char = 1 -> exists k, 0 <= k /\ Zpos p = 2 ^ k.
Proof.
  induction p as [q IH|q IH|]; cbn [bin_digits].
  - rewrite str_count_app. pose proof (bin_digits_count_pos q).
    cbn [str_count]. cbn. lia.
  - rewrite str_count_app. cbn [str_count]. cbn. rewrite Z.add_0_r. intros Hq.
    destruct (IH Hq) as (k & Hk & Hpow). exists (k + 1). split; [lia|].
    rewrite Z.pow_add_r, Z.pow_1_r, <- Hpow by lia. lia.
  - intros _. exists 0. split; [lia|reflexivity].
Qed.

Lemma popcount_pow2 (k : Z) : 0 <= k -> popcount (2 ^ k) = 1.
Proof.
  revert k. apply natlike_ind; [reflexivity|].
  intros k Hk IH. rewrite Z.pow_succ_r by assumption.
  assert (Hpos : 0 < 2 ^ k) by (apply Z.pow_pos_nonneg; lia).
  destruct (2 ^ k) as [|p|p]; [lia| |lia].
  change (2 * Z.pos p) with (Z.pos p~0).
  rewrite popcount_pos in *. cbn [bin_digits]. rewrite str_count_app.
  rewrite IH. reflexivity.
Qed.

Lemma popcount_one_iff (x : Z) :
  0 <= x -> (popcount x = 1 <-> x <> 0 /\ Z.land x (x - 1) = 0).
Proof.
  intros Hx. split.
  - intros Hc. destruct x as [|p|p]; [discriminate| |lia].
    rewrite popcount_pos in Hc. destruct (bin_digits_one p Hc) as (k & Hk & ->).
    destruct (pow2_single_bit k Hk) as (Hne & Hland & _).
    rewrite Z.shiftl_1_l in Hne, Hland. auto.
  - intros [Hne Hland]. destruct (single_bit_pow2 x Hne Hland) as [_ ->].
    apply popcount_pow2, Z.log2_nonneg.
Qed.

(** X10: [hamming_distance] is symmetric and non-negative, it is zero
    exactly when its arguments are equal, and on numbers of [k] bits it is
    the number of bit positions below [k] in which they differ. *)
Theorem hamming_distance_properties (a b : Z) :
  hamming_distance a b = hamming_distance b a /\
  0 <= hamming_distance a b /\
  (hamming_distance a b = 0 <-> a = b) /\
  (forall k, 0 <= k -> 0 <= a < 2 ^ k -> 0 <= b < 2 ^ k ->
     hamming_distance a b
     = count_if (fun i => xorb (Z.testbit a i) (Z.testbit b i)) (zrange k)).
Proof.
  change (hamming_distance a b) with (popcount (Z.lxor a b)).
  change (hamming_distance b a) with (popcount (Z.lxor b a)).
  split; [rewrite Z.lxor_comm; reflexivity|].
  split; [apply popcount_nonneg|]. split.
  - rewrite popcount_zero_iff. apply Z.lxor_eq_0_iff.
  - intros k Hk Ha Hb.
    rewrite (popcount_bits _ (Z.to_nat k))
      by (rewrite Z2Nat.id by assumption; apply lxor_in_range; assumption).
    apply count_if_ext_in. intros i _. apply Z.lxor_spec.
Qed.

(** ** [vertex_to_transition] against the validator's adjacency rule *)

Lemma consecutive_ok_cons (a b : Z) (rest : list Z) :
  consecutive_ok (a :: b :: rest) <->
  hamming_distance a b = 1 /\ consecutive_ok (b :: rest).
Proof.
  unfold consecutive_ok. split.
  - intros Hall. split.
    + apply (Hall 0%nat). cbn [length]. lia.
    + intros i Hi. specialize (Hall (S i)).
      cbn [length] in Hall, Hi. apply Hall. lia.
  - intros [Hab Hrest] [|i] Hi; [exact Hab|].
    cbn [length] in Hi. apply (Hrest i). cbn [length]. lia.
Qed.

Lemma vertex_to_transition_from_defined (vs : list Z) :
  Forall (fun v => 0 <= v) vs ->
  forall i,
    (exists ts, vertex_to_transition_from i vs = Ok ts) <-> consecutive_ok vs.
Proof.
  induction vs as [|a vs IH]; intros Hpos i.
  - split; [|intros _; exists []; reflexivity].
    intros _ j Hj. cbn in Hj. lia.
  - destruct vs as [|b rest].
    + split; [|intros _; exists []; reflexivity].
      intros _ j Hj. cbn in Hj. lia.
    + inversion Hpos as [|? ? Ha Hvs]; subst.
      inversion Hvs as [|? ? Hb _]; subst.
      rewrite vertex_to_transition_from_cons, consecutive_ok_cons.
      change (hamming_distance a b) with (popcount (Z.lxor a b)).
      assert (Hx : 0 <= Z.lxor a b) by (apply Z.lxor_nonneg; tauto).
      rewrite (popcount_one_iff _ Hx), <- (IH Hvs (S i)).
      destruct (Z.eqb_spec (Z.lxor a b) 0) as [Hz|Hnz].
      { split; [intros [ts Hts]; discriminate|tauto]. }
      destruct (Z.eqb_spec (Z.land (Z.lxor a b) (Z.lxor a b - 1)) 0)
        as [Hland|Hland]; cbn [negb].
      * split.
        -- intros [ts Hts].
           destruct (vertex_to_transition_from (S i) (b :: rest)) as [ts'|];
             [eauto|discriminate].
        -- intros (_ & ts' & ->). eexists. reflexivity.
      * split; [intros [ts Hts]; discriminate|tauto].
Qed.

Lemma validate_snake_accepts (vs : list Z) :
  fst (validate_snake vs) = true <->
  (length vs < 2)%nat \/ (consecutive_ok vs /\ non_consecutive_ok vs).
Proof.
  unfold validate_snake.
  destruct (Nat.ltb_spec (length vs) 2) as [Hlt|Hge]; [cbn; tauto|].
  destruct (for_first (range (length vs - 1)) (check_consecutive vs)) as [r|] eqn:Hc.
  - cbn [fst]. split; [discriminate|]. intros [Hlen|[Hok _]]; [lia|].
    apply consecutive_loop_None in Hok. congruence.
  - apply consecutive_loop_None in Hc.
    destruct (for_first (range_from 2 (length vs)) _) as [r|] eqn:Hn.
    + cbn [fst]. split; [discriminate|]. intros [Hlen|[_ Hok]]; [lia|].
      apply non_consecutive_loop_None in Hok. congruence.
    + apply non_consecutive_loop_None in Hn. cbn [fst]. tauto.
Qed.

(** X11: on non-negative vertices [vertex_to_transition] succeeds exactly
    when every two consecutive vertices are at Hamming distance 1, the
    validator's adjacency rule; in particular it succeeds on every
    sequence of non-negative vertices that [validate_snake] accepts. *)
Theorem vertex_to_transition_defined (vs : list Z) :
  Forall (fun v => 0 <= v) vs ->
  ((exists ts, vertex_to_transition vs = Ok ts) <-> consecutive_ok vs) /\
  (fst (validate_snake vs) = true -> exists ts, vertex_to_transition vs = Ok ts).
Proof.
  intros Hpos.
  assert (Hiff : (exists ts, vertex_to_transition vs = Ok ts) <-> consecutive_ok vs).
  { unfold vertex_to_transition.
    destruct (Nat.ltb_spec (length vs) 2) as [Hlt|Hge].
    - split; [|intros _; exists []; reflexivity].
      intros _ j Hj. lia.
    - apply vertex_to_transition_from_defined. exact Hpos. }
  split; [exact Hiff|].
  intros Hvalid. apply validate_snake_accepts in Hvalid as [Hlen|[Hok _]].
  - apply Hiff. intros j Hj. lia.
  - apply Hiff, Hok.
Qed.

Lemma vertex_to_transition_defined_witness :
  ((exists ts, vertex_to_transition [0; 1; 3; 7; 6] = Ok ts)
   <-> consecutive_ok [0; 1; 3; 7; 6]) /\
  (fst (validate_snake [0; 1; 3; 7; 6]) = true ->
   exists ts, vertex_to_transition [0; 1; 3; 7; 6] = Ok ts).
Proof.
  apply (vertex_to_transition_defined [0; 1; 3; 7; 6]).
  repeat constructor; discriminate.
Defined.

(** ** The current vertex *)

Lemma end_vertex_cons (c t : Z) (ts : list Z) :
  end_vertex c (t :: ts) = end_vertex (Z.lxor c (Z.shiftl 1 t)) ts.
Proof. reflexivity. Qed.

Lemma last_path_from (ts : list Z) :
  forall c, List.last (c :: path_from c ts) 0 = end_vertex c ts.
Proof.
  induction ts as [|t ts IH]; intros c; [reflexivity|].
  cbn [path_from]. rewrite end_vertex_cons, <- IH. reflexivity.
Qed.

Lemma end_vertex_nonneg (ts : list Z) :
  forall c, 0 <= c -> 0 <= end_vertex c ts.
Proof.
  induction ts as [|t ts IH]; intros c Hc; [exact Hc|].
  rewrite end_vertex_cons. apply IH. apply Z.lxor_nonneg.
  split; intros _; [|exact Hc]. apply Z.shiftl_nonneg. lia.
Qed.

(** Bit [d] of the end vertex tells whether [d] occurs an odd number of
    times among the transitions. *)
Lemma end_vertex_testbit (ts : list Z) :
  Forall (fun t => 0 <= t) ts ->
  forall c d, 0 <= d ->
    Z.testbit (end_vertex c ts) d
    = xorb (Z.testbit c d) (Nat.odd (count_occ Z.eq_dec ts d)).
Proof.
  induction 1 as [|t ts Ht _ IH]; intros c d Hd.
  - cbn. rewrite xorb_false_r. reflexivity.
  - rewrite end_vertex_cons, IH by assumption.
    rewrite Z.lxor_spec, Z.shiftl_1_l, Z.pow2_bits_eqb by assumption.
    cbn [count_occ]. destruct (Z.eq_dec t d) as [->|Hne].
    + rewrite Z.eqb_refl, Nat.odd_succ, <- Nat.negb_odd.
      destruct (Z.testbit c d), (Nat.odd (count_occ Z.eq_dec ts d)); reflexivity.
    + destruct (Z.eqb_spec t d); [contradiction|].
      rewrite xorb_false_r. reflexivity.
Qed.

Lemma compute_current_vertex_negative (seq : list Z) :
  Exists (fun t => t < 0) seq ->
  forall current,
    for_each seq
      (fun transition vertex =>
         bit <- py_lshift 1 transition ;; Ok (Z.lxor vertex bit)) current
    = Err (ValueError NegativeShiftCount).
Proof.
  induction seq as [|t seq IH]; intros Hex current; [inversion Hex|].
  cbn [for_each]. unfold py_lshift at 1.
  destruct (Z.ltb_spec t 0) as [Hneg|Hpos]; [reflexivity|].
  cbn [bind]. apply IH.
  inversion Hex as [? ? Hneg|]; subst; [lia|assumption].
Qed.

(** X12: [compute_current_vertex] succeeds on non-negative transitions;
    bit [d] of its result is set exactly when [d] occurs an odd number of
    times in the sequence (so the result does not depend on the order of
    the transitions), and the result is the last vertex that
    [transition_to_vertex] lists from vertex 0.  A negative transition makes
    the shift raise [ValueError]. *)
Theorem compute_current_vertex_parity (seq : list Z) :
  (Forall (fun t => 0 <= t) seq ->
   exists v, compute_current_vertex seq = Ok v /\ 0 <= v /\
     (forall d, 0 <= d ->
        Z.testbit v d = Nat.odd (count_occ Z.eq_dec seq d)) /\
     (forall dimension vs,
        transition_to_vertex seq dimension 0 = Ok vs -> List.last vs 0 = v))
  /\
  (Exists (fun t => t < 0) seq ->
   compute_current_vertex seq = Err (ValueError NegativeShiftCount)).
Proof.
  split.
  - intros Hpos. exists (end_vertex 0 seq). split; [|split; [|split]].
    + apply compute_current_vertex_from. exact Hpos.
    + apply end_vertex_nonneg. lia.
    + intros d Hd. rewrite end_vertex_testbit by assumption.
      rewrite Z.bits_0. reflexivity.
    + intros dimension vs Hvs. unfold transition_to_vertex in Hvs.
      apply transition_to_vertex_loop_inv in Hvs as [_ ->].
      apply (last_path_from seq 0).
  - intros Hex. apply compute_current_vertex_negative. exact Hex.
Qed.

(** ** Snakes the validator accepts *)

Lemma hamming_distance_self (a : Z) : hamming_distance a a = 0.
Proof. unfold hamming_distance. rewrite Z.lxor_nilpotent. reflexivity. Qed.

(** X13: the vertices of a sequence that [validate_snake] accepts are
    pairwise distinct. *)
Theorem valid_snake_vertices_distinct (vs : list Z) :
  fst (validate_snake vs) = true -> List.NoDup vs.
Proof.
  intros Hvalid. apply validate_snake_accepts in Hvalid.
  apply (List.NoDup_nth vs 0). intros i j Hi Hj Heq.
  destruct Hvalid as [Hlen|[Hcons Hnon]]; [lia|].
  destruct (Nat.eq_dec i j) as [|Hne]; [assumption|exfalso].
  assert (Hcase : (i + 1 = j \/ i + 2 <= j \/ j + 1 = i \/ j + 2 <= i)%nat) by lia.
  destruct Hcase as [<-|[Hfar|[<-|Hfar]]].
  - specialize (Hcons i Hj). rewrite <- Heq, hamming_distance_self in Hcons.
    discriminate.
  - specialize (Hnon j i Hfar Hj). rewrite Heq, hamming_distance_self in Hnon.
    lia.
  - specialize (Hcons j Hi). rewrite Heq, hamming_distance_self in Hcons.
    discriminate.
  - specialize (Hnon i j Hfar Hi). rewrite Heq, hamming_distance_self in Hnon.
    lia.
Qed.

Lemma valid_snake_vertices_distinct_witness : List.NoDup [0; 1; 3; 7; 6].
Proof. apply (valid_snake_vertices_distinct [0; 1; 3; 7; 6]). reflexivity. Defined.

Lemma nth_segment (l1 l2 l3 : list Z) (i : nat) :
  (i < length l2)%nat ->
  nth (length l1 + i) (l1 ++ l2 ++ l3) 0 = nth i l2 0.
Proof.
  intros Hi. rewrite app_nth2 by lia.
  replace (length l1 + i - length l1)%nat with i by lia.
  apply app_nth1. exact Hi.
Qed.

(** X14: every contiguous segment of a sequence that [validate_snake]
    accepts is accepted too; in particular every prefix of a valid snake is
    a valid snake. *)
Theorem valid_snake_segment (l1 l2 l3 : list Z) :
  fst (validate_snake (l1 ++ l2 ++ l3)) = true ->
  fst (validate_snake l2) = true.
Proof.
  rewrite !validate_snake_accepts. intros [Hlen|[Hcons Hnon]].
  - left. rewrite !length_app in Hlen. lia.
  - right. split.
    + intros i Hi. rewrite <- (nth_segment l1 l2 l3 i) by lia.
      rewrite <- (nth_segment l1 l2 l3 (i + 1)) by lia.
      rewrite Nat.add_assoc. apply Hcons. rewrite !length_app. lia.
    + intros i j Hji Hi. rewrite <- (nth_segment l1 l2 l3 i) by lia.
      rewrite <- (nth_segment l1 l2 l3 j) by lia.
      apply Hnon; [lia|]. rewrite !length_app. lia.
Qed.

Lemma valid_snake_segment_witness : fst (validate_snake [1; 3; 7]) = true.
Proof. apply (valid_snake_segment [0] [1; 3; 7] [6]). reflexivity. Defined.

(** ** Validation of transition sequences *)

Lemma check_values_None dimension l :
  Forall (in_range dimension) l ->
  forall n,
    for_first (combine (seq n (length l)) l) (check_transition_value dimension)
    = None.
Proof.
  induction 1 as [|x l Hx _ IH]; intros n; [reflexivity|].
  cbn [length seq combine for_first check_transition_value].
  unfold in_range in Hx.
  destruct (Z.ltb_spec x 0); [lia|].
  destruct (Z.geb_spec x dimension); [lia|]. cbn [orb]. apply IH.
Qed.

Lemma check_values_Some dimension l1 t l2 :
  Forall (in_range dimension) l1 -> ~ in_range dimension t ->
  forall n,
    for_first (combine (seq n (length (l1 ++ t :: l2))) (l1 ++ t :: l2))
      (check_transition_value dimension)
    = Some (TransitionValue (n + length l1) t dimension).
Proof.
  intros Hl1 Ht. induction Hl1 as [|x l1 Hx _ IH]; intros n;
    cbn [app length seq combine for_first check_transition_value].
  - unfold in_range in Ht. rewrite Nat.add_0_r.
    destruct (Z.ltb_spec t 0); [reflexivity|].
    destruct (Z.geb_spec t dimension); [reflexivity|lia].
  - unfold in_range in Hx.
    destruct (Z.ltb_spec x 0); [lia|].
    destruct (Z.geb_spec x dimension); [lia|]. cbn [orb].
    rewrite IH. f_equal. f_equal. lia.
Qed.

(** Replaying transitions flips one bit per step. *)
Lemma path_consecutive_ok dimension seq start :
  Forall (in_range dimension) seq ->
  consecutive_ok (start :: path_from start seq).
Proof.
  intros Hseq i Hi. cbn [length] in Hi. rewrite path_from_length in Hi.
  rewrite Nat.add_1_r, nth_path_from by lia.
  unfold hamming_distance. rewrite lxor_flip_back, Z.shiftl_1_l.
  apply popcount_pow2.
  rewrite List.Forall_forall in Hseq.
  apply (Hseq (nth i seq 0)). apply nth_In. lia.
Qed.

Lemma validate_adjacent_path (vs : list Z) :
  (2 <= length vs)%nat -> consecutive_ok vs ->
  (non_consecutive_ok vs /\ validate_snake vs = (true, ValidSnake))
  \/
  (exists j i, (j + 2 <= i)%nat /\ (i < length vs)%nat /\
     hamming_distance (nth i vs 0) (nth j vs 0) <= 1 /\
     validate_snake vs
     = (false, NonConsecutiveViolation j i
                 (hamming_distance (nth i vs 0) (nth j vs 0)))).
Proof.
  intros Hlen Hcons. unfold validate_snake.
  destruct (Nat.ltb_spec (length vs) 2); [lia|].
  rewrite (proj2 (consecutive_loop_None vs) Hcons).
  destruct (for_first (range_from 2 (length vs)) _) as [r|] eqn:Hn.
  - right. apply non_consecutive_loop_Some in Hn as (j & i & Hji & Hi & Hd & ->).
    exists j, i. auto.
  - left. apply non_consecutive_loop_None in Hn. auto.
Qed.

(** X15: [validate_transition_sequence] never raises.  The empty sequence
    is valid; a sequence with a transition outside [[0, dimension)] is
    rejected with the position and value of the first such transition;
    any other sequence is replayed from vertex 0, its consecutive vertices
    are adjacent, and the verdict is that of [validate_snake]: valid, or a
    violation between two non-consecutive vertices.  The message
    "Invalid transition sequence" is never produced. *)
Theorem validate_transition_sequence_spec (seq : list Z) (dimension : Z) :
  (seq = [] ->
   validate_transition_sequence seq dimension = Ok (true, ValidEmptySequence))
  /\
  (forall l1 t l2,
     seq = l1 ++ t :: l2 -> Forall (in_range dimension) l1 ->
     ~ in_range dimension t ->
     validate_transition_sequence seq dimension
     = Ok (false, TransitionValue (length l1) t dimension))
  /\
  (seq <> [] -> Forall (in_range dimension) seq ->
   exists vs, transition_to_vertex seq dimension 0 = Ok vs /\
     consecutive_ok vs /\
     ((non_consecutive_ok vs /\
       validate_transition_sequence seq dimension
       = Ok (true, SnakeVerdict ValidSnake))
      \/
      (exists j i, (j + 2 <= i)%nat /\ (i < length vs)%nat /\
         hamming_distance (nth i vs 0) (nth j vs 0) <= 1 /\
         validate_transition_sequence seq dimension
         = Ok (false,
               SnakeVerdict
                 (NonConsecutiveViolation j i
                    (hamming_distance (nth i vs 0) (nth j vs 0))))))).
Proof.
  split; [intros ->; reflexivity|]. split.
  - intros l1 t l2 -> Hl1 Ht. unfold validate_transition_sequence, enumerate.
    rewrite (check_values_Some dimension l1 t l2 Hl1 Ht 0).
    destruct l1; reflexivity.
  - intros Hne Hseq. exists (0 :: path_from 0 seq).
    assert (Hvs : transition_to_vertex seq dimension 0 = Ok (0 :: path_from 0 seq)).
    { unfold transition_to_vertex.
      rewrite transition_to_vertex_loop_ok by assumption. reflexivity. }
    pose proof (path_consecutive_ok dimension seq 0 Hseq) as Hcons.
    split; [exact Hvs|]. split; [exact Hcons|].
    assert (Hrun : validate_transition_sequence seq dimension
                   = let (is_valid, r) := validate_snake (0 :: path_from 0 seq) in
                     Ok (is_valid, SnakeVerdict r)).
    { unfold validate_transition_sequence, enumerate.
      rewrite (check_values_None dimension seq Hseq 0), Hvs.
      destruct seq; [contradiction|reflexivity]. }
    rewrite Hrun.
    destruct (validate_adjacent_path (0 :: path_from 0 seq)) as [[Hnon ->]|Hbad].
    + cbn [length]. rewrite path_from_length. destruct seq; [contradiction|].
      cbn [length]. lia.
    + exact Hcons.
    + left. auto.
    + right. destruct Hbad as (j & i & Hji & Hi & Hd & ->). exists j, i. auto.
Qed.

(** ** The hexadecimal text format *)

Lemma str_index_lt (s : string) (c : ascii) (i : nat) :
  str_index s c = Some i -> (i < String.length s)%nat.
Proof.
  revert i. induction s as [|a s IH]; intros i; cbn [str_index String.length].
  - discriminate.
  - destruct (Ascii.eqb a c); [intros [= <-]; lia|].
    destruct (str_index s c) as [k|]; [|discriminate].
    cbn [option_map]. intros [= <-]. specialize (IH k eq_refl). lia.
Qed.

Lemma char_lower_idempotent (c : ascii) : char_lower (char_lower c) = char_lower c.
Proof.
  destruct c as [b0 b1 b2 b3 b4 b5 b6 b7].
  destruct b0, b1, b2, b3, b4, b5, b6, b7; reflexivity.
Qed.

(** X16: the transitions [parse_hex_transition_string] returns lie in
    [[0, 16)] and are at most as many as the characters of the text;
    parsing a concatenation gives the concatenation of the two parses, and
    the result does not depend on the case of the letters. *)
Theorem parse_hex_transition_string_spec (s1 s2 : string) :
  Forall (in_range 16) (parse_hex_transition_string s1) /\
  (length (parse_hex_transition_string s1) <= String.length s1)%nat /\
  parse_hex_transition_string (s1 ++ s2)
  = parse_hex_transition_string s1 ++ parse_hex_transition_string s2 /\
  parse_hex_transition_string (str_lower s1) = parse_hex_transition_string s1.
Proof.
  split; [|split; [|split]].
  - induction s1 as [|c s IH]; cbn [parse_hex_transition_string]; [constructor|].
    destruct (str_index hex_digits (char_lower c)) as [i|] eqn:Hi; [|exact IH].
    constructor; [|exact IH]. apply str_index_lt in Hi.
    change (String.length hex_digits) with 16%nat in Hi. unfold in_range. lia.
  - induction s1 as [|c s IH];
      cbn [parse_hex_transition_string String.length length]; [lia|].
    destruct (str_index hex_digits (char_lower c)); cbn [length]; lia.
  - induction s1 as [|c s IH]; [reflexivity|].
    change (String c s ++ s2)%string with (String c (s ++ s2)).
    cbn [parse_hex_transition_string].
    destruct (str_index hex_digits (char_lower c)); rewrite IH; reflexivity.
  - induction s1 as [|c s IH]; [reflexivity|].
    cbn [str_lower parse_hex_transition_string].
    rewrite char_lower_idempotent, IH. reflexivity.
Qed.

(** ** Canonical sequences and legal next dimensions *)

Lemma py_max_spec (l : list Z) :
  forall x,
    (forall y, In y (x :: l) -> y <= py_max x l) /\ In (py_max x l) (x :: l).
Proof.
  unfold py_max. induction l as [|a l IH]; intros x; cbn [fold_left].
  - split; [intros y [<-|[]]; lia|left; reflexivity].
  - destruct (IH (Z.max x a)) as [Hle Hin]. split.
    + intros y Hy.
      assert (Hm : Z.max x a <= fold_left Z.max l (Z.max x a))
        by (apply Hle; left; reflexivity).
      destruct Hy as [<-|[<-|Hy]]; [lia|lia|].
      apply Hle. right. exact Hy.
    + destruct Hin as [Hin|Hin]; [|right; right; exact Hin].
      rewrite <- Hin. destruct (Z.max_spec x a) as [[_ ->]|[_ ->]]; cbn; auto.
Qed.

Lemma insert_sorted_increasing (x : Z) (l : list Z) :
  ForallOrdPairs Z.lt l -> ~ In x l -> ForallOrdPairs Z.lt (insert_sorted x l).
Proof.
  induction 1 as [|y l Hy Hl IH]; intros Hx; cbn [insert_sorted].
  - constructor; constructor.
  - destruct (Z.leb_spec x y) as [Hle|Hgt].
    + assert (Hlt : x < y) by (assert (x <> y) by (intros ->; apply Hx; left; reflexivity); lia).
      constructor; [|constructor; assumption].
      constructor; [exact Hlt|].
      eapply List.Forall_impl; [|exact Hy]. cbn. intros z Hz. lia.
    + constructor.
      * apply List.Forall_forall. intros z Hz.
        apply insert_sorted_In in Hz as [->|Hz]; [lia|].
        rewrite List.Forall_forall in Hy. apply Hy, Hz.
      * apply IH. intros Hin. apply Hx. right. exact Hin.
Qed.

Lemma py_sorted_increasing (l : list Z) :
  List.NoDup l -> ForallOrdPairs Z.lt (py_sorted l).
Proof.
  induction 1 as [|a l Ha _ IH]; [constructor|].
  change (py_sorted (a :: l)) with (insert_sorted a (py_sorted l)).
  apply insert_sorted_increasing; [exact IH|].
  intros Hin. apply Ha. exact (proj1 (py_sorted_In a l) Hin).
Qed.

Lemma NoDup_snoc (l : list Z) (x : Z) :
  List.NoDup l -> ~ In x l -> List.NoDup (l ++ [x]).
Proof.
  induction 1 as [|a l Ha _ IH]; intros Hx; cbn [app].
  - constructor; [intros []|constructor].
  - constructor.
    + intros Hin. apply in_app_or in Hin as [Hin|[<-|[]]]; [contradiction|].
      apply Hx. left. reflexivity.
    + apply IH. intros Hin. apply Hx. right. exact Hin.
Qed.

Lemma legal_next_dimensions_increasing (s : list Z) :
  ForallOrdPairs Z.lt (get_legal_next_dimensions s).
Proof.
  destruct s as [|first others]; [repeat constructor|].
  destruct (py_max_spec others first) as [Hle _].
  unfold get_legal_next_dimensions. apply py_sorted_increasing.
  apply NoDup_snoc; [apply NoDup_nodup|].
  unfold py_set. rewrite nodup_In. intros Hmax. apply Hle in Hmax. lia.
Qed.

(** X17: [get_legal_next_dimensions] lists, in strictly increasing order
    and without repetition, the dimensions the sequence uses and one more
    than the largest of them; for the empty sequence it is [[0]]. *)
Theorem legal_next_dimensions_spec (s : list Z) :
  ForallOrdPairs Z.lt (get_legal_next_dimensions s) /\
  (s = [] -> get_legal_next_dimensions s = [0]) /\
  (s <> [] ->
   exists m, In m s /\ (forall x, In x s -> x <= m) /\
     forall d, In d (get_legal_next_dimensions s) <-> In d s \/ d = m + 1).
Proof.
  split; [apply legal_next_dimensions_increasing|].
  destruct s as [|first others].
  - split; [reflexivity|]. intros Hne. contradiction.
  - destruct (py_max_spec others first) as [Hle Hin].
    split; [discriminate|].
    intros _. exists (py_max first others).
    split; [exact Hin|]. split; [exact Hle|].
    intros d. apply legal_next_dimensions_In.
Qed.

Lemma loop_max_snoc (m : Z) (ts : list Z) (d : Z) :
  loop_max m (ts ++ [d])
  = if d =? loop_max m ts + 1 then d else loop_max m ts.
Proof. unfold loop_max. rewrite fold_left_app. reflexivity. Qed.

Lemma is_canonical_snoc (first : Z) (others : list Z) (d : Z) :
  is_canonical ((first :: others) ++ [d])
  = is_canonical (first :: others)
    && negb (d >? loop_max 0 (first :: others) + 1).
Proof.
  unfold is_canonical. cbn [app].
  destruct (negb (first =? 0)); [reflexivity|].
  change (first :: others ++ [d]) with ((first :: others) ++ [d]).
  apply is_canonical_loop_app.
Qed.

(** In a canonical sequence of non-negative transitions every dimension
    up to the running maximum occurs. *)
Lemma canonical_values (s : list Z) :
  s <> [] -> is_canonical s = true -> Forall (fun t => 0 <= t) s ->
  forall x, 0 <= x <= loop_max 0 s -> In x s.
Proof.
  induction s as [|d s IH] using rev_ind; [contradiction|].
  intros _ Hcan Hpos x Hx. destruct s as [|first others].
  - cbn [app] in *. unfold is_canonical in Hcan.
    destruct (Z.eqb_spec d 0) as [->|]; [|discriminate].
    change (loop_max 0 [0]) with 0 in Hx. left. lia.
  - rewrite is_canonical_snoc in Hcan. apply andb_true_iff in Hcan as [Hcan Hd].
    apply List.Forall_app in Hpos as [Hpos Hdpos].
    rewrite loop_max_snoc in Hx. apply in_or_app.
    destruct (Z.eqb_spec d (loop_max 0 (first :: others) + 1)) as [Heq|Hne].
    + destruct (Z.eq_dec x d) as [->|Hxd]; [right; left; reflexivity|].
      left. apply IH; [discriminate|assumption|assumption|lia].
    + left. apply IH; [discriminate|assumption|assumption|lia].
Qed.

(** X18: for a canonical sequence of non-negative transitions, the
    non-negative dimensions that keep it canonical when appended are
    exactly its legal next dimensions. *)
Theorem canonical_extension_iff (s : list Z) (d : Z) :
  is_canonical s = true -> Forall (fun t => 0 <= t) s -> 0 <= d ->
  (is_canonical (s ++ [d]) = true <-> In d (get_legal_next_dimensions s)).
Proof.
  intros Hcan Hpos Hd. split; [|apply canonical_extension; exact Hcan].
  destruct s as [|first others].
  - cbn [app]. unfold is_canonical.
    destruct (Z.eqb_spec d 0) as [->|]; [|discriminate]. intros _. left. reflexivity.
  - rewrite is_canonical_snoc, Hcan, andb_true_l. intros Hle.
    destruct (Z.gtb_spec d (loop_max 0 (first :: others) + 1)); [discriminate|].
    apply legal_next_dimensions_In.
    destruct (is_canonical_loop_bound (first :: others) 0) as [Hm0 Hbound].
    { revert Hcan. unfold is_canonical. destruct (negb (first =? 0)); [discriminate|auto]. }
    assert (Hmax : In (loop_max 0 (first :: others)) (first :: others))
      by (apply canonical_values; [discriminate|assumption|assumption|lia]).
    destruct (py_max_spec others first) as [Hle' Hin'].
    assert (Heq : py_max first others = loop_max 0 (first :: others)).
    { apply Z.le_antisymm; [|apply Hle', Hmax].
      apply py_max_le; [apply Hbound; left; reflexivity|].
      intros y Hy. apply Hbound. right. exact Hy. }
    destruct (Z.eq_dec d (loop_max 0 (first :: others) + 1)) as [->|Hne].
    + right. rewrite Heq. reflexivity.
    + left. apply canonical_values; [discriminate|assumption|assumption|lia].
Qed.

Lemma canonical_extension_iff_witness :
  is_canonical ([0; 1; 0] ++ [2]) = true
  <-> In 2 (get_legal_next_dimensions [0; 1; 0]).
Proof.
  apply (canonical_extension_iff [0; 1; 0] 2).
  - reflexivity.
  - repeat constructor; discriminate.
  - discriminate.
Defined.

Lemma is_canonical_loop_prefix (s1 s2 : list Z) :
  forall m, is_canonical_loop m (s1 ++ s2) = true -> is_canonical_loop m s1 = true.
Proof.
  induction s1 as [|d s1 IH]; intros m; [reflexivity|].
  cbn [app is_canonical_loop]. destruct (d >? m + 1); [discriminate|]. apply IH.
Qed.

(** Every prefix of a canonical sequence is canonical. *)
Theorem canonical_prefix (s1 s2 : list Z) :
  is_canonical (s1 ++ s2) = true -> is_canonical s1 = true.
Proof.
  destruct s1 as [|first s1]; [reflexivity|].
  unfold is_canonical. cbn [app].
  destruct (negb (first =? 0)); [discriminate|].
  apply (is_canonical_loop_prefix (first :: s1) s2).
Qed.

Lemma canonical_prefix_witness : is_canonical [0; 1] = true.
Proof. apply (canonical_prefix [0; 1] [2; 0]). reflexivity. Defined.

(** ** [SnakeNode]: the marks, and which extensions are possible *)

Lemma in_range_nonneg (dim : Z) (seq : list Z) :
  Forall (in_range dim) seq -> Forall (fun t => 0 <= t) seq.
Proof. apply List.Forall_impl. intros t [Ht _]. exact Ht. Qed.

(** A transition that does not occur leaves its bit untouched along the
    whole path. *)
Lemma path_bit_unused (ts : list Z) :
  Forall (fun t => 0 <= t) ts ->
  forall c d, 0 <= d -> ~ In d ts ->
    forall p, In p (c :: path_from c ts) -> Z.testbit p d = Z.testbit c d.
Proof.
  induction 1 as [|t ts Ht _ IH]; intros c d Hd Hnot p Hp.
  - destruct Hp as [<-|[]]. reflexivity.
  - destruct Hp as [<-|Hp]; [reflexivity|]. cbn [path_from] in Hp.
    rewrite (IH (Z.lxor c (Z.shiftl 1 t)) d Hd) by
      (try exact Hp; intros Hin; apply Hnot; right; exact Hin).
    rewrite Z.lxor_spec, Z.shiftl_1_l, Z.pow2_bits_eqb by assumption.
    destruct (Z.eqb_spec t d) as [->|]; [|apply xorb_false_r].
    exfalso. apply Hnot. left. reflexivity.
Qed.

(** The neighbour of the head along a dimension that was never used is
    not marked. *)
Lemma unused_dimension_unmarked seq dim nd d :
  node_inv seq dim nd -> in_range dim d -> ~ In d seq ->
  marked (SnakeNode.vertices_bitmap nd)
    (Z.lxor (end_vertex 0 seq) (Z.shiftl 1 d)) = false.
Proof.
  intros Hinv [Hd0 Hd1] Hnot.
  pose proof (in_range_nonneg _ _ (inv_range _ _ _ Hinv)) as Hpos.
  assert (Hbit : forall p, In p (node_path seq) -> Z.testbit p d = false).
  { intros p Hp. unfold node_path in Hp.
    rewrite (path_bit_unused seq Hpos 0 d Hd0 Hnot p Hp). apply Z.bits_0. }
  assert (Hhead : Z.testbit (Z.lxor (end_vertex 0 seq) (Z.shiftl 1 d)) d = true).
  { rewrite Z.lxor_spec, (Hbit _ (end_vertex_in_path 0 seq)).
    rewrite Z.shiftl_1_l, Z.pow2_bits_eqb, Z.eqb_refl by assumption. reflexivity. }
  destruct (marked _ _) eqn:Hm; [exfalso|reflexivity].
  apply (inv_marks _ _ _ Hinv) in Hm.
  - destruct Hm as (p & Hp & [Heq|(d' & Hd' & Heq)]).
    + rewrite Heq, (Hbit p Hp) in Hhead. discriminate.
    + rewrite Heq, Z.lxor_spec, (Hbit p Hp) in Hhead.
      assert (0 <= d').
      { rewrite List.Forall_forall in Hpos. apply Hpos, Hd'. }
      rewrite Z.shiftl_1_l, Z.pow2_bits_eqb in Hhead by assumption.
      destruct (Z.eqb_spec d' d) as [Hdd|Hdd]; [|discriminate].
      apply Hnot. rewrite <- Hdd. exact Hd'.
  - apply Z.lxor_nonneg. split; intros _.
    + apply Z.shiftl_nonneg. lia.
    + apply end_vertex_nonneg. lia.
Qed.

Lemma can_extend_unused seq dim nd d :
  node_inv seq dim nd ->
  (SnakeNode.can_extend nd d = Ok true /\ in_range dim d /\ ~ In d seq)
  \/
  (SnakeNode.can_extend nd d = Ok false /\ ~ (in_range dim d /\ ~ In d seq)).
Proof.
  intros Hinv. destruct (in_dec Z.eq_dec d seq) as [Hin|Hnot].
  - right. split; [apply (cannot_extend_used_dimension _ _ _ _ Hinv Hin)|tauto].
  - rewrite (can_extend_spec _ _ _ _ Hinv). unfold in_range.
    destruct (Z.leb_spec 0 d); [|right; split; [reflexivity|lia]].
    destruct (Z.ltb_spec d dim); [|right; split; [reflexivity|lia]].
    left. rewrite (unused_dimension_unmarked seq dim nd d Hinv)
      by (assumption || (split; lia)).
    split; [reflexivity|]. split; [lia|assumption].
Qed.

(** X19: a node can be extended exactly along the dimensions of the cube
    that its sequence has not used yet: [can_extend] never raises, answers
    [True] for those dimensions and [False] for every other argument, and
    [create_child] along a dimension already used raises [ValueError]. *)
Theorem can_extend_iff_new_dimension (seq : list Z) (dim : Z) (nd : SnakeNode.t)
  (d : Z) :
  SnakeNode.new seq dim = Ok nd ->
  (SnakeNode.can_extend nd d = Ok true <-> in_range dim d /\ ~ In d seq) /\
  (SnakeNode.can_extend nd d = Ok false <-> ~ (in_range dim d /\ ~ In d seq)) /\
  (In d seq ->
   SnakeNode.create_child nd d = Err (ValueError (CannotExtend d))).
Proof.
  intros Hnew. apply node_new_inv in Hnew.
  destruct (can_extend_unused seq dim nd d Hnew) as [(Hext & Hr & Hn)|[Hext Hn]].
  - split; [|split].
    + split; auto.
    + rewrite Hext. split; [discriminate|]. intros Hc. exfalso. apply Hc. auto.
    + intros Hin. contradiction.
  - split; [|split].
    + rewrite Hext. split; [discriminate|]. intros Hc. contradiction.
    + split; auto.
    + intros _. unfold SnakeNode.create_child. rewrite Hext. reflexivity.
Qed.

Lemma can_extend_iff_new_dimension_witness :
  let nd := {| SnakeNode.transition_sequence := [0; 1];
               SnakeNode.dimension := 3;
               SnakeNode.vertices_bitmap :=
                 {| HypercubeBitmap.dimension := 3;
                    HypercubeBitmap.num_vertices := 8;
                    HypercubeBitmap.num_words := 1;
                    HypercubeBitmap.bitmap := [15] |};
               SnakeNode.fitness := 4 |} in
  (SnakeNode.can_extend nd 1 = Ok true <-> in_range 3 1 /\ ~ In 1 [0; 1]) /\
  (SnakeNode.can_extend nd 1 = Ok false <-> ~ (in_range 3 1 /\ ~ In 1 [0; 1])) /\
  (In 1 [0; 1] ->
   SnakeNode.create_child nd 1 = Err (ValueError (CannotExtend 1))).
Proof.
  intros nd. apply (can_extend_iff_new_dimension [0; 1] 3 nd 1). reflexivity.
Defined.

(** X20: the marks of a constructed node.  A vertex of the cube is marked
    exactly when it lies on the node's path from vertex 0 or is the
    neighbour of a path vertex along a dimension that occurs in the
    sequence; neighbours along dimensions that do not occur stay
    unmarked.  Outside the cube [_is_marked] raises [IndexError]. *)
Theorem node_marks_spec (seq : list Z) (dim : Z) (nd : SnakeNode.t) :
  SnakeNode.new seq dim = Ok nd ->
  exists vs, transition_to_vertex seq dim 0 = Ok vs /\
    (forall u, 0 <= u < 2 ^ dim ->
       exists m, SnakeNode._is_marked nd u = Ok m /\
         (m = true <->
          exists p, In p vs /\
            (u = p \/ exists d, In d seq /\ u = Z.lxor p (Z.shiftl 1 d)))) /\
    (forall u, ~ (0 <= u < 2 ^ dim) ->
       SnakeNode._is_marked nd u = Err (IndexError u (2 ^ dim))).
Proof.
  intros Hnew. apply node_new_inv in Hnew.
  exists (node_path seq). split; [|split].
  - unfold transition_to_vertex.
    rewrite transition_to_vertex_loop_ok by apply (inv_range _ _ _ Hnew).
    reflexivity.
  - intros u Hu. exists (marked (SnakeNode.vertices_bitmap nd) u).
    split; [apply (is_marked_ok _ _ _ _ Hnew Hu)|].
    apply (inv_marks _ _ _ Hnew). lia.
  - intros u Hu. unfold SnakeNode._is_marked.
    rewrite get_bit_out_of_range;
      rewrite (wf_num_vertices _ (inv_wf _ _ _ Hnew)),
        (inv_bitmap_dimension _ _ _ Hnew); [reflexivity|exact Hu].
Qed.

Lemma node_marks_spec_witness :
  let nd := {| SnakeNode.transition_sequence := [0; 1];
               SnakeNode.dimension := 3;
               SnakeNode.vertices_bitmap :=
                 {| HypercubeBitmap.dimension := 3;
                    HypercubeBitmap.num_vertices := 8;
                    HypercubeBitmap.num_words := 1;
                    HypercubeBitmap.bitmap := [15] |};
               SnakeNode.fitness := 4 |} in
  exists vs, transition_to_vertex [0; 1] 3 0 = Ok vs /\
    (forall u, 0 <= u < 2 ^ 3 ->
       exists m, SnakeNode._is_marked nd u = Ok m /\
         (m = true <->
          exists p, In p vs /\
            (u = p \/ exists d, In d [0; 1] /\ u = Z.lxor p (Z.shiftl 1 d)))) /\
    (forall u, ~ (0 <= u < 2 ^ 3) ->
       SnakeNode._is_marked nd u = Err (IndexError u (2 ^ 3))).
Proof.
  intros nd. apply (node_marks_spec [0; 1] 3 nd). reflexivity.
Defined.

Lemma count_if_strict (f g : Z -> bool) (l : list Z) (v : Z) :
  (forall x, In x l -> f x = true -> g x = true) ->
  In v l -> f v = false -> g v = true ->
  count_if f l < count_if g l.
Proof.
  induction l as [|x l IH]; intros Hsub Hin Hf Hg; [destruct Hin|].
  cbn [count_if].
  assert (Hrest : count_if f l <= count_if g l).
  { apply count_if_mono. intros y Hy. apply Hsub. right. exact Hy. }
  destruct Hin as [->|Hin].
  - rewrite Hf, Hg. cbn [Z.b2z]. lia.
  - assert (Hx : Z.b2z (f x) <= Z.b2z (g x)).
    { destruct (f x) eqn:Hfx; [rewrite (Hsub x) by (auto; left; reflexivity)|];
        destruct (g x); cbn; lia. }
    assert (count_if f l < count_if g l); [|lia].
    apply IH; try assumption. intros y Hy. apply Hsub. right. exact Hy.
Qed.

Lemma count_if_all (l : list Z) :
  count_if (fun _ => true) l = Z.of_nat (length l).
Proof.
  induction l as [|x l IH]; [reflexivity|].
  cbn [count_if length Z.b2z]. rewrite IH. lia.
Qed.

Lemma create_child_inv seq dim p d c :
  node_inv seq dim p -> SnakeNode.create_child p d = Ok c ->
  SnakeNode.can_extend p d = Ok true /\ node_inv (seq ++ [d]) dim c.
Proof.
  intros Hinv Hc.
  destruct (can_extend_unused seq dim p d Hinv) as [(Hext & _)|[Hext _]].
  - split; [exact Hext|].
    destruct (create_child_ok _ _ _ _ Hinv Hext) as (c' & Hc' & Hcinv).
    congruence.
  - unfold SnakeNode.create_child in Hc. rewrite Hext in Hc. discriminate.
Qed.

(** X21: the fitness of every node [SnakeNode] builds lies between 0 and
    [2 ** dimension - 1] (vertex 0 is always marked), and every child that
    [create_child] builds has a strictly smaller fitness than its parent. *)
Theorem fitness_bounded_and_decreasing (seq : list Z) (dim : Z) (p : SnakeNode.t) :
  SnakeNode.new seq dim = Ok p ->
  0 <= SnakeNode.fitness p <= 2 ^ dim - 1 /\
  forall d c, SnakeNode.create_child p d = Ok c ->
    0 <= SnakeNode.fitness c < SnakeNode.fitness p.
Proof.
  intros Hnew. apply node_new_inv in Hnew.
  pose proof (inv_dim _ _ _ Hnew) as Hdim.
  assert (Hpow : 0 < 2 ^ dim) by (apply Z.pow_pos_nonneg; lia).
  split.
  - rewrite (inv_fitness _ _ _ Hnew). split; [apply count_if_bounds|].
    assert (Hlt : count_if (fun v => negb (marked (SnakeNode.vertices_bitmap p) v))
                    (zrange (2 ^ dim))
                  < count_if (fun _ => true) (zrange (2 ^ dim))).
    { apply (count_if_strict _ _ _ 0); [auto|apply in_zrange; lia| |reflexivity].
      apply negb_false_iff. apply (inv_marks _ _ _ Hnew); [lia|].
      exists 0. split; [left; reflexivity|left; reflexivity]. }
    rewrite count_if_all, zrange_length in Hlt by lia. lia.
  - intros d c Hc.
    destruct (create_child_inv _ _ _ _ _ Hnew Hc) as [Hext Hcinv].
    rewrite (inv_fitness _ _ _ Hcinv), (inv_fitness _ _ _ Hnew).
    split; [apply count_if_bounds|].
    destruct (current_vertex_ok _ _ _ Hcinv) as (_ & Hrange & Hmarked).
    apply (count_if_strict _ _ _ (end_vertex 0 (seq ++ [d]))).
    + intros u Hu Hfree. apply in_zrange in Hu.
      apply negb_true_iff in Hfree. apply negb_true_iff.
      destruct (marked (SnakeNode.vertices_bitmap p) u) eqn:Hm; [|reflexivity].
      rewrite (child_marks_superset _ _ _ _ _ _ Hnew Hcinv) in Hfree;
        [discriminate|lia|assumption].
    + apply in_zrange. exact Hrange.
    + rewrite Hmarked. reflexivity.
    + apply can_extend_true with (seq := seq) (dim := dim) in Hext as [_ Hfree];
        [|exact Hnew].
      unfold end_vertex. rewrite fold_left_app. cbn [fold_left].
      fold (end_vertex 0 seq). rewrite Hfree. reflexivity.
Qed.

Lemma fitness_bounded_and_decreasing_witness :
  0 <= SnakeNode.fitness snake_01 <= 2 ^ 3 - 1 /\
  forall d c, SnakeNode.create_child snake_01 d = Ok c ->
    0 <= SnakeNode.fitness c < SnakeNode.fitness snake_01.
Proof.
  apply (fitness_bounded_and_decreasing [0; 1] 3 snake_01). reflexivity.
Defined.

(** The bounds on two nodes that have no child and are no child of a
    valid snake: [SnakeNode([0, 1, 2, 0], 3)] and [SnakeNode([0, 0], 1)]. *)
Example fitness_of_blocked_nodes :
  (exists nd, SnakeNode.new [0; 1; 2; 0] 3 = Ok nd /\ SnakeNode.fitness nd = 0) /\
  (exists nd, SnakeNode.new [0; 0] 1 = Ok nd /\ SnakeNode.fitness nd = 0).
Proof. split; eexists; (split; [vm_compute; reflexivity|reflexivity]). Qed.

(** ** Extending a valid snake gives a valid snake *)

Lemma popcount_flip (x d k : Z) :
  0 <= x < 2 ^ k -> 0 <= d < k -> Z.testbit x d = false ->
  popcount (Z.lxor x (Z.shiftl 1 d)) = popcount x + 1.
Proof.
  intros Hx Hd Hbit.
  assert (Hk : Z.of_nat (Z.to_nat k) = k) by (apply Z2Nat.id; lia).
  rewrite (popcount_bits _ (Z.to_nat k)), (popcount_bits x (Z.to_nat k))
    by (rewrite Hk; try apply flip_in_range; assumption).
  change (zrange_nat (Z.to_nat k)) with (zrange k).
  rewrite (count_if_ext_in _ (fun u => (u =? d) || Z.testbit x u)).
  - rewrite count_if_add, Hbit; [reflexivity|apply zrange_NoDup|].
    apply in_zrange. exact Hd.
  - intros u Hu. apply in_zrange in Hu.
    rewrite Z.lxor_spec, Z.shiftl_1_l, Z.pow2_bits_eqb by lia.
    rewrite (Z.eqb_sym d u).
    destruct (Z.eqb_spec u d) as [->|]; [rewrite Hbit; reflexivity|].
    apply xorb_false_r.
Qed.

(** Flipping a bit in which two vertices agree moves them one step apart. *)
Lemma hamming_fresh_bit (p h d k : Z) :
  0 <= p < 2 ^ k -> 0 <= h < 2 ^ k -> 0 <= d < k ->
  Z.testbit p d = false -> Z.testbit h d = false ->
  hamming_distance p (Z.lxor h (Z.shiftl 1 d)) = hamming_distance p h + 1.
Proof.
  intros Hp Hh Hd Hpd Hhd. unfold hamming_distance.
  rewrite <- Z.lxor_assoc. apply (popcount_flip _ d k); [|assumption|].
  - apply lxor_in_range; (assumption || lia).
  - rewrite Z.lxor_spec, Hpd, Hhd. reflexivity.
Qed.

Lemma hamming_distance_sym (a b : Z) : hamming_distance a b = hamming_distance b a.
Proof. unfold hamming_distance. rewrite Z.lxor_comm. reflexivity. Qed.

Lemma nth_end_vertex (ts : list Z) :
  forall c, nth (length ts) (c :: path_from c ts) 0 = end_vertex c ts.
Proof.
  induction ts as [|t ts IH]; intros c; [reflexivity|].
  cbn [length path_from]. rewrite end_vertex_cons, <- IH. reflexivity.
Qed.

Lemma validate_snake_short (vs : list Z) :
  (length vs < 2)%nat -> consecutive_ok vs /\ non_consecutive_ok vs.
Proof.
  intros Hlen. split.
  - intros i Hi. lia.
  - intros i j Hji Hi. lia.
Qed.

Lemma child_path_valid (seq : list Z) (dim d : Z) :
  1 <= dim -> Forall (in_range dim) seq -> in_range dim d -> ~ In d seq ->
  fst (validate_snake (node_path seq)) = true ->
  fst (validate_snake (node_path (seq ++ [d]))) = true.
Proof.
  intros Hdim Hseq Hd Hnot Hvalid.
  assert (Hrules : consecutive_ok (node_path seq) /\ non_consecutive_ok (node_path seq)).
  { apply validate_snake_accepts in Hvalid as [Hlen|Hok]; [|exact Hok].
    apply validate_snake_short, Hlen. }
  destruct Hrules as [Hcons Hnon].
  pose proof (in_range_nonneg _ _ Hseq) as Hpos.
  assert (Horigin : 0 <= 0 < 2 ^ dim)
    by (split; [lia|apply Z.pow_pos_nonneg; lia]).
  assert (Hin : forall p, In p (node_path seq) -> 0 <= p < 2 ^ dim).
  { intros p [<-|Hp]; [exact Horigin|].
    eapply path_from_in_range; eauto. }
  assert (Hbit : forall p, In p (node_path seq) -> Z.testbit p d = false).
  { intros p Hp. unfold node_path in Hp.
    rewrite (path_bit_unused seq Hpos 0 d (proj1 Hd) Hnot p Hp). apply Z.bits_0. }
  set (n := length (node_path seq)).
  assert (Hn : n = S (length seq)) by apply node_path_length.
  set (head := end_vertex 0 seq).
  assert (Hhead : nth (length seq) (node_path seq) 0 = head)
    by apply nth_end_vertex.
  assert (Hheadin : In head (node_path seq)) by apply end_vertex_in_path.
  assert (Hnth : forall i, (i < n)%nat -> In (nth i (node_path seq) 0) (node_path seq))
    by (intros i Hi; apply nth_In; exact Hi).
  apply validate_snake_accepts. right. rewrite node_path_app.
  fold head. split.
  - intros i Hi. rewrite length_app in Hi. cbn [length] in Hi. fold n in Hi.
    destruct (Nat.eq_dec (i + 1)%nat n) as [Hlast|Hearly].
    + rewrite app_nth1 by (fold n; lia).
      rewrite app_nth2 by (fold n; lia). fold n.
      replace (i + 1 - n)%nat with 0%nat by lia. cbn [nth].
      replace i with (length seq) by lia. rewrite Hhead.
      unfold hamming_distance. rewrite lxor_flip_back, Z.shiftl_1_l.
      apply popcount_pow2. apply Hd.
    + rewrite !app_nth1 by (fold n; lia). apply Hcons. fold n. lia.
  - intros i j Hji Hi. rewrite length_app in Hi. cbn [length] in Hi. fold n in Hi.
    destruct (Nat.eq_dec i n) as [->|Hearly].
    + rewrite app_nth2 by (fold n; lia). fold n. rewrite Nat.sub_diag. cbn [nth].
      rewrite app_nth1 by (fold n; lia).
      rewrite hamming_distance_sym.
      rewrite (hamming_fresh_bit _ head d dim); try (apply Hin || apply Hbit);
        try assumption; try (apply Hnth; lia).
      assert (1 <= hamming_distance (nth j (node_path seq) 0) head); [|lia].
      rewrite <- Hhead.
      destruct (Nat.eq_dec (j + 1)%nat (length seq)) as [Hadj|Hfar].
      * rewrite <- Hadj. rewrite (Hcons j) by (fold n; lia). lia.
      * rewrite hamming_distance_sym.
        assert (hamming_distance (nth (length seq) (node_path seq) 0)
                  (nth j (node_path seq) 0) > 1); [|lia].
        apply Hnon; [lia|fold n; lia].
    + rewrite !app_nth1 by (fold n; lia). apply Hnon; [lia|fold n; lia].
Qed.

Lemma validate_snake_true_reason (vs : list Z) :
  (2 <= length vs)%nat -> fst (validate_snake vs) = true ->
  validate_snake vs = (true, ValidSnake).
Proof.
  intros Hlen. unfold validate_snake.
  destruct (Nat.ltb_spec (length vs) 2); [lia|].
  destruct (for_first (range (length vs - 1)) (check_consecutive vs));
    [discriminate|].
  destruct (for_first (range_from 2 (length vs)) _); [discriminate|reflexivity].
Qed.

(** What [validate_transition_sequence] answers on a sequence within
    range: the verdict of [validate_snake] on its path from vertex 0. *)
Lemma validate_sequence_path (seq : list Z) (dim : Z) :
  Forall (in_range dim) seq ->
  exists r, validate_transition_sequence seq dim
            = Ok (fst (validate_snake (node_path seq)), r) /\
    (seq <> [] -> fst (validate_snake (node_path seq)) = true ->
     r = SnakeVerdict ValidSnake).
Proof.
  intros Hseq. destruct seq as [|t seq].
  - exists ValidEmptySequence. split; [reflexivity|]. intros Hne. contradiction.
  - assert (Hrun : validate_transition_sequence (t :: seq) dim
                   = let (is_valid, r) := validate_snake (node_path (t :: seq)) in
                     Ok (is_valid, SnakeVerdict r)).
    { unfold validate_transition_sequence, enumerate, transition_to_vertex.
      rewrite (check_values_None dim (t :: seq) Hseq 0).
      rewrite transition_to_vertex_loop_ok by assumption. reflexivity. }
    rewrite Hrun.
    destruct (validate_snake (node_path (t :: seq))) as [ok r] eqn:Hv.
    exists (SnakeVerdict r). split; [reflexivity|].
    intros _ Hok. cbn [fst] in Hok. subst ok.
    rewrite validate_snake_true_reason in Hv.
    + congruence.
    + rewrite node_path_length. cbn [length]. lia.
    + rewrite Hv. reflexivity.
Qed.

(** X22: [create_child] preserves validity.  If the transition sequence
    of a node is accepted by [validate_transition_sequence], so is the
    sequence of every child that [create_child] builds, with the verdict
    "Valid snake". *)
Theorem create_child_keeps_validity (seq : list Z) (dim : Z) (p : SnakeNode.t)
  (d : Z) (c : SnakeNode.t) :
  SnakeNode.new seq dim = Ok p ->
  SnakeNode.create_child p d = Ok c ->
  (exists r, validate_transition_sequence seq dim = Ok (true, r)) ->
  SnakeNode.transition_sequence c = seq ++ [d] /\
  validate_transition_sequence (SnakeNode.transition_sequence c) dim
  = Ok (true, SnakeVerdict ValidSnake).
Proof.
  intros Hnew Hc [r Hvalid]. apply node_new_inv in Hnew.
  destruct (create_child_inv _ _ _ _ _ Hnew Hc) as [Hext Hcinv].
  rewrite (inv_sequence _ _ _ Hcinv). split; [reflexivity|].
  destruct (can_extend_unused seq dim p d Hnew) as [(_ & Hd & Hnot)|[Hno _]];
    [|congruence].
  destruct (validate_sequence_path seq dim (inv_range _ _ _ Hnew)) as (r0 & Hr0 & _).
  assert (Hparent : fst (validate_snake (node_path seq)) = true) by congruence.
  pose proof (child_path_valid seq dim d (inv_dim _ _ _ Hnew)
                (inv_range _ _ _ Hnew) Hd Hnot Hparent) as Hchild.
  destruct (validate_sequence_path (seq ++ [d]) dim (inv_range _ _ _ Hcinv))
    as (r1 & Hr1 & Hreason).
  rewrite Hr1, Hchild, Hreason; [reflexivity| |exact Hchild].
  destruct seq; discriminate.
Qed.

Lemma create_child_keeps_validity_witness :
  let p := {| SnakeNode.transition_sequence := [0; 1];
              SnakeNode.dimension := 3;
              SnakeNode.vertices_bitmap :=
                {| HypercubeBitmap.dimension := 3;
                   HypercubeBitmap.num_vertices := 8;
                   HypercubeBitmap.num_words := 1;
                   HypercubeBitmap.bitmap := [15] |};
              SnakeNode.fitness := 4 |} in
  let c := {| SnakeNode.transition_sequence := [0; 1; 2];
              SnakeNode.dimension := 3;
              SnakeNode.vertices_bitmap :=
                {| HypercubeBitmap.dimension := 3;
                   HypercubeBitmap.num_vertices := 8;
                   HypercubeBitmap.num_words := 1;
                   HypercubeBitmap.bitmap := [255] |};
              SnakeNode.fitness := 0 |} in
  SnakeNode.transition_sequence c = [0; 1] ++ [2] /\
  validate_transition_sequence (SnakeNode.transition_sequence c) 3
  = Ok (true, SnakeVerdict ValidSnake).
Proof.
  intros p c. apply (create_child_keeps_validity [0; 1] 3 p 2 c).
  - reflexivity.
  - reflexivity.
  - exists (SnakeVerdict ValidSnake). reflexivity.
Defined.

(** ** What the breadth-first search can find *)

Lemma for_each_invariant_in {A S : Type} (P : S -> Prop)
  (body : A -> S -> result S) (l : list A) :
  (forall x s s', In x l -> P s -> body x s = Ok s' -> P s') ->
  forall s s', P s -> for_each l body s = Ok s' -> P s'.
Proof.
  induction l as [|x l IH]; intros Hbody s s' Hs; cbn [for_each].
  - intros [= <-]. exact Hs.
  - destruct (body x s) as [s1|] eqn:Hx; cbn [bind]; [|discriminate].
    apply IH.
    + intros y t t' Hy. apply Hbody. right. exact Hy.
    + apply (Hbody x s s1); [left; reflexivity|exact Hs|exact Hx].
Qed.

Section SearchNodeInvariant.
Context `{Platform}.

(** [Q] holds of the nodes of the frontiers and [B] of the best snake, as
    soon as the children of [Q]-nodes satisfy both. *)
Variables Q B : SnakeNode.t -> Prop.
Hypothesis Q_child :
  forall nd d c, Q nd ->
    In d (get_legal_next_dimensions (SnakeNode.transition_sequence nd)) ->
    SnakeNode.create_child nd d = Ok c -> Q c /\ B c.

Definition expansion_holds (acc : expansion) : Prop :=
  (forall c, In c (next_level acc) -> Q c) /\
  (forall b, best_snake acc = Some b -> B b).

Definition state_holds (st : search_state) : Prop :=
  (forall nd, In nd (current_level st) -> Q nd) /\
  (forall b, best_so_far st = Some b -> B b).

Lemma expand_dimension_holds nd d acc acc' :
  Q nd ->
  In d (get_legal_next_dimensions (SnakeNode.transition_sequence nd)) ->
  expansion_holds acc -> expand_dimension nd d acc = Ok acc' ->
  expansion_holds acc'.
Proof.
  intros HQ Hd [Hnext Hbest]. unfold expand_dimension.
  destruct (is_valid_extension nd d) as [[|]|]; cbn [bind];
    [|intros [= <-]; split; assumption|discriminate].
  destruct (SnakeNode.create_child nd d) as [c|[m|i b| |]] eqn:Hc;
    [|intros [= <-]; split; assumption|discriminate|discriminate|discriminate].
  destruct (Q_child nd d c HQ Hd Hc) as [HQc HBc].
  intros [= <-]. split; cbn [next_level best_snake].
  - intros c' Hin. apply in_app_or in Hin as [Hin|[<-|[]]]; auto.
  - intros b. destruct (SnakeNode.get_length c >? max_length acc).
    + intros [= <-]. exact HBc.
    + apply Hbest.
Qed.

Lemma expand_node_holds nd acc acc' :
  Q nd -> expansion_holds acc -> expand_node nd acc = Ok acc' ->
  expansion_holds acc'.
Proof.
  intros HQ. unfold expand_node. apply for_each_invariant_in.
  intros d s s' Hd. apply expand_dimension_holds; assumption.
Qed.

Lemma bfs_level_holds memory_limit_gb st st' :
  state_holds st -> bfs_level memory_limit_gb st = Ok st' -> state_holds st'.
Proof.
  intros [Hnodes Hbest]. unfold bfs_level.
  destruct (for_each (current_level st) expand_node _) as [acc|] eqn:Hrun;
    cbn [bind]; [|discriminate].
  assert (Hacc : expansion_holds acc).
  { revert Hrun. apply for_each_invariant_in.
    - intros nd s s' Hnd. apply expand_node_holds. apply Hnodes, Hnd.
    - split; [intros c []|exact Hbest]. }
  destruct Hacc as [Hnext Hbest'].
  intros Hrest. apply bind_Ok in Hrest as (pruned & Hpruned & [= <-]).
  split; cbn [current_level best_so_far]; [|exact Hbest'].
  intros nd Hnd. apply Hnext.
  destruct (float_gt _ _).
  - eapply prune_by_fitness_In; eauto.
  - injection Hpruned as <-. exact Hnd.
Qed.

Lemma bfs_loop_holds memory_limit_gb fuel :
  forall st b,
    state_holds st ->
    pruned_bfs_search_loop fuel memory_limit_gb st = Some (Ok (Some b)) -> B b.
Proof.
  induction fuel as [|fuel IH]; intros st b Hst; [discriminate|].
  cbn [pruned_bfs_search_loop].
  destruct (current_level st) as [|nd rest] eqn:Hlevel.
  { intros [= Hb]. apply Hst, Hb. }
  destruct (bfs_level memory_limit_gb st) as [st'|] eqn:Hstep; [|discriminate].
  pose proof (bfs_level_holds _ _ _ Hst Hstep) as Hst'.
  destruct (current_level st') as [|nd' rest'] eqn:Hlevel'.
  - intros [= Hb]. apply Hst', Hb.
  - apply IH, Hst'.
Qed.

Lemma bfs_search_holds dim memory_limit_gb fuel b :
  (forall root, SnakeNode.new [] dim = Ok root -> Q root) ->
  pruned_bfs_search fuel dim memory_limit_gb = Some (Ok (Some b)) -> B b.
Proof.
  intros Hroot. unfold pruned_bfs_search.
  destruct (SnakeNode.new [] dim) as [root|] eqn:Hnew; [|discriminate].
  apply bfs_loop_holds. split; cbn [initial_state current_level best_so_far].
  - intros nd [<-|[]]. apply Hroot. reflexivity.
  - discriminate.
Qed.

Lemma frontier_state_holds dim memory_limit_gb st :
  (forall root, SnakeNode.new [] dim = Ok root -> Q root) ->
  frontier_state dim memory_limit_gb st -> state_holds st.
Proof.
  intros Hroot. induction 1 as [root Hnew|st st' _ IH Hstep].
  - split; cbn [initial_state current_level best_so_far].
    + intros nd [<-|[]]. apply Hroot, Hnew.
    + discriminate.
  - eapply bfs_level_holds; eauto.
Qed.

End SearchNodeInvariant.

Lemma zrange_succ (k : Z) : 0 <= k -> zrange (k + 1) = zrange k ++ [k].
Proof.
  intros Hk. unfold zrange. rewrite Z2Nat.inj_add by lia.
  change (Z.to_nat 1) with 1%nat. rewrite Nat.add_1_r, seq_S, map_app.
  cbn [map Nat.add]. rewrite Z2Nat.id by lia. reflexivity.
Qed.

Lemma legal_dimensions_zrange (k d : Z) :
  0 <= k -> (In d (get_legal_next_dimensions (zrange k)) <-> 0 <= d <= k).
Proof.
  intros Hk. destruct (zrange k) as [|first others] eqn:Hz.
  - assert (k = 0).
    { destruct (Z.eq_dec k 0); [assumption|].
      assert (Hin : In 0 (zrange k)) by (apply in_zrange; lia).
      rewrite Hz in Hin. destruct Hin. }
    subst k. cbn. split; [intros [<-|[]]; lia|intros; left; lia].
  - rewrite legal_next_dimensions_In, <- Hz.
    destruct (py_max_spec others first) as [Hle Hin].
    rewrite <- Hz in Hle, Hin. apply in_zrange in Hin.
    assert (Hmax : py_max first others = k - 1).
    { assert (k - 1 <= py_max first others); [|lia].
      apply Hle, in_zrange.
      assert (Hne : In first (zrange k)) by (rewrite Hz; left; reflexivity).
      apply in_zrange in Hne. lia. }
    rewrite Hmax, in_zrange. lia.
Qed.

(** The nodes the search visits: the sequence is [0, 1, ..., k-1] for some
    [k], and its path is a valid snake. *)
Definition counted_node (dim : Z) (nd : SnakeNode.t) : Prop :=
  exists k, 0 <= k /\ node_inv (zrange k) dim nd /\
    fst (validate_snake (node_path (zrange k))) = true.

Lemma counted_root dim root :
  SnakeNode.new [] dim = Ok root -> counted_node dim root.
Proof.
  intros Hroot. exists 0. split; [lia|]. split; [|reflexivity].
  apply node_new_inv in Hroot. exact Hroot.
Qed.

Lemma counted_child dim nd d c :
  counted_node dim nd ->
  In d (get_legal_next_dimensions (SnakeNode.transition_sequence nd)) ->
  SnakeNode.create_child nd d = Ok c ->
  counted_node dim c /\ (counted_node dim c /\ 1 <= SnakeNode.get_length c).
Proof.
  intros (k & Hk & Hinv & Hvalid) Hd Hc.
  rewrite (inv_sequence _ _ _ Hinv) in Hd. apply legal_dimensions_zrange in Hd; [|exact Hk].
  destruct (create_child_inv _ _ _ _ _ Hinv Hc) as [Hext Hcinv].
  destruct (can_extend_unused _ dim nd d Hinv) as [(_ & Hrange & Hnot)|[Hno _]];
    [|congruence].
  assert (d = k).
  { destruct (Z.eq_dec d k); [assumption|]. exfalso. apply Hnot, in_zrange. lia. }
  subst d.
  assert (Hcounted : counted_node dim c).
  { exists (k + 1). split; [lia|]. rewrite zrange_succ by assumption.
    split; [exact Hcinv|].
    apply (child_path_valid (zrange k) dim k); try assumption;
      [apply (inv_dim _ _ _ Hinv)|apply (inv_range _ _ _ Hinv)]. }
  split; [exact Hcounted|]. split; [exact Hcounted|].
  unfold SnakeNode.get_length. rewrite (inv_sequence _ _ _ Hcinv), length_app.
  cbn [length]. lia.
Qed.

Lemma counted_node_shape dim nd :
  counted_node dim nd ->
  SnakeNode.transition_sequence nd = zrange (SnakeNode.get_length nd) /\
  0 <= SnakeNode.get_length nd <= dim /\
  exists r, validate_transition_sequence (SnakeNode.transition_sequence nd) dim
            = Ok (true, r).
Proof.
  intros (k & Hk & Hinv & Hvalid).
  assert (Hlen : SnakeNode.get_length nd = k).
  { unfold SnakeNode.get_length. rewrite (inv_sequence _ _ _ Hinv).
    apply zrange_length. exact Hk. }
  rewrite Hlen, (inv_sequence _ _ _ Hinv). split; [reflexivity|]. split.
  - split; [exact Hk|]. pose proof (inv_dim _ _ _ Hinv).
    destruct (Z.eq_dec k 0); [lia|].
    pose proof (inv_range _ _ _ Hinv) as Hall. rewrite List.Forall_forall in Hall.
    assert (Hin : In (k - 1) (zrange k)) by (apply in_zrange; lia).
    apply Hall in Hin. unfold in_range in Hin. lia.
  - destruct (validate_sequence_path _ dim (inv_range _ _ _ Hinv)) as (r & Hr & _).
    exists r. rewrite Hr, Hvalid. reflexivity.
Qed.

(** X23: the snake that [pruned_bfs_search] returns uses each dimension at
    most once: its transition sequence is [0, 1, ..., k-1] with
    [1 <= k <= dimension], and [validate_transition_sequence] accepts it.
    The same holds of every node of every frontier of the search. *)
Theorem bfs_result_shape `{Platform} (dim : Z) (memory_limit_gb : float) :
  (forall fuel b,
     pruned_bfs_search fuel dim memory_limit_gb = Some (Ok (Some b)) ->
     SnakeNode.transition_sequence b = zrange (SnakeNode.get_length b) /\
     1 <= SnakeNode.get_length b <= dim /\
     exists r, validate_transition_sequence (SnakeNode.transition_sequence b) dim
               = Ok (true, r))
  /\
  (forall st nd,
     frontier_state dim memory_limit_gb st -> In nd (current_level st) ->
     SnakeNode.transition_sequence nd = zrange (SnakeNode.get_length nd) /\
     0 <= SnakeNode.get_length nd <= dim /\
     exists r, validate_transition_sequence (SnakeNode.transition_sequence nd) dim
               = Ok (true, r)).
Proof.
  split.
  - intros fuel b Hb.
    destruct (bfs_search_holds (counted_node dim)
                (fun c => counted_node dim c /\ 1 <= SnakeNode.get_length c)
                (counted_child dim) dim memory_limit_gb fuel b
                (counted_root dim) Hb) as [Hcounted Hlen].
    destruct (counted_node_shape dim b Hcounted) as (Hseq & Hbound & Hvalid).
    split; [exact Hseq|]. split; [lia|exact Hvalid].
  - intros st nd Hst Hnd. apply counted_node_shape.
    destruct (frontier_state_holds (counted_node dim)
                (fun c => counted_node dim c /\ 1 <= SnakeNode.get_length c)
                (counted_child dim) dim memory_limit_gb st (counted_root dim) Hst)
      as [Hnodes _].
    apply Hnodes, Hnd.
Qed.

(** ** The search when nothing is pruned *)

Lemma for_each_app {A S : Type} (body : A -> S -> result S) (l1 l2 : list A) :
  forall s,
    for_each (l1 ++ l2) body s = (s' <- for_each l1 body s ;; for_each l2 body s').
Proof.
  induction l1 as [|x l1 IH]; intros s; cbn [app for_each bind]; [reflexivity|].
  destruct (body x s) as [s1|]; cbn [bind]; [apply IH|reflexivity].
Qed.

Lemma ordered_split (l1 l2 : list Z) (x : Z) :
  ForallOrdPairs Z.lt (l1 ++ x :: l2) ->
  (forall y, In y l1 -> y < x) /\ (forall y, In y l2 -> x < y).
Proof.
  induction l1 as [|a l1 IH]; cbn [app]; intros Hord;
    inversion Hord as [|? ? Hhead Htail]; subst.
  - split; [intros y []|]. rewrite List.Forall_forall in Hhead. exact Hhead.
  - destruct (IH Htail) as [Hl Hr]. split; [|exact Hr].
    intros y [<-|Hy]; [|apply Hl, Hy].
    rewrite List.Forall_forall in Hhead. apply Hhead, in_elt.
Qed.

Section Unpruned.
Context `{Platform}.
Variable dim : Z.
Variable memory_limit_gb : float.
Hypothesis dim_pos : 1 <= dim.
Hypothesis unpruned :
  forall k nd, SnakeNode.new (zrange k) dim = Ok nd ->
    float_gt (estimate_memory_usage [nd]) memory_limit_gb = false.

Lemma expand_blocked nd dims acc :
  (forall d, In d dims -> SnakeNode.can_extend nd d = Ok false) ->
  for_each dims (expand_dimension nd) acc = Ok acc.
Proof.
  induction dims as [|d dims IH]; intros Hno; [reflexivity|].
  cbn [for_each]. unfold expand_dimension at 1, is_valid_extension.
  rewrite (Hno d) by (left; reflexivity). cbn [bind].
  apply IH. intros d' Hd'. apply Hno. right. exact Hd'.
Qed.

Lemma expand_dimension_child nd d c acc :
  SnakeNode.can_extend nd d = Ok true -> SnakeNode.create_child nd d = Ok c ->
  expand_dimension nd d acc
  = Ok {| next_level := next_level acc ++ [c];
          best_snake := if SnakeNode.get_length c >? max_length acc
                        then Some c else best_snake acc;
          max_length := if SnakeNode.get_length c >? max_length acc
                        then SnakeNode.get_length c else max_length acc;
          total_nodes_explored := total_nodes_explored acc + 1 |}.
Proof.
  intros Hext Hc. unfold expand_dimension, is_valid_extension.
  rewrite Hext. cbn [bind]. rewrite Hc. reflexivity.
Qed.

(** The state at the start of level [k]: the frontier is the single node
    [0, 1, ..., k-1], which is also the best snake so far. *)
Definition single_state (k : Z) (st : search_state) : Prop :=
  exists nd, current_level st = [nd] /\
    SnakeNode.new (zrange k) dim = Ok nd /\
    best_length st = k /\
    (k = 0 \/ best_so_far st = Some nd).

Lemma single_level_blocked k nd d :
  0 <= k -> node_inv (zrange k) dim nd ->
  In d (get_legal_next_dimensions (zrange k)) -> d <> k \/ k = dim ->
  SnakeNode.can_extend nd d = Ok false.
Proof.
  intros Hk Hinv Hd Hcase. apply legal_dimensions_zrange in Hd; [|exact Hk].
  destruct (can_extend_unused _ dim nd d Hinv) as [(_ & Hrange & Hnot)|[Hno _]];
    [exfalso|exact Hno].
  unfold in_range in Hrange. apply Hnot, in_zrange.
  destruct Hcase as [Hne|Heq]; lia.
Qed.

Lemma single_level_step k st :
  0 <= k < dim -> single_state k st ->
  exists st', bfs_level memory_limit_gb st = Ok st' /\ single_state (k + 1) st'.
Proof.
  intros Hk (nd & Hlevel & Hnew & Hlen & Hbest).
  pose proof (node_new_inv _ _ _ Hnew) as Hinv.
  assert (Hext : SnakeNode.can_extend nd k = Ok true).
  { destruct (can_extend_unused _ dim nd k Hinv) as [(Hext & _)|[_ Hno]];
      [exact Hext|exfalso].
    apply Hno. split; [unfold in_range; lia|].
    intros Hin. apply in_zrange in Hin. lia. }
  destruct (create_child_ok _ _ _ _ Hinv Hext) as (c & Hc & Hcinv).
  assert (Hcnew : SnakeNode.new (zrange (k + 1)) dim = Ok c).
  { revert Hc. unfold SnakeNode.create_child. rewrite Hext. cbn [bind negb].
    rewrite (inv_sequence _ _ _ Hinv), (inv_dimension _ _ _ Hinv).
    rewrite zrange_succ by lia. auto. }
  assert (Hclen : SnakeNode.get_length c = k + 1).
  { unfold SnakeNode.get_length. rewrite (inv_sequence _ _ _ Hcinv), length_app.
    cbn [length]. rewrite Nat2Z.inj_add, zrange_length by lia. reflexivity. }
  assert (Hin : In k (get_legal_next_dimensions (zrange k)))
    by (apply legal_dimensions_zrange; lia).
  destruct (in_split _ _ Hin) as (l1 & l2 & Hsplit).
  pose proof (legal_next_dimensions_increasing (zrange k)) as Hord.
  rewrite Hsplit in Hord. destruct (ordered_split _ _ _ Hord) as [Hl1 Hl2].
  assert (Hblocked : forall d, In d l1 \/ In d l2 ->
            SnakeNode.can_extend nd d = Ok false).
  { intros d Hd. apply (single_level_blocked k); [lia|exact Hinv| |].
    - rewrite Hsplit. apply in_or_app. destruct Hd; [left|right; right]; assumption.
    - left. destruct Hd as [Hd|Hd]; [apply Hl1 in Hd|apply Hl2 in Hd]; lia. }
  unfold bfs_level. rewrite Hlevel. cbn [for_each].
  unfold expand_node. rewrite (inv_sequence _ _ _ Hinv), Hsplit.
  rewrite for_each_app, expand_blocked by (intros d Hd; apply Hblocked; auto).
  cbn [bind for_each]. rewrite (expand_dimension_child nd k c _ Hext Hc).
  cbn [bind next_level best_snake max_length total_nodes_explored app].
  rewrite Hclen, Hlen.
  destruct (Z.gtb_spec (k + 1) k); [|lia].
  rewrite expand_blocked by (intros d Hd; apply Hblocked; auto).
  cbn [bind next_level]. rewrite (unpruned (k + 1) c Hcnew). cbn [bind].
  eexists. split; [reflexivity|].
  exists c. cbn [current_level best_so_far best_length]. auto.
Qed.

Lemma single_level_last st :
  single_state dim st ->
  exists st' b, bfs_level memory_limit_gb st = Ok st' /\
    current_level st' = [] /\ best_so_far st' = Some b /\
    SnakeNode.new (zrange dim) dim = Ok b.
Proof.
  intros (nd & Hlevel & Hnew & Hlen & Hbest).
  pose proof (node_new_inv _ _ _ Hnew) as Hinv.
  destruct Hbest as [Hzero|Hbest]; [lia|].
  unfold bfs_level. rewrite Hlevel. cbn [for_each].
  unfold expand_node. rewrite (inv_sequence _ _ _ Hinv).
  rewrite expand_blocked.
  - cbn [bind next_level best_snake max_length total_nodes_explored].
    assert (Hpruned : (if float_gt (estimate_memory_usage []) memory_limit_gb
                       then prune_by_fitness [] memory_limit_gb
                       else Ok []) = Ok [])
      by (destruct (float_gt _ _); reflexivity).
    rewrite Hpruned. cbn [bind]. eexists _, nd. split; [reflexivity|].
    cbn [current_level best_so_far]. auto.
  - intros d Hd. apply (single_level_blocked dim); [lia|exact Hinv|exact Hd|].
    right. reflexivity.
Qed.

Lemma single_loop fuel :
  forall k st,
    0 <= k <= dim -> single_state k st -> dim - k < Z.of_nat fuel ->
    exists b, pruned_bfs_search_loop fuel memory_limit_gb st = Some (Ok (Some b)) /\
      SnakeNode.new (zrange dim) dim = Ok b.
Proof.
  induction fuel as [|fuel IH]; intros k st Hk Hst Hfuel; [lia|].
  cbn [pruned_bfs_search_loop].
  destruct (Z.eq_dec k dim) as [->|Hne].
  - destruct (single_level_last st Hst) as (st' & b & Hstep & Hempty & Hbest & Hb).
    destruct Hst as (nd & Hlevel & _). rewrite Hlevel, Hstep, Hempty, Hbest.
    eauto.
  - destruct (single_level_step k st ltac:(lia) Hst) as (st' & Hstep & Hst').
    destruct Hst as (nd & Hlevel & _). rewrite Hlevel, Hstep.
    destruct Hst' as (c & Hlevel' & Hrest). rewrite Hlevel'.
    apply (IH (k + 1)); [lia| |lia]. exists c. auto.
Qed.

End Unpruned.

(** X24: when no frontier is pruned (the memory estimate of each
    single-node frontier stays within the limit), [pruned_bfs_search]
    returns, after [dimension + 1] levels, exactly the node of the sequence
    [0, 1, ..., dimension-1]: a snake of length [dimension]. *)
Theorem bfs_without_pruning `{Platform} (dim : Z) (memory_limit_gb : float) :
  1 <= dim ->
  (forall k nd, SnakeNode.new (zrange k) dim = Ok nd ->
     float_gt (estimate_memory_usage [nd]) memory_limit_gb = false) ->
  forall fuel, dim < Z.of_nat fuel ->
    exists b, pruned_bfs_search fuel dim memory_limit_gb = Some (Ok (Some b)) /\
      SnakeNode.new (zrange dim) dim = Ok b /\
      SnakeNode.transition_sequence b = zrange dim /\
      SnakeNode.get_length b = dim.
Proof.
  intros Hdim Hfit fuel Hfuel.
  destruct (node_new_ok [] dim Hdim ltac:(constructor)) as (root & Hroot & Hinv).
  destruct (single_loop dim memory_limit_gb Hdim Hfit fuel 0 (initial_state root))
    as (b & Hb & Hnew); [lia| |lia|].
  - exists root. cbn [initial_state current_level best_length]. auto.
  - exists b. unfold pruned_bfs_search. rewrite Hroot.
    split; [exact Hb|]. split; [exact Hnew|].
    apply node_new_inv in Hnew. unfold SnakeNode.get_length.
    rewrite (inv_sequence _ _ _ Hnew). split; [reflexivity|].
    apply zrange_length. lia.
Qed.

Lemma reference_small_node_fits (k : Z) (nd : SnakeNode.t) :
  SnakeNode.new (zrange k) 3 = Ok nd ->
  @float_gt reference_platform
    (@estimate_memory_usage reference_platform [nd]) (18 # 1)%Q = false.
Proof.
  intros Hnd. apply node_new_inv in Hnd.
  pose proof (inv_wf _ _ _ Hnd) as Hwf.
  assert (Hwords : HypercubeBitmap.num_words (SnakeNode.vertices_bitmap nd) = 1).
  { rewrite (wf_num_words _ Hwf), (wf_num_vertices _ Hwf),
      (inv_bitmap_dimension _ _ _ Hnd). reflexivity. }
  pose proof (wf_length _ Hwf) as Hlen. rewrite Hwords in Hlen.
  assert (Hk : k <= 3).
  { destruct (Z_le_dec k 0); [lia|].
    pose proof (inv_range _ _ _ Hnd) as Hall. rewrite List.Forall_forall in Hall.
    assert (Hin : In (k - 1) (zrange k)) by (apply in_zrange; lia).
    apply Hall in Hin. unfold in_range in Hin. lia. }
  assert (Hseq : (length (zrange k) <= 3)%nat).
  { unfold zrange. rewrite length_map, length_seq. lia. }
  unfold estimate_memory_usage, estimate_node_size.
  cbn [float_gt bytes_to_gb getsizeof_list getsizeof_int getsizeof_array
       reference_platform].
  rewrite (inv_sequence _ _ _ Hnd), Hlen, Hwords.
  destruct (length (zrange k)) as [|[|[|[|n]]]]; [reflexivity..|lia].
Qed.

Lemma bfs_without_pruning_witness :
  exists b, @pruned_bfs_search reference_platform 4 3 (18 # 1)%Q
            = Some (Ok (Some b)) /\
    SnakeNode.new (zrange 3) 3 = Ok b /\
    SnakeNode.transition_sequence b = zrange 3 /\
    SnakeNode.get_length b = 3.
Proof.
  apply (@bfs_without_pruning reference_platform 3 (18 # 1)%Q);
    [lia|exact reference_small_node_fits|reflexivity].
Defined.

(** ** Pruning keeps the fittest nodes *)

Section Pruning.
Context `{Platform}.

(** [a] is at least as fit as [b]. *)
Definition fitter (a b : SnakeNode.t) : Prop :=
  SnakeNode.fitness b <= SnakeNode.fitness a.

Lemma insert_by_fitness_perm x l : Permutation (insert_by_fitness x l) (x :: l).
Proof.
  induction l as [|y l IH]; cbn [insert_by_fitness]; [reflexivity|].
  destruct (SnakeNode.fitness y <=? SnakeNode.fitness x); [reflexivity|].
  rewrite IH. apply perm_swap.
Qed.

Lemma sort_by_fitness_perm l : Permutation (sort_by_fitness l) l.
Proof.
  induction l as [|x l IH]; [reflexivity|].
  change (sort_by_fitness (x :: l)) with (insert_by_fitness x (sort_by_fitness l)).
  rewrite insert_by_fitness_perm, IH. reflexivity.
Qed.

Lemma insert_by_fitness_sorted x l :
  ForallOrdPairs fitter l -> ForallOrdPairs fitter (insert_by_fitness x l).
Proof.
  induction 1 as [|y l Hy Hl IH]; cbn [insert_by_fitness].
  - constructor; constructor.
  - destruct (Z.leb_spec (SnakeNode.fitness y) (SnakeNode.fitness x)) as [Hle|Hgt].
    + constructor; [|constructor; assumption].
      constructor; [exact Hle|].
      eapply List.Forall_impl; [|exact Hy]. unfold fitter. intros z Hz. lia.
    + constructor; [|exact IH].
      apply List.Forall_forall. intros z Hz.
      apply insert_by_fitness_In in Hz as [->|Hz]; [unfold fitter; lia|].
      rewrite List.Forall_forall in Hy. apply Hy, Hz.
Qed.

Lemma sort_by_fitness_sorted l : ForallOrdPairs fitter (sort_by_fitness l).
Proof.
  induction l as [|x l IH]; [constructor|].
  change (sort_by_fitness (x :: l)) with (insert_by_fitness x (sort_by_fitness l)).
  apply insert_by_fitness_sorted, IH.
Qed.

Lemma ordered_firstn_skipn (n : nat) (l : list SnakeNode.t) :
  ForallOrdPairs fitter l ->
  ForallOrdPairs fitter (firstn n l) /\
  (forall a b, In a (firstn n l) -> In b (skipn n l) -> fitter a b).
Proof.
  revert n. induction l as [|x l IH]; intros n Hord.
  - rewrite firstn_nil, skipn_nil. split; [constructor|intros a b []].
  - destruct n as [|n]; [split; [constructor|intros a b []]|].
    inversion Hord as [|? ? Hx Hl]; subst. cbn [firstn skipn].
    destruct (IH n Hl) as [Hfirst Hcross]. split.
    + constructor; [|exact Hfirst].
      apply List.Forall_forall. intros z Hz. apply In_firstn in Hz.
      rewrite List.Forall_forall in Hx. apply Hx, Hz.
    + intros a b [<-|Ha] Hb; [|apply Hcross; assumption].
      rewrite List.Forall_forall in Hx. apply Hx.
      rewrite <- (firstn_skipn n l). apply in_or_app. right. exact Hb.
Qed.

(** X25: [prune_by_fitness] returns the list unchanged when it fits
    the node budget [max_nodes]; otherwise it keeps, in order of
    decreasing fitness, [max_nodes] nodes (for a negative budget: all but
    the last [-max_nodes], as Python's slice does), and every node it
    drops is at most as fit as every node it keeps. *)
Theorem prune_by_fitness_keeps_fittest (first : SnakeNode.t)
  (rest : list SnakeNode.t) (memory_limit_gb : float) (max_nodes : Z) :
  nodes_within memory_limit_gb (estimate_node_size first) = Ok max_nodes ->
  exists pruned,
    prune_by_fitness (first :: rest) memory_limit_gb = Ok pruned /\
    (Z.of_nat (length (first :: rest)) <= max_nodes -> pruned = first :: rest) /\
    (max_nodes < Z.of_nat (length (first :: rest)) ->
     Z.of_nat (length pruned)
     = Z.max 0 (if max_nodes <? 0
                then Z.of_nat (length (first :: rest)) + max_nodes
                else max_nodes) /\
     ForallOrdPairs fitter pruned /\
     exists dropped,
       Permutation (first :: rest) (pruned ++ dropped) /\
       (forall a b, In a pruned -> In b dropped -> fitter a b)).
Proof.
  intros Hbudget. unfold prune_by_fitness. rewrite Hbudget. cbn [bind].
  set (nodes := first :: rest).
  destruct (Z.leb_spec (Z.of_nat (length nodes)) max_nodes) as [Hle|Hgt].
  { exists nodes. split; [reflexivity|]. split; [reflexivity|lia]. }
  eexists. split; [reflexivity|]. split; [lia|]. intros _.
  pose proof (sort_by_fitness_perm nodes) as Hperm.
  pose proof (Permutation_length Hperm) as Hlen.
  pose proof (sort_by_fitness_sorted nodes) as Hsorted.
  unfold py_slice_to. rewrite Hlen.
  set (n := Z.to_nat (if max_nodes <? 0
                      then Z.of_nat (length nodes) + max_nodes
                      else max_nodes)).
  assert (Hslice : (if max_nodes <? 0
                    then firstn (Z.to_nat (Z.of_nat (length nodes) + max_nodes))
                           (sort_by_fitness nodes)
                    else firstn (Z.to_nat max_nodes) (sort_by_fitness nodes))
                   = firstn n (sort_by_fitness nodes))
    by (unfold n; destruct (max_nodes <? 0); reflexivity).
  rewrite Hslice.
  destruct (ordered_firstn_skipn n _ Hsorted) as [Hfirst Hcross].
  split; [|split; [exact Hfirst|]].
  - rewrite length_firstn, Hlen. unfold n.
    destruct (Z.ltb_spec max_nodes 0); lia.
  - exists (skipn n (sort_by_fitness nodes)). split; [|exact Hcross].
    rewrite firstn_skipn. symmetry. exact Hperm.
Qed.

End Pruning.

Lemma prune_by_fitness_keeps_fittest_witness :
  let first := {| SnakeNode.transition_sequence := [0];
                  SnakeNode.dimension := 3;
                  SnakeNode.vertices_bitmap :=
                    {| HypercubeBitmap.dimension := 3;
                       HypercubeBitmap.num_vertices := 8;
                       HypercubeBitmap.num_words := 1;
                       HypercubeBitmap.bitmap := [3] |};
                  SnakeNode.fitness := 6 |} in
  let root := {| SnakeNode.transition_sequence := [];
                 SnakeNode.dimension := 3;
                 SnakeNode.vertices_bitmap :=
                   {| HypercubeBitmap.dimension := 3;
                      HypercubeBitmap.num_vertices := 8;
                      HypercubeBitmap.num_words := 1;
                      HypercubeBitmap.bitmap := [1] |};
                 SnakeNode.fitness := 7 |} in
  exists pruned,
    @prune_by_fitness reference_platform [first; root] (388 # 1073741824)%Q
    = Ok pruned /\
    (Z.of_nat (length [first; root]) <= 1 -> pruned = [first; root]) /\
    (1 < Z.of_nat (length [first; root]) ->
     Z.of_nat (length pruned)
     = Z.max 0 (if 1 <? 0 then Z.of_nat (length [first; root]) + 1 else 1) /\
     ForallOrdPairs fitter pruned /\
     exists dropped,
       Permutation [first; root] (pruned ++ dropped) /\
       (forall a b, In a pruned -> In b dropped -> fitter a b)).
Proof.
  intros first root.
  apply (@prune_by_fitness_keeps_fittest reference_platform first [root]
           (388 # 1073741824)%Q 1).
  reflexivity.
Defined.

(** ** The fitness evaluators *)

(** The number of unmarked neighbours of [v] in the node's bitmap. *)
Definition unmarked_neighbors (nd : SnakeNode.t) (v : Z) : Z :=
  count_if
    (fun d => negb (marked (SnakeNode.vertices_bitmap nd) (Z.lxor v (Z.shiftl 1 d))))
    (zrange (SnakeNode.dimension nd)).

(** A dead end: an unmarked vertex with exactly one unmarked neighbour. *)
Definition is_dead_end (nd : SnakeNode.t) (v : Z) : bool :=
  negb (marked (SnakeNode.vertices_bitmap nd) v) && (unmarked_neighbors nd v =? 1).

Lemma count_unmarked_neighbors_loop seq dim nd v dims :
  node_inv seq dim nd -> 0 <= v < 2 ^ dim ->
  (forall d, In d dims -> 0 <= d < dim) ->
  forall count,
    for_each dims
      (fun dim unmarked_neighbors =>
         let neighbor := Z.lxor v (Z.shiftl 1 dim) in
         marked <- SnakeNode._is_marked nd neighbor ;;
         Ok (if negb marked then unmarked_neighbors + 1 else unmarked_neighbors))
      count
    = Ok (count
          + count_if
              (fun d => negb (marked (SnakeNode.vertices_bitmap nd)
                                (Z.lxor v (Z.shiftl 1 d)))) dims).
Proof.
  intros Hinv Hv. induction dims as [|d dims IH]; intros Hd count;
    cbn [for_each count_if].
  - rewrite Z.add_0_r. reflexivity.
  - cbv zeta.
    rewrite (is_marked_ok _ _ _ _ Hinv)
      by (apply flip_in_range; [exact Hv|apply Hd; left; reflexivity]).
    cbn [bind]. rewrite IH by (intros d' Hd'; apply Hd; right; exact Hd').
    f_equal. destruct (marked _ _); cbn [negb Z.b2z]; lia.
Qed.

Lemma count_unmarked_neighbors_ok seq dim nd v :
  node_inv seq dim nd -> 0 <= v < 2 ^ dim ->
  AdvancedFitnessEvaluator._count_unmarked_neighbors
    (AdvancedFitnessEvaluator.new nd) v
  = Ok (unmarked_neighbors nd v).
Proof.
  intros Hinv Hv.
  unfold AdvancedFitnessEvaluator._count_unmarked_neighbors, unmarked_neighbors.
  change (AdvancedFitnessEvaluator.node (AdvancedFitnessEvaluator.new nd)) with nd.
  change (AdvancedFitnessEvaluator.dimension (AdvancedFitnessEvaluator.new nd))
    with (SnakeNode.dimension nd).
  rewrite (inv_dimension _ _ _ Hinv).
  rewrite (count_unmarked_neighbors_loop seq dim nd v) by
    (try assumption; intros d Hd; apply in_zrange in Hd; exact Hd).
  reflexivity.
Qed.

Lemma count_dead_ends_loop seq dim nd vertices :
  node_inv seq dim nd ->
  (forall v, In v vertices -> 0 <= v < 2 ^ dim) ->
  forall dead_ends,
    for_each vertices
      (AdvancedFitnessEvaluator._count_dead_end (AdvancedFitnessEvaluator.new nd))
      dead_ends
    = Ok (dead_ends + count_if (is_dead_end nd) vertices).
Proof.
  intros Hinv. induction vertices as [|v vertices IH]; intros Hv dead_ends;
    cbn [for_each count_if].
  - rewrite Z.add_0_r. reflexivity.
  - assert (Hrange : 0 <= v < 2 ^ dim) by (apply Hv; left; reflexivity).
    unfold AdvancedFitnessEvaluator._count_dead_end at 1.
    change (AdvancedFitnessEvaluator.node (AdvancedFitnessEvaluator.new nd)) with nd.
    rewrite (is_marked_ok _ _ _ _ Hinv Hrange). cbn [bind].
    unfold is_dead_end at 1.
    destruct (marked (SnakeNode.vertices_bitmap nd) v); cbn [negb andb Z.b2z bind].
    + rewrite IH by (intros v' Hv'; apply Hv; right; exact Hv').
      f_equal.
    + rewrite (count_unmarked_neighbors_ok _ _ _ _ Hinv Hrange). cbn [bind].
      rewrite IH by (intros v' Hv'; apply Hv; right; exact Hv').
      f_equal. destruct (unmarked_neighbors nd v =? 1); cbn [Z.b2z]; lia.
Qed.

(** X26: on a constructed node [count_dead_ends] never raises; it returns
    the number of unmarked vertices that have exactly one unmarked
    neighbour, which lies between 0 and the node's fitness. *)
Theorem count_dead_ends_spec (seq : list Z) (dim : Z) (nd : SnakeNode.t) :
  SnakeNode.new seq dim = Ok nd ->
  exists n,
    AdvancedFitnessEvaluator.count_dead_ends (AdvancedFitnessEvaluator.new nd)
    = Ok n /\
    n = count_if (is_dead_end nd) (zrange (2 ^ dim)) /\
    0 <= n <= SnakeNode.fitness nd.
Proof.
  intros Hnew. apply node_new_inv in Hnew.
  pose proof (inv_dim _ _ _ Hnew) as Hdim.
  eexists. split; [|split; [reflexivity|]].
  - unfold AdvancedFitnessEvaluator.count_dead_ends.
    change (AdvancedFitnessEvaluator.dimension (AdvancedFitnessEvaluator.new nd))
      with (SnakeNode.dimension nd).
    rewrite (inv_dimension _ _ _ Hnew). unfold py_lshift.
    destruct (Z.ltb_spec dim 0); [lia|]. cbn [bind]. rewrite Z.shiftl_1_l.
    rewrite (count_dead_ends_loop seq dim nd) by
      (try assumption; intros v Hv; apply in_zrange in Hv; exact Hv).
    reflexivity.
  - split; [apply count_if_bounds|].
    rewrite (inv_fitness _ _ _ Hnew). apply count_if_mono.
    intros v _ Hdead. unfold is_dead_end in Hdead.
    apply andb_true_iff in Hdead as [Hfree _]. exact Hfree.
Qed.

Lemma count_dead_ends_spec_witness :
  let nd := {| SnakeNode.transition_sequence := [0; 1];
               SnakeNode.dimension := 3;
               SnakeNode.vertices_bitmap :=
                 {| HypercubeBitmap.dimension := 3;
                    HypercubeBitmap.num_vertices := 8;
                    HypercubeBitmap.num_words := 1;
                    HypercubeBitmap.bitmap := [15] |};
               SnakeNode.fitness := 4 |} in
  exists n,
    AdvancedFitnessEvaluator.count_dead_ends (AdvancedFitnessEvaluator.new nd)
    = Ok n /\
    n = count_if (is_dead_end nd) (zrange (2 ^ 3)) /\
    0 <= n <= SnakeNode.fitness nd.
Proof.
  intros nd. apply (count_dead_ends_spec [0; 1] 3 nd). reflexivity.
Defined.

(** X27: the current vertex of a node is marked, so the flood fill of
    [count_unreachable_vertices] stops at once with an empty set, and the
    count it returns is the node's fitness, the value of
    [SimpleFitnessEvaluator.evaluate] and of [count_unmarked_vertices]. *)
Theorem unreachable_count_is_fitness (seq : list Z) (dim : Z) (nd : SnakeNode.t)
  (fuel : nat) :
  SnakeNode.new seq dim = Ok nd ->
  (2 <= fuel)%nat ->
  exists current,
    SnakeNode.get_current_vertex nd = Ok current /\
    SnakeNode._is_marked nd current = Ok true /\
    AdvancedFitnessEvaluator._flood_fill_reachable fuel
      (AdvancedFitnessEvaluator.new nd) current = Some (Ok ∅) /\
    AdvancedFitnessEvaluator.count_unreachable_vertices fuel
      (AdvancedFitnessEvaluator.new nd)
    = Some (Ok (SimpleFitnessEvaluator.evaluate (SimpleFitnessEvaluator.new nd))) /\
    SimpleFitnessEvaluator.evaluate (SimpleFitnessEvaluator.new nd)
    = AdvancedFitnessEvaluator.count_unmarked_vertices
        (AdvancedFitnessEvaluator.new nd).
Proof.
  intros Hnew Hfuel. apply node_new_inv in Hnew.
  destruct (current_vertex_ok _ _ _ Hnew) as (Hcur & Hrange & Hmarked).
  assert (Hm : SnakeNode._is_marked nd (end_vertex 0 seq) = Ok true)
    by (rewrite (is_marked_ok _ _ _ _ Hnew Hrange), Hmarked; reflexivity).
  assert (Hfill : AdvancedFitnessEvaluator._flood_fill_reachable fuel
                    (AdvancedFitnessEvaluator.new nd) (end_vertex 0 seq)
                  = Some (Ok ∅)).
  { destruct fuel as [|[|fuel]]; [lia|lia|].
    unfold AdvancedFitnessEvaluator._flood_fill_reachable.
    cbn [AdvancedFitnessEvaluator._flood_fill_loop].
    destruct (decide (end_vertex 0 seq ∈ (∅ : gset Z))) as [Hin|_];
      [exfalso; revert Hin; apply not_elem_of_empty|].
    change (AdvancedFitnessEvaluator.node (AdvancedFitnessEvaluator.new nd)) with nd.
    rewrite Hm. reflexivity. }
  exists (end_vertex 0 seq). split; [exact Hcur|]. split; [exact Hm|].
  split; [exact Hfill|]. split; [|reflexivity].
  unfold AdvancedFitnessEvaluator.count_unreachable_vertices.
  unfold SnakeNode.get_current_vertex in Hcur.
  change (AdvancedFitnessEvaluator.node (AdvancedFitnessEvaluator.new nd)) with nd.
  rewrite Hcur, Hfill, size_empty.
  unfold AdvancedFitnessEvaluator.count_unmarked_vertices,
    SimpleFitnessEvaluator.evaluate.
  cbn [AdvancedFitnessEvaluator.new AdvancedFitnessEvaluator.node
       SimpleFitnessEvaluator.new SimpleFitnessEvaluator.node].
  rewrite Z.sub_0_r. reflexivity.
Qed.

Lemma unreachable_count_is_fitness_witness :
  let nd := {| SnakeNode.transition_sequence := [0; 1];
               SnakeNode.dimension := 3;
               SnakeNode.vertices_bitmap :=
                 {| HypercubeBitmap.dimension := 3;
                    HypercubeBitmap.num_vertices := 8;
                    HypercubeBitmap.num_words := 1;
                    HypercubeBitmap.bitmap := [15] |};
               SnakeNode.fitness := 4 |} in
  exists current,
    SnakeNode.get_current_vertex nd = Ok current /\
    SnakeNode._is_marked nd current = Ok true /\
    AdvancedFitnessEvaluator._flood_fill_reachable 2
      (AdvancedFitnessEvaluator.new nd) current = Some (Ok ∅) /\
    AdvancedFitnessEvaluator.count_unreachable_vertices 2
      (AdvancedFitnessEvaluator.new nd)
    = Some (Ok (SimpleFitnessEvaluator.evaluate (SimpleFitnessEvaluator.new nd))) /\
    SimpleFitnessEvaluator.evaluate (SimpleFitnessEvaluator.new nd)
    = AdvancedFitnessEvaluator.count_unmarked_vertices
        (AdvancedFitnessEvaluator.new nd).
Proof.
  intros nd. apply (unreachable_count_is_fitness [0; 1] 3 nd 2).
  - reflexivity.
  - apply le_n.
Defined.

(** ** Priming *)

Lemma node_new_above_detect (seq : list Z) (d : Z) :
  Forall (fun t => 0 <= t) seq -> detect_dimension seq <= d ->
  exists nd, SnakeNode.new seq d = Ok nd.
Proof.
  intros Hpos Hle.
  assert (Hdim : 1 <= d /\ Forall (in_range d) seq).
  { destruct seq as [|first others]; [split; [exact Hle|constructor]|].
    unfold detect_dimension in Hle.
    destruct (py_max_spec others first) as [Hmax _].
    rewrite List.Forall_forall in Hpos.
    assert (0 <= first) by (apply Hpos; left; reflexivity).
    assert (first <= py_max first others) by (apply Hmax; left; reflexivity).
    split; [lia|]. apply List.Forall_forall. intros t Ht.
    split; [apply Hpos, Ht|]. apply Hmax in Ht. lia. }
  destruct (node_new_ok seq d (proj1 Hdim) (proj2 Hdim)) as (nd & Hnd & _).
  eauto.
Qed.

(** X28: for a sequence of non-negative transitions, [detect_dimension]
    is the least dimension in which [SnakeNode] accepts the sequence. *)
Theorem detect_dimension_minimal (seq : list Z) (d : Z) :
  Forall (fun t => 0 <= t) seq ->
  ((exists nd, SnakeNode.new seq d = Ok nd) <-> detect_dimension seq <= d).
Proof.
  intros Hpos. split.
  - intros [nd Hnd]. apply node_new_inv in Hnd.
    pose proof (inv_dim _ _ _ Hnd) as Hdim.
    pose proof (inv_range _ _ _ Hnd) as Hrange.
    destruct seq as [|first others]; [exact Hdim|].
    unfold detect_dimension.
    destruct (py_max_spec others first) as [_ Hin].
    rewrite List.Forall_forall in Hrange. apply Hrange in Hin.
    unfold in_range in Hin. lia.
  - apply node_new_above_detect. exact Hpos.
Qed.

Lemma detect_dimension_minimal_witness :
  (exists nd, SnakeNode.new [0; 1; 2; 0] 3 = Ok nd)
  <-> detect_dimension [0; 1; 2; 0] <= 3.
Proof.
  apply (detect_dimension_minimal [0; 1; 2; 0] 3).
  repeat constructor; discriminate.
Defined.

(** ** Priming below dimension 14 returns

    Below dimension 14 the main loop of [pruned_bfs_search_from_seed] has
    no [continue]: an iteration breaks or moves to the next level, and the
    loop condition bounds the number of levels.  Every node of a level is
    built by [SnakeNode] or by [create_child], on which [can_extend] and
    [create_child] raise nothing but the [ValueError] the loops catch. *)

(** A node built by [SnakeNode] in dimension [dim]. *)
Definition constructed (dim : Z) (nd : SnakeNode.t) : Prop :=
  exists seq, node_inv seq dim nd.

Lemma for_each_total {A S : Type} (P : S -> Prop) (body : A -> S -> result S)
  (l : list A) :
  (forall x s, In x l -> P s -> exists s', body x s = Ok s' /\ P s') ->
  forall s, P s -> exists s', for_each l body s = Ok s' /\ P s'.
Proof.
  induction l as [|x l IH]; intros Hbody s Hs; cbn [for_each]; [eauto|].
  destruct (Hbody x s (or_introl eq_refl) Hs) as (s1 & -> & Hs1). cbn [bind].
  apply IH; [|exact Hs1]. intros y t Hy. apply Hbody. right. exact Hy.
Qed.

Lemma py_any_total {A : Type} (l : list A) (f : A -> result bool) :
  (forall x, In x l -> exists b, f x = Ok b) -> exists b, py_any l f = Ok b.
Proof.
  induction l as [|x l IH]; intros Hf; cbn [py_any]; [eauto|].
  destruct (Hf x (or_introl eq_refl)) as ([|] & ->); cbn [bind]; [eauto|].
  apply IH. intros y Hy. apply Hf. right. exact Hy.
Qed.

Lemma can_extend_total dim nd d :
  constructed dim nd -> exists b, SnakeNode.can_extend nd d = Ok b.
Proof.
  intros (seq & Hinv).
  destruct (can_extend_unused seq dim nd d Hinv) as [[-> _]|[-> _]]; eauto.
Qed.

Lemma node_new_cases seq dim :
  (exists nd, SnakeNode.new seq dim = Ok nd /\ constructed dim nd) \/
  (exists m, SnakeNode.new seq dim = Err (ValueError m)).
Proof.
  destruct (Z_lt_le_dec dim 1) as [Hlt|Hge].
  - right. unfold SnakeNode.new. destruct (Z.ltb_spec dim 1); [eauto|lia].
  - destruct (check_transitions_result dim seq) as [[Hall _]|(t & _ & _ & Herr)].
    + left. destruct (node_new_ok seq dim Hge Hall) as (nd & Hnd & Hinv).
      exists nd. split; [exact Hnd|exists seq; exact Hinv].
    + right. unfold SnakeNode.new. destruct (Z.ltb_spec dim 1); [lia|].
      rewrite Herr. cbn [bind]. eauto.
Qed.

Section SeedTermination.
Context `{Platform}.
Variable dimension : Z.
Variable memory_limit_gb : float.
Hypothesis low_dimension : dimension < 14.
Hypothesis budget : budget_defined memory_limit_gb.

Let nodes_constructed := Forall (constructed dimension).

Lemma can_extend_somewhere_total node :
  constructed dimension node ->
  exists b, can_extend_somewhere node dimension = Ok b.
Proof.
  intros Hnode. unfold can_extend_somewhere. apply py_any_total.
  intros d _. unfold is_valid_extension. eapply can_extend_total, Hnode.
Qed.

Lemma add_prefix_total seed_node prefix_len nodes :
  nodes_constructed nodes ->
  exists nodes', add_prefix seed_node dimension prefix_len nodes = Ok nodes' /\
                 nodes_constructed nodes'.
Proof.
  intros Hnodes. unfold add_prefix, candidate_prefix.
  destruct (node_new_cases
              (py_slice_to (SnakeNode.transition_sequence seed_node) prefix_len)
              dimension) as [(nd & -> & Hnd)|(m & ->)]; cbn [bind except_value_error].
  - destruct (can_extend_total dimension nd (dimension - 1) Hnd) as (b1 & ->).
    cbn [bind].
    destruct (py_any_total
                (below dimension
                   (get_legal_next_dimensions
                      (py_slice_to (SnakeNode.transition_sequence seed_node)
                         prefix_len)))
                (SnakeNode.can_extend nd)) as (b2 & ->).
    { intros d _. eapply can_extend_total, Hnd. }
    cbn [bind except_value_error]. destruct (b1 || b2); eexists; (split; [reflexivity|]).
    + apply Forall_app. split; [exact Hnodes|]. constructor; [exact Hnd|constructor].
    + exact Hnodes.
  - eexists. split; [reflexivity|exact Hnodes].
Qed.

Lemma initial_nodes_total seed_node :
  constructed dimension seed_node ->
  exists nodes, initial_nodes seed_node dimension = Ok nodes /\
                nodes_constructed nodes.
Proof.
  intros Hseed. unfold initial_nodes.
  assert (Hinit : nodes_constructed [seed_node])
    by (constructor; [exact Hseed|constructor]).
  destruct (SnakeNode.get_length seed_node >? 100); [|eauto].
  match goal with
  | |- context [for_each ?l ?body [seed_node]] =>
      destruct (for_each_total nodes_constructed body l) with (s := [seed_node])
        as (nodes & -> & Hnodes)
  end.
  { intros ratio nodes _ Hnodes.
    destruct (_ && _); [apply add_prefix_total; exact Hnodes|eauto]. }
  { exact Hinit. }
  cbn [bind]. apply for_each_total; [|exact Hnodes].
  intros len nodes' _ Hnodes'.
  destruct (_ && _); [apply add_prefix_total; exact Hnodes'|eauto].
Qed.

Lemma keep_viable_total node viable :
  constructed dimension node -> nodes_constructed viable ->
  exists viable', keep_viable dimension node viable = Ok viable' /\
                  nodes_constructed viable'.
Proof.
  intros Hnode Hviable. unfold keep_viable.
  destruct (can_extend_somewhere_total node Hnode) as (b & ->). cbn [bind].
  assert (Hadd : nodes_constructed (viable ++ [node])).
  { apply Forall_app. split; [exact Hviable|]. constructor; [exact Hnode|constructor]. }
  destruct b; [eauto|]. destruct (dimension >=? 14); [|eauto].
  destruct (SnakeNode.fitness node >? 100); eauto.
Qed.

Lemma viable_prefix_constructed source prefix_len nd :
  viable_prefix source dimension prefix_len = Ok (Some nd) ->
  constructed dimension nd.
Proof.
  unfold viable_prefix.
  destruct (node_new_cases
              (py_slice_to (SnakeNode.transition_sequence source) prefix_len)
              dimension) as [(nd' & -> & Hnd)|(m & ->)]; cbn [bind]; [|discriminate].
  destruct (can_extend_somewhere nd' dimension) as [[|]|e]; cbn [bind];
    [|discriminate|discriminate].
  intros [= <-]. exact Hnd.
Qed.

Lemma first_viable_prefix_constructed source bound excluded lengths :
  nodes_constructed (first_viable_prefix source dimension bound excluded lengths).
Proof.
  induction lengths as [|len lengths IH]; cbn [first_viable_prefix];
    [constructor|].
  destruct (_ && _); [|exact IH].
  destruct (viable_prefix source dimension len) as [[nd|]|e] eqn:Hprefix;
    cbn [except_exception]; [|exact IH|exact IH].
  constructor; [|constructor]. eapply viable_prefix_constructed, Hprefix.
Qed.

Lemma starting_nodes_total seed_node :
  constructed dimension seed_node ->
  exists viable, starting_nodes seed_node dimension = Ok viable /\
                 nodes_constructed viable.
Proof.
  intros Hseed. unfold starting_nodes.
  destruct (initial_nodes_total seed_node Hseed) as (nodes & -> & Hnodes).
  cbn [bind].
  destruct (for_each_total nodes_constructed (keep_viable dimension) nodes)
    with (s := @nil SnakeNode.t) as (viable & -> & Hviable).
  { intros node viable Hin Hviable. apply keep_viable_total; [|exact Hviable].
    unfold nodes_constructed in Hnodes. rewrite List.Forall_forall in Hnodes.
    apply Hnodes, Hin. }
  { constructor. }
  cbn [bind].
  destruct viable as [|v viable]; [|eexists; split; [reflexivity|exact Hviable]].
  pose proof (first_viable_prefix_constructed seed_node
                (SnakeNode.get_length seed_node) [] [100; 50; 20; 10; 5]) as Hfound.
  destruct (first_viable_prefix _ _ _ _ _);
    [|eexists; split; [reflexivity|exact Hfound]].
  eexists. split; [reflexivity|]. constructor; [exact Hseed|constructor].
Qed.

Lemma seed_expand_dimension_total node dim_val acc :
  constructed dimension node -> nodes_constructed (seed_next_level acc) ->
  exists acc', seed_expand_dimension dimension node dim_val acc = Ok acc' /\
               nodes_constructed (seed_next_level acc').
Proof.
  intros (seq & Hinv) Hacc. unfold seed_expand_dimension, is_valid_extension.
  destruct (dim_val >=? dimension); [eauto|].
  destruct (can_extend_unused seq dimension node dim_val Hinv) as [[Hext _]|[-> _]];
    cbn [bind]; [|eauto].
  rewrite Hext. cbn [bind].
  destruct (create_child_ok _ _ _ _ Hinv Hext) as (child & -> & Hchild).
  assert (Hadd : nodes_constructed (seed_next_level acc ++ [child])).
  { apply Forall_app. split; [exact Hacc|].
    constructor; [eexists; exact Hchild|constructor]. }
  destruct (SnakeNode.get_length child >? exp_max_length acc);
    eexists; (split; [reflexivity|exact Hadd]).
Qed.

Lemma seed_expand_level_total nodes acc :
  nodes_constructed nodes -> nodes_constructed (seed_next_level acc) ->
  exists acc', for_each nodes (seed_expand_node dimension) acc = Ok acc' /\
               nodes_constructed (seed_next_level acc').
Proof.
  intros Hnodes.
  apply (for_each_total (fun a => nodes_constructed (seed_next_level a))).
  intros node a Hin Ha. unfold seed_expand_node. apply for_each_total; [|exact Ha].
  intros d a' _ Ha'. apply seed_expand_dimension_total; [|exact Ha'].
  unfold nodes_constructed in Hnodes. rewrite List.Forall_forall in Hnodes.
  apply Hnodes, Hin.
Qed.

(** Below dimension 14 an iteration never raises, and it either leaves the
    loop or moves to the next level. *)
Lemma seed_level_total seed_length st :
  nodes_constructed (seed_current_level st) ->
  exists step, seed_level dimension memory_limit_gb seed_length st = Ok step /\
    match step with
    | Break _ => True
    | Next st' =>
        nodes_constructed (seed_current_level st') /\
        seed_level_count st' = seed_level_count st + 1
    end.
Proof.
  intros Hlevel. unfold seed_level.
  assert (Hlow : (dimension >=? 14) = false) by (rewrite Z.geb_leb; apply Z.leb_gt; lia).
  rewrite Hlow.
  match goal with
  | |- context [for_each (seed_current_level st) _ ?acc0] =>
      destruct (seed_expand_level_total (seed_current_level st) acc0 Hlevel)
        as (acc & -> & Hacc); [constructor|]
  end.
  cbn [bind andb]. cbv zeta.
  destruct (seed_next_level acc) as [|nd next] eqn:Hnext;
    [eexists; split; [reflexivity|exact I]|].
  assert (Hpruned : exists pruned,
            (if float_gt (estimate_memory_usage (nd :: next)) memory_limit_gb
             then prune_by_fitness (nd :: next) memory_limit_gb
             else Ok (nd :: next)) = Ok pruned /\ nodes_constructed pruned).
  { destruct (float_gt _ _) eqn:Hover.
    - destruct (prune_by_fitness_ok memory_limit_gb (nd :: next) budget Hover)
        as (pruned & Hprune).
      exists pruned. split; [exact Hprune|].
      unfold nodes_constructed in *. rewrite List.Forall_forall in *.
      intros x Hx. apply Hacc. eapply prune_by_fitness_In; eauto.
    - eauto. }
  destruct Hpruned as (pruned & -> & Hpruned). cbn [bind].
  repeat match goal with
         | |- context [if ?c then _ else _] => destruct c
         end;
    eexists; (split; [reflexivity|]);
    try exact I; (split; [assumption|reflexivity]).
Qed.

Lemma seed_loop_total max_levels seed_length fuel :
  forall st,
    nodes_constructed (seed_current_level st) ->
    Z.max 0 (max_levels - seed_level_count st) < Z.of_nat fuel ->
    exists st',
      seed_loop fuel dimension memory_limit_gb max_levels seed_length st
      = Some (Ok st').
Proof.
  induction fuel as [|fuel IH]; intros st Hlevel Hfuel; [lia|].
  cbn [seed_loop]. destruct (seed_current_level st) eqn:Hcur; [eauto|].
  destruct (Z.ltb_spec (seed_level_count st) max_levels); [|eauto].
  destruct (seed_level_total seed_length st) as ([st'|st'] & -> & Hstep);
    [rewrite Hcur; exact Hlevel|eauto|].
  destruct Hstep as [Hlevel' Hcount]. apply IH; [exact Hlevel'|]. lia.
Qed.

Lemma seed_search_total seq seed_node max_levels min_extension fuel :
  SnakeNode.new seq dimension = Ok seed_node ->
  Z.max 0 max_levels < Z.of_nat fuel ->
  exists r,
    pruned_bfs_search_from_seed fuel seed_node dimension memory_limit_gb
      max_levels min_extension = Some (Ok r) /\
    (r = None \/
     exists n, r = Some n /\ SnakeNode.get_length seed_node < SnakeNode.get_length n).
Proof.
  intros Hnew Hfuel. apply node_new_inv in Hnew.
  assert (Hrun : exists r,
            pruned_bfs_search_from_seed fuel seed_node dimension memory_limit_gb
              max_levels min_extension = Some (Ok r)).
  { unfold pruned_bfs_search_from_seed.
    rewrite (inv_dimension _ _ _ Hnew), Z.eqb_refl. cbn [negb].
    destruct (starting_nodes_total seed_node) as (viable & -> & Hviable);
      [exists seq; exact Hnew|].
    match goal with
    | |- context [seed_loop fuel dimension memory_limit_gb max_levels ?len ?st0] =>
        destruct (seed_loop_total max_levels len fuel st0) as (st & ->)
    end.
    - exact Hviable.
    - cbn [seed_level_count]. lia.
    - destruct (seed_best_snake st); [|eauto].
      destruct (_ >? _); eauto. }
  destruct Hrun as (r & Hrun). exists r. split; [exact Hrun|].
  eapply seed_search_result, Hrun.
Qed.

End SeedTermination.

Lemma prime_search_loop_total `{Platform} (memory_limit_gb : float)
  (target_dimension : Z) (fuel : nat) :
  budget_defined memory_limit_gb -> target_dimension <= 13 ->
  forall current_snake current_dim,
    50000 + Z.max 0 (target_dimension - current_dim) < Z.of_nat fuel ->
    exists s,
      prime_search_loop fuel current_snake current_dim target_dimension
        memory_limit_gb = Some (Ok s).
Proof.
  intros Hbudget Htarget.
  induction fuel as [|fuel IH]; intros current_snake current_dim Hfuel; [lia|].
  cbn [prime_search_loop].
  destruct (Z.ltb_spec current_dim target_dimension) as [Hlt|Hge]; [|eauto].
  destruct (node_new_cases current_snake (current_dim + 1))
    as [(seed_node & Hnew & _)|(m & ->)]; [|eauto].
  rewrite Hnew. cbv zeta.
  assert (Hlow : (current_dim + 1 >=? 14) = false)
    by (rewrite Z.geb_leb; apply Z.leb_gt; lia).
  rewrite Hlow.
  destruct (seed_search_total (current_dim + 1) memory_limit_gb ltac:(lia) Hbudget
              current_snake seed_node 50000 1 fuel Hnew ltac:(lia))
    as (r & -> & _).
  destruct r as [extended|]; [|eauto].
  destruct (_ >? _); [|eauto].
  apply IH. lia.
Qed.



(** ** Priming below dimension 14 *)

(** [list(range(a, b))] *)
Definition dimensions_between (a b : Z) : list Z := map (Z.add a) (zrange (b - a)).

Lemma dimensions_between_empty (a b : Z) : b <= a -> dimensions_between a b = [].
Proof.
  intros Hle. unfold dimensions_between, zrange.
  replace (Z.to_nat (b - a)) with 0%nat by lia. reflexivity.
Qed.

Lemma dimensions_between_cons (a b : Z) :
  a < b -> dimensions_between a b = a :: dimensions_between (a + 1) b.
Proof.
  intros Hlt. unfold dimensions_between, zrange.
  replace (Z.to_nat (b - a)) with (S (Z.to_nat (b - (a + 1)))) by lia.
  cbn [seq map]. rewrite Z.add_0_r. f_equal.
  rewrite <- seq_shift, !map_map. apply map_ext. intros n. lia.
Qed.

Lemma detect_dimension_snoc (snake : list Z) (d : Z) :
  snake <> [] -> detect_dimension snake = d ->
  detect_dimension (snake ++ [d]) = d + 1.
Proof.
  destruct snake as [|first others]; [contradiction|]. intros _.
  unfold detect_dimension, py_max. cbn [app]. rewrite fold_left_app.
  cbn [fold_left]. lia.
Qed.

Lemma create_child_new seq dim nd d c :
  node_inv seq dim nd -> SnakeNode.create_child nd d = Ok c ->
  SnakeNode.new (seq ++ [d]) dim = Ok c.
Proof.
  intros Hinv. unfold SnakeNode.create_child.
  destruct (SnakeNode.can_extend nd d) as [[|]|]; cbn [bind negb];
    [|discriminate|discriminate].
  rewrite (inv_sequence _ _ _ Hinv), (inv_dimension _ _ _ Hinv). auto.
Qed.

Lemma py_any_true {A : Type} (l : list A) (f : A -> result bool) :
  (forall x, In x l -> exists b, f x = Ok b) ->
  (exists x, In x l /\ f x = Ok true) ->
  py_any l f = Ok true.
Proof.
  induction l as [|a l IH]; intros Hall (x & Hin & Hx); [destruct Hin|].
  cbn [py_any]. destruct (Hall a (or_introl eq_refl)) as [b Hb].
  rewrite Hb. cbn [bind]. destruct b; [reflexivity|].
  apply IH; [intros y Hy; apply Hall; right; exact Hy|].
  destruct Hin as [->|Hin]; [congruence|eauto].
Qed.

Section PrimingExact.
Context `{Platform}.
Variable memory_limit_gb : float.

Lemma with_new_dimension_same dimension legal_dims :
  In (dimension - 1) legal_dims ->
  with_new_dimension dimension legal_dims = legal_dims.
Proof.
  intros Hin. unfold with_new_dimension.
  assert (Hex : existsb (Z.eqb (dimension - 1)) legal_dims = true).
  { apply existsb_exists. exists (dimension - 1). split; [exact Hin|apply Z.eqb_refl]. }
  rewrite Hex. reflexivity.
Qed.

Lemma seed_expand_blocked dimension nd dims acc :
  (forall d, In d dims ->
     (d >=? dimension) = true \/ SnakeNode.can_extend nd d = Ok false) ->
  for_each dims (seed_expand_dimension dimension nd) acc = Ok acc.
Proof.
  induction dims as [|d dims IH]; intros Hno; [reflexivity|].
  cbn [for_each]. rewrite seed_expand_dimension_skip by (apply Hno; left; reflexivity).
  cbn [bind]. apply IH. intros d' Hd'. apply Hno. right. exact Hd'.
Qed.

(** A non-empty sequence whose largest transition is [dim - 2], in
    dimension [dim]: the only legal dimension that extends it is the new
    one, [dim - 1]. *)
Record primed (seq : list Z) (dim : Z) (nd : SnakeNode.t) : Prop := {
  primed_inv : node_inv seq dim nd;
  primed_nonempty : seq <> [];
  primed_detect : detect_dimension seq = dim - 1
}.

Lemma primed_legal seq dim nd :
  primed seq dim nd ->
  (forall d, In d (get_legal_next_dimensions seq) <-> In d seq \/ d = dim - 1) /\
  ~ In (dim - 1) seq.
Proof.
  intros [Hinv Hne Hdetect]. destruct seq as [|first others]; [contradiction|].
  unfold detect_dimension in Hdetect. split.
  - intros d. rewrite legal_next_dimensions_In, Hdetect. reflexivity.
  - intros Hin. destruct (py_max_spec others first) as [Hle _].
    apply Hle in Hin. lia.
Qed.

Lemma primed_extends seq dim nd :
  primed seq dim nd ->
  exists c, SnakeNode.can_extend nd (dim - 1) = Ok true /\
    SnakeNode.create_child nd (dim - 1) = Ok c /\
    SnakeNode.new (seq ++ [dim - 1]) dim = Ok c /\
    SnakeNode.get_length c = SnakeNode.get_length nd + 1.
Proof.
  intros Hp. destruct (primed_legal _ _ _ Hp) as [_ Hunused].
  destruct Hp as [Hinv Hne Hdetect].
  pose proof (inv_dim _ _ _ Hinv) as Hdim.
  assert (Hext : SnakeNode.can_extend nd (dim - 1) = Ok true).
  { destruct (can_extend_unused seq dim nd (dim - 1) Hinv) as [(Hext & _)|[_ Hno]];
      [exact Hext|exfalso].
    apply Hno. split; [unfold in_range; lia|exact Hunused]. }
  destruct (create_child_ok _ _ _ _ Hinv Hext) as (c & Hc & Hcinv).
  exists c. split; [exact Hext|]. split; [exact Hc|].
  split; [apply (create_child_new _ _ _ _ _ Hinv Hc)|].
  unfold SnakeNode.get_length.
  rewrite (inv_sequence _ _ _ Hcinv), (inv_sequence _ _ _ Hinv), length_app.
  cbn [length]. lia.
Qed.

Lemma seed_expand_node_once seq dim nd c acc :
  primed seq dim nd ->
  SnakeNode.create_child nd (dim - 1) = Ok c ->
  exp_max_length acc <= SnakeNode.get_length nd ->
  seed_expand_node dim nd acc
  = Ok {| seed_next_level := seed_next_level acc ++ [c];
          exp_best_snake := Some c;
          exp_max_length := SnakeNode.get_length c;
          exp_nodes_explored := exp_nodes_explored acc + 1;
          exp_no_improvement := 0 |}.
Proof.
  intros Hp Hc Hmax.
  destruct (primed_legal _ _ _ Hp) as [Hlegal Hunused].
  destruct (primed_extends _ _ _ Hp) as (c' & Hext & Hc' & _ & Hlen).
  assert (c' = c) by congruence. subst c'.
  destruct Hp as [Hinv Hne Hdetect].
  assert (Hin : In (dim - 1) (get_legal_next_dimensions seq))
    by (apply Hlegal; right; reflexivity).
  unfold seed_expand_node.
  rewrite (inv_sequence _ _ _ Hinv), with_new_dimension_same by exact Hin.
  destruct (in_split _ _ Hin) as (l1 & l2 & Hsplit).
  pose proof (legal_next_dimensions_increasing seq) as Hord.
  rewrite Hsplit in Hord. destruct (ordered_split _ _ _ Hord) as [Hl1 Hl2].
  rewrite Hsplit, for_each_app, seed_expand_blocked.
  - cbn [bind for_each].
    rewrite (seed_expand_dimension_improves dim nd (dim - 1) c acc).
    + cbn [bind]. apply seed_expand_blocked.
      intros d Hd. left. apply Hl2 in Hd.
      destruct (Z.geb_spec d dim); [reflexivity|lia].
    + destruct (Z.geb_spec (dim - 1) dim); [lia|reflexivity].
    + exact Hext.
    + exact Hc.
    + destruct (Z.gtb_spec (SnakeNode.get_length c) (exp_max_length acc));
        [reflexivity|lia].
  - intros d Hd. right.
    apply (cannot_extend_used_dimension _ _ _ _ Hinv).
    assert (Hd' : In d (get_legal_next_dimensions seq))
      by (rewrite Hsplit; apply in_or_app; left; exact Hd).
    apply Hlegal in Hd' as [Hseq|Heq]; [exact Hseq|].
    apply Hl1 in Hd. lia.
Qed.

Lemma seed_expand_node_none seq dim nd acc :
  node_inv seq dim nd -> seq <> [] -> detect_dimension seq = dim ->
  seed_expand_node dim nd acc = Ok acc.
Proof.
  intros Hinv Hne Hdetect. destruct seq as [|first others]; [contradiction|].
  unfold detect_dimension in Hdetect.
  destruct (py_max_spec others first) as [_ Hmax].
  unfold seed_expand_node. rewrite (inv_sequence _ _ _ Hinv).
  rewrite with_new_dimension_same.
  - apply seed_expand_blocked. intros d Hd.
    apply legal_next_dimensions_In in Hd as [Hseq|Heq].
    + right. apply (cannot_extend_used_dimension _ _ _ _ Hinv Hseq).
    + left. destruct (Z.geb_spec d dim); [reflexivity|lia].
  - apply legal_next_dimensions_In. left.
    replace (dim - 1) with (py_max first others) by lia. exact Hmax.
Qed.

Lemma primed_starting_nodes seq dim nd :
  primed seq dim nd -> SnakeNode.get_length nd <= 100 ->
  starting_nodes nd dim = Ok [nd].
Proof.
  intros Hp Hshort.
  destruct (primed_legal _ _ _ Hp) as [Hlegal _].
  destruct (primed_extends _ _ _ Hp) as (c & Hext & _).
  destruct Hp as [Hinv Hne Hdetect].
  assert (Hin : In (dim - 1) (get_legal_next_dimensions seq))
    by (apply Hlegal; right; reflexivity).
  assert (Hviable : can_extend_somewhere nd dim = Ok true).
  { unfold can_extend_somewhere.
    rewrite (inv_sequence _ _ _ Hinv), with_new_dimension_same by exact Hin.
    apply py_any_true.
    - intros d _. unfold is_valid_extension.
      rewrite (can_extend_spec _ _ _ d Hinv). eauto.
    - exists (dim - 1). split; [|exact Hext].
      unfold below. apply filter_In. split; [exact Hin|].
      destruct (Z.ltb_spec (dim - 1) dim); [reflexivity|lia]. }
  unfold starting_nodes, initial_nodes.
  destruct (Z.gtb_spec (SnakeNode.get_length nd) 100); [lia|].
  cbn [bind for_each]. unfold keep_viable. rewrite Hviable. reflexivity.
Qed.

Lemma seed_loop_next fuel dim max_levels seed_length st st' :
  seed_current_level st <> [] -> (seed_level_count st <? max_levels) = true ->
  seed_level dim memory_limit_gb seed_length st = Ok (Next st') ->
  seed_loop (S fuel) dim memory_limit_gb max_levels seed_length st
  = seed_loop fuel dim memory_limit_gb max_levels seed_length st'.
Proof.
  intros Hne Hcount Hstep. cbn [seed_loop].
  destruct (seed_current_level st); [contradiction|].
  rewrite Hcount, Hstep. reflexivity.
Qed.

Lemma seed_loop_break fuel dim max_levels seed_length st st' :
  seed_current_level st <> [] -> (seed_level_count st <? max_levels) = true ->
  seed_level dim memory_limit_gb seed_length st = Ok (Break st') ->
  seed_loop (S fuel) dim memory_limit_gb max_levels seed_length st
  = Some (Ok st').
Proof.
  intros Hne Hcount Hstep. cbn [seed_loop].
  destruct (seed_current_level st); [contradiction|].
  rewrite Hcount, Hstep. reflexivity.
Qed.

(** The search from a primed seed below dimension 14: one level adds the
    new dimension, the next level finds nothing and ends the search. *)
Lemma primed_seed_search seq dim nd fuel :
  primed seq dim nd -> dim < 14 -> SnakeNode.get_length nd <= 100 ->
  (forall c, SnakeNode.new (seq ++ [dim - 1]) dim = Ok c ->
     float_gt (estimate_memory_usage [c]) memory_limit_gb = false) ->
  (2 <= fuel)%nat ->
  exists c, SnakeNode.new (seq ++ [dim - 1]) dim = Ok c /\
    pruned_bfs_search_from_seed fuel nd dim memory_limit_gb 50000 1
    = Some (Ok (Some c)).
Proof.
  intros Hp Hdim Hshort Hfits Hfuel.
  destruct (primed_extends _ _ _ Hp) as (c & Hext & Hc & Hcnew & Hclen).
  pose proof (primed_starting_nodes _ _ _ Hp Hshort) as Hstart.
  pose proof (primed_inv _ _ _ Hp) as Hinv.
  pose proof (node_new_inv _ _ _ Hcnew) as Hcinv.
  exists c. split; [exact Hcnew|].
  set (len := SnakeNode.get_length nd) in *.
  set (st0 := {| seed_current_level := [nd]; seed_best_snake := Some nd;
                 seed_max_length := len; seed_level_count := 0;
                 seed_nodes_explored := 0; no_improvement_count := 0 |}).
  set (st1 := {| seed_current_level := [c]; seed_best_snake := Some c;
                 seed_max_length := SnakeNode.get_length c; seed_level_count := 1;
                 seed_nodes_explored := 1; no_improvement_count := 0 |}).
  assert (Hhigh : (dim >=? 14) = false)
    by (destruct (Z.geb_spec dim 14); [lia|reflexivity]).
  assert (Hfirst : seed_level dim memory_limit_gb len st0 = Ok (Next st1)).
  { unfold seed_level, st0.
    cbn [seed_current_level seed_best_snake seed_max_length seed_level_count
         seed_nodes_explored no_improvement_count for_each].
    rewrite (seed_expand_node_once seq dim nd c) by
      (try assumption; cbn [exp_max_length]; unfold len; lia).
    cbv beta iota zeta delta [bind seed_next_level exp_no_improvement
                                exp_max_length exp_best_snake exp_nodes_explored app].
    rewrite (Hfits c Hcnew), Hhigh. reflexivity. }
  assert (Hsecond : seed_level dim memory_limit_gb len st1 = Ok (Break st1)).
  { unfold seed_level, st1.
    cbn [seed_current_level seed_best_snake seed_max_length seed_level_count
         seed_nodes_explored no_improvement_count for_each].
    rewrite (seed_expand_node_none (seq ++ [dim - 1]) dim c).
    - cbv beta iota zeta delta [bind seed_next_level exp_no_improvement
                                  exp_max_length exp_best_snake exp_nodes_explored].
      rewrite Hhigh. reflexivity.
    - exact Hcinv.
    - destruct seq; discriminate.
    - rewrite (detect_dimension_snoc seq (dim - 1)
                 (primed_nonempty _ _ _ Hp) (primed_detect _ _ _ Hp)). lia. }
  unfold pruned_bfs_search_from_seed.
  rewrite (inv_dimension _ _ _ Hinv), Z.eqb_refl. cbn [negb].
  rewrite Hstart. fold len. fold st0.
  destruct fuel as [|[|fuel]]; [lia|lia|].
  rewrite (seed_loop_next _ _ _ _ st0 st1), (seed_loop_break _ _ _ _ st1 st1);
    try (exact Hfirst || exact Hsecond || reflexivity || discriminate).
  unfold st1. cbn [seed_best_snake seed_max_length].
  rewrite Hclen. destruct (Z.gtb_spec (len + 1) len); [reflexivity|lia].
Qed.

Lemma prime_loop_exact (target : Z) (fuel : nat) :
  forall snake d,
    snake <> [] -> Forall (fun t => 0 <= t) snake ->
    detect_dimension snake = d -> target <= 13 ->
    Z.of_nat (length snake) + (target - d) <= 101 ->
    (forall k nd, d < k <= target ->
       SnakeNode.new (snake ++ dimensions_between d k) k = Ok nd ->
       float_gt (estimate_memory_usage [nd]) memory_limit_gb = false) ->
    Z.max 0 (target - d) + 2 <= Z.of_nat fuel ->
    prime_search_loop fuel snake d target memory_limit_gb
    = Some (Ok (snake ++ dimensions_between d target)).
Proof.
  induction fuel as [|fuel IH]; intros snake d Hne Hpos Hdetect Htarget Hlen Hfits
    Hfuel; [lia|].
  cbn [prime_search_loop].
  destruct (Z.ltb_spec d target) as [Hlt|Hge];
    [|rewrite dimensions_between_empty, app_nil_r by lia; reflexivity].
  assert (Hnew : exists nd, SnakeNode.new snake (d + 1) = Ok nd)
    by (apply (node_new_above_detect snake (d + 1) Hpos); lia).
  destruct Hnew as [nd Hnd]. rewrite Hnd.
  assert (Hp : primed snake (d + 1) nd).
  { split; [apply node_new_inv, Hnd|exact Hne|lia]. }
  assert (Hhigh : (d + 1 >=? 14) = false)
    by (destruct (Z.geb_spec (d + 1) 14); [lia|reflexivity]).
  rewrite Hhigh. cbv zeta iota.
  assert (Hlength : SnakeNode.get_length nd = Z.of_nat (length snake)).
  { unfold SnakeNode.get_length.
    rewrite (inv_sequence _ _ _ (primed_inv _ _ _ Hp)). reflexivity. }
  destruct (primed_seed_search snake (d + 1) nd fuel Hp) as (c & Hcnew & Hsearch);
    [lia|lia| |lia|].
  { replace (d + 1 - 1) with d by lia. intros c Hc.
    apply (Hfits (d + 1) c); [lia|].
    rewrite (dimensions_between_cons d (d + 1)), dimensions_between_empty by lia.
    exact Hc. }
  replace (d + 1 - 1) with d in Hcnew by lia.
  rewrite Hsearch.
  pose proof (node_new_inv _ _ _ Hcnew) as Hcinv.
  assert (Hclen : SnakeNode.get_length c = Z.of_nat (length snake) + 1).
  { unfold SnakeNode.get_length. rewrite (inv_sequence _ _ _ Hcinv), length_app.
    cbn [length]. lia. }
  rewrite Hclen.
  destruct (Z.gtb_spec (Z.of_nat (length snake) + 1) (Z.of_nat (length snake)));
    [|lia].
  rewrite (inv_sequence _ _ _ Hcinv).
  rewrite (IH (snake ++ [d]) (d + 1)).
  - rewrite (dimensions_between_cons d target) by lia.
    rewrite <- app_assoc. reflexivity.
  - destruct snake; discriminate.
  - apply List.Forall_app. split; [exact Hpos|].
    constructor; [|constructor].
    destruct snake as [|first others]; [contradiction|].
    unfold detect_dimension in Hdetect.
    destruct (py_max_spec others first) as [Hle _].
    rewrite List.Forall_forall in Hpos.
    assert (0 <= first) by (apply Hpos; left; reflexivity).
    assert (first <= py_max first others) by (apply Hle; left; reflexivity). lia.
  - apply detect_dimension_snoc; assumption.
  - exact Htarget.
  - rewrite length_app. cbn [length]. lia.
  - intros k nd' Hk Hnd'. apply (Hfits k nd'); [lia|].
    rewrite (dimensions_between_cons d k) by lia.
    rewrite <- app_assoc in Hnd'. exact Hnd'.
  - lia.
Qed.

End PrimingExact.

(** X30: below dimension 14 priming is exact.  For a non-empty seed of
    non-negative transitions that is short enough for no prefix node to be
    added (at most 100 transitions in every round), a target dimension of
    at most 13, and a memory limit under which no single-node frontier is
    pruned, [prime_search] returns the seed followed by the new dimensions
    [d, d+1, ..., target-1], where [d] is the dimension detected for the
    seed: each round appends exactly the dimension it adds. *)
Theorem prime_search_below_14 `{Platform} (seed : list Z) (target : Z)
  (memory_limit_gb : float) (fuel : nat) :
  seed <> [] ->
  Forall (fun t => 0 <= t) seed ->
  target <= 13 ->
  Z.of_nat (length seed) + (target - detect_dimension seed) <= 101 ->
  (forall k nd, detect_dimension seed < k <= target ->
     SnakeNode.new (seed ++ dimensions_between (detect_dimension seed) k) k = Ok nd ->
     float_gt (estimate_memory_usage [nd]) memory_limit_gb = false) ->
  Z.max 0 (target - detect_dimension seed) + 2 <= Z.of_nat fuel ->
  prime_search fuel seed target memory_limit_gb
  = Some (Ok (seed ++ dimensions_between (detect_dimension seed) target)).
Proof.
  intros Hne Hpos Htarget Hlen Hfits Hfuel. unfold prime_search.
  destruct (Z.geb_spec (detect_dimension seed) target) as [Hge|Hlt].
  - rewrite dimensions_between_empty, app_nil_r by lia. reflexivity.
  - apply prime_loop_exact; auto.
Qed.

Lemma reference_primed_node_fits (k : Z) (nd : SnakeNode.t) :
  detect_dimension [0; 1; 2; 0] < k <= 5 ->
  SnakeNode.new ([0; 1; 2; 0] ++ dimensions_between (detect_dimension [0; 1; 2; 0]) k) k
  = Ok nd ->
  @float_gt reference_platform
    (@estimate_memory_usage reference_platform [nd]) (18 # 1)%Q = false.
Proof.
  change (detect_dimension [0; 1; 2; 0]) with 3. intros Hk Hnd.
  apply node_new_inv in Hnd. pose proof (inv_wf _ _ _ Hnd) as Hwf.
  assert (Hwords : HypercubeBitmap.num_words (SnakeNode.vertices_bitmap nd) = 1).
  { rewrite (wf_num_words _ Hwf), (wf_num_vertices _ Hwf),
      (inv_bitmap_dimension _ _ _ Hnd).
    assert (Hcases : k = 4 \/ k = 5) by lia.
    destruct Hcases as [-> | ->]; reflexivity. }
  pose proof (wf_length _ Hwf) as Hlen. rewrite Hwords in Hlen.
  unfold estimate_memory_usage, estimate_node_size.
  cbn [float_gt bytes_to_gb getsizeof_list getsizeof_int getsizeof_array
       reference_platform].
  rewrite (inv_sequence _ _ _ Hnd), Hlen, Hwords.
  assert (Hcases : k = 4 \/ k = 5) by lia.
  destruct Hcases as [-> | ->]; reflexivity.
Qed.

Lemma prime_search_below_14_witness :
  @prime_search reference_platform 4 [0; 1; 2; 0] 5 (18 # 1)%Q
  = Some (Ok [0; 1; 2; 0; 3; 4]).
Proof.
  apply (@prime_search_below_14 reference_platform [0; 1; 2; 0] 5 (18 # 1)%Q 4).
  - discriminate.
  - repeat constructor; discriminate.
  - discriminate.
  - discriminate.
  - exact reference_primed_node_fits.
  - discriminate.
Defined.
